(** * Qcache: a shallow embedding of [qcache/qcache.h]

    The header defines the device interface [MemSysDev], the trace sink
    [Tracer] and the set-associative [Cache] template.  Machine integers are
    modelled as [Z] with the wrap-around of their C++ type written out
    ([addr_t] and [uint64_t] are 64 bits wide, [timestamp_t] is 32 bits
    wide); the fixed-size arrays of a cache are lists indexed by [Z].

    A single requester drives the unit, so the spin locks ([setLocks] and
    [accessLock], hence the [SHARED] template flag) have no effect on the
    result and are not part of the state.  The member [peers] is never
    read, and [name] and [id] are read by the destructor only; they are left
    out as well. *)

From stdpp Require Import base list strings pretty.
From Stdlib Require Import ZArith Lia Ascii.

Local Open Scope Z_scope.

(** [namespace Qcache] *)
Module Qcache.

(** ** Machine integers *)

Definition u64 (x : Z) : Z := x mod 2 ^ 64.
Definition u32 (x : Z) : Z := x mod 2 ^ 32.

(** [typedef uint64_t addr_t]: the values an address argument can take. *)
Definition is_addr (a : Z) : Prop := 0 <= a < 2 ^ 64.

(** [#define TIMESTAMP_MAX UINT_MAX], with [unsigned] 32 bits wide *)
Definition TIMESTAMP_MAX : Z := 2 ^ 32 - 1.

(** ** Arrays

    [rd a i] is [a[i]] and [upd a i v] is [a[i] = v].  An index outside the
    array is undefined behaviour in the source; here such a read yields 0
    and such a write is dropped.  The geometry hypotheses of the theorems
    keep every index inside its array. *)

Definition rd (a : list Z) (i : Z) : Z := default 0 (a !! Z.to_nat i).
Definition upd (a : list Z) (i : Z) (v : Z) : list Z := <[Z.to_nat i := v]> a.

(** ** Outcomes of a call

    A call returns normally, terminates the process through [abort()] (the
    [ASSERT] macro), or throws ([struct InvalidAccess]). *)

Inductive exn : Type := InvalidAccess.

Inductive outcome (A : Type) : Type :=
| Ok (a : A)
| Aborted
| Thrown (e : exn).

Arguments Ok {A} a.
Arguments Aborted {A}.
Arguments Thrown {A} e.

Definition obind {A B : Type} (m : outcome A) (k : A -> outcome B) : outcome B :=
  match m with
  | Ok a => k a
  | Aborted => Aborted
  | Thrown e => Thrown e
  end.

Definition omap {A B : Type} (f : A -> B) (m : outcome A) : outcome B :=
  obind m (fun a => Ok (f a)).

#[export] Instance outcome_ret : MRet outcome := @Ok.
#[export] Instance outcome_bind : MBind outcome := fun A B k m => obind m k.

(** ** [class MemSysDev]: every level of the hierarchy *)

Class MemSysDev (D : Type) : Type := {
  access : Z -> bool -> D -> outcome D;
  invalidate : Z -> D -> outcome D
}.

(** ** [class Tracer]

    The state is the text written to [tracefile] so far. *)

Record Tracer : Type := { tracefile : string }.

Definition Tracer_access (addr : Z) (wr : bool) (t : Tracer) : outcome Tracer :=
  Ok {| tracefile :=
          tracefile t +:+ pretty addr +:+ (if wr then " W" else " R") +:+ "
" |}.

Definition Tracer_invalidate (addr : Z) (t : Tracer) : outcome Tracer :=
  Thrown InvalidAccess.

#[export] Instance Tracer_dev : MemSysDev Tracer :=
  {| access := Tracer_access; invalidate := Tracer_invalidate |}.

(** A device for observing the calls a unit makes below itself: its state
    is the list of [access] calls received, oldest first.  It is not part of
    the header; it stands for an arbitrary lower level whose [access]
    returns. *)

Definition CallLog : Type := list (Z * bool).

#[export] Instance CallLog_dev : MemSysDev CallLog :=
  {| access := fun addr wr l => Ok (l ++ [(addr, wr)]);
     invalidate := fun _ l => Ok l |}.

(** ** [class Cache] *)

Record Cache (LL : Type) : Type := mkCache {
  lowerLevel : LL;
  tagarray : list Z;
  tsarray : list Z;
  tsmax : list Z;
  accesses : Z;
  misses : Z
}.

Arguments mkCache {LL}.
Arguments lowerLevel {LL}.
Arguments tagarray {LL}.
Arguments tsarray {LL}.
Arguments tsmax {LL}.
Arguments accesses {LL}.
Arguments misses {LL}.

Section CacheUnit.

(** The template parameters [WAYS], [L2SETS] and [L2LINESZ] (all [int])
    and the type of the lower level. *)
Variables WAYS L2SETS L2LINESZ : Z.
Context {LL : Type} `{MemSysDev LL}.

(** [addr_t stateMask((1<<L2LINESZ)-1)] *)
Definition stateMask : Z := u64 (1 ≪ L2LINESZ - 1).

(** [tag(addr>>L2LINESZ)] *)
Definition tag_of (addr : Z) : Z := addr ≫ L2LINESZ.

(** [set(tag%(1<<L2SETS))] *)
Definition set_of (tag : Z) : Z := tag mod u64 (1 ≪ L2SETS).

(** [set*WAYS] and [(set+1)*WAYS], the bounds of the loops over a set *)
Definition set_lo (set : Z) : Z := u64 (set * WAYS).
Definition set_hi (set : Z) : Z := u64 ((set + 1) * WAYS).

(** [(tag<<L2LINESZ)|0x01], the word written for an installed line *)
Definition line_word (tag : Z) : Z := Z.lor (u64 (tag ≪ L2LINESZ)) 1.

(** [tagarray[idx]&stateMask], as a truth value *)
Definition slot_valid (ta : list Z) (idx : Z) : bool :=
  negb (Z.land (rd ta idx) stateMask =? 0).

(** [tagarray[idx]>>L2LINESZ] *)
Definition slot_tag (ta : list Z) (idx : Z) : Z := rd ta idx ≫ L2LINESZ.

(** [initArrays()]: every element of [tagarray], [tsarray] and [tsmax] is
    set to zero.  The arrays have [(size_t)WAYS<<L2SETS] and [1l<<L2SETS]
    elements. *)
Definition initArrays (ll : LL) (acc mis : Z) : Cache LL :=
  let n := Z.to_nat (u64 (u64 WAYS ≪ L2SETS)) in
  {| lowerLevel := ll;
     tagarray := replicate n 0;
     tsarray := replicate n 0;
     tsmax := replicate (Z.to_nat (1 ≪ L2SETS)) 0;
     accesses := acc;
     misses := mis |}.

(** [Cache(MemSysDev &ll, const char *n)]: [accesses(0), misses(0)], then
    [initArrays()]. *)
Definition Cache_new (ll : LL) : Cache LL := initArrays ll 0 0.

(** [updateRepl(set, idx)] *)
Definition updateRepl (set idx : Z) (c : Cache LL) : outcome (Cache LL) :=
  if rd (tsmax c) set =? TIMESTAMP_MAX then Aborted
  else
    let t := u32 (rd (tsmax c) set + 1) in
    Ok {| lowerLevel := lowerLevel c;
          tagarray := tagarray c;
          tsarray := upd (tsarray c) idx t;
          tsmax := upd (tsmax c) set t;
          accesses := accesses c;
          misses := misses c |}.

(** The loop of [findVictim]: [n] iterations remain, [i] is the loop
    variable. *)
Fixpoint findVictim_loop (ta ts : list Z) (n : nat) (i maxIdx maxTs : Z) : Z :=
  match n with
  | O => maxIdx
  | S n' =>
      if Z.land (rd ta i) stateMask =? 0 then i
      else if rd ts i >? maxTs
           then findVictim_loop ta ts n' (i + 1) i (rd ts i)
           else findVictim_loop ta ts n' (i + 1) maxIdx maxTs
  end.

(** [findVictim(set)] *)
Definition findVictim (set : Z) (c : Cache LL) : Z :=
  let i := set_lo set in
  findVictim_loop (tagarray c) (tsarray c)
    (Z.to_nat (set_hi set - (i + 1))) (i + 1) i (rd (tsarray c) i).

(** The lookup loop of [access]: the first slot of the set that holds
    [tag] and is valid, if there is one. *)
Fixpoint access_loop (ta : list Z) (tag : Z) (n : nat) (idx : Z) : option Z :=
  match n with
  | O => None
  | S n' =>
      if (slot_tag ta idx =? tag) && slot_valid ta idx then Some idx
      else access_loop ta tag n' (idx + 1)
  end.

Definition findMatch (addr : Z) (c : Cache LL) : option Z :=
  let tag := tag_of addr in
  let set := set_of tag in
  access_loop (tagarray c) tag (Z.to_nat (set_hi set - set_lo set)) (set_lo set).

(** Whether [access(addr, _)] takes the hit branch. *)
Definition is_hit (addr : Z) (c : Cache LL) : bool :=
  match findMatch addr c with Some _ => true | None => false end.

(** [++accesses] and [++misses] *)
Definition count_access (c : Cache LL) : Cache LL :=
  {| lowerLevel := lowerLevel c; tagarray := tagarray c;
     tsarray := tsarray c; tsmax := tsmax c;
     accesses := u64 (accesses c + 1); misses := misses c |}.

Definition count_miss (c : Cache LL) : Cache LL :=
  {| lowerLevel := lowerLevel c; tagarray := tagarray c;
     tsarray := tsarray c; tsmax := tsmax c;
     accesses := accesses c; misses := u64 (misses c + 1) |}.

(** The state of the unit once the call [lowerLevel->access(...)] has
    returned and left the lower level in state [ll]. *)
Definition lower_returned (ll : LL) (c : Cache LL) : Cache LL :=
  {| lowerLevel := ll; tagarray := tagarray c;
     tsarray := tsarray c; tsmax := tsmax c;
     accesses := accesses c; misses := misses c |}.

(** [tagarray[idx] = (tag<<L2LINESZ)|0x01] *)
Definition install (idx tag : Z) (c : Cache LL) : Cache LL :=
  {| lowerLevel := lowerLevel c;
     tagarray := upd (tagarray c) idx (line_word tag);
     tsarray := tsarray c; tsmax := tsmax c;
     accesses := accesses c; misses := misses c |}.

(** The miss branch of [access], from [++misses] on. *)
Definition access_miss (addr : Z) (wr : bool) (c1 : Cache LL) : outcome (Cache LL) :=
  let tag := tag_of addr in
  let set := set_of tag in
  let c2 := count_miss c1 in
  ll' ← access (u64 (tag ≪ L2LINESZ)) wr (lowerLevel c2);
  let c3 := lower_returned ll' c2 in
  let idx := findVictim set c3 in
  c4 ← updateRepl set idx c3;
  Ok (install idx tag c4).

(** [access(addr, wr)] *)
Definition Cache_access (addr : Z) (wr : bool) (c : Cache LL) : outcome (Cache LL) :=
  let c1 := count_access c in
  match findMatch addr c1 with
  | Some idx => updateRepl (set_of (tag_of addr)) idx c1
  | None => access_miss addr wr c1
  end.

(** The loop of [invalidate]. *)
Fixpoint invalidate_loop (tag : Z) (n : nat) (idx : Z) (ta : list Z) : list Z :=
  match n with
  | O => ta
  | S n' =>
      invalidate_loop tag n' (idx + 1)
        (if slot_tag ta idx =? tag then upd ta idx 0 else ta)
  end.

(** [invalidate(addr)] *)
Definition Cache_invalidate (addr : Z) (c : Cache LL) : outcome (Cache LL) :=
  let tag := tag_of addr in
  let set := set_of tag in
  Ok {| lowerLevel := lowerLevel c;
        tagarray := invalidate_loop tag (Z.to_nat (set_hi set - set_lo set))
                      (set_lo set) (tagarray c);
        tsarray := tsarray c; tsmax := tsmax c;
        accesses := accesses c; misses := misses c |}.

#[export] Instance Cache_dev : MemSysDev (Cache LL) :=
  {| access := Cache_access; invalidate := Cache_invalidate |}.

(** *** Calls in sequence *)

Inductive call : Type :=
| Access (addr : Z) (wr : bool)
| Invalidate (addr : Z).

Definition call_addr (k : call) : Z :=
  match k with Access a _ => a | Invalidate a => a end.

Definition do_call (k : call) (c : Cache LL) : outcome (Cache LL) :=
  match k with
  | Access a w => Cache_access a w c
  | Invalidate a => Cache_invalidate a c
  end.

Fixpoint run (ks : list call) (c : Cache LL) : outcome (Cache LL) :=
  match ks with
  | [] => Ok c
  | k :: ks' => c' ← do_call k c; run ks' c'
  end.

(** *** Predicates used in the statements *)

(** The arrays have the sizes the class declares and the timestamps are
    values of [timestamp_t]. *)
Definition wf (c : Cache LL) : Prop :=
  length (tagarray c) = Z.to_nat (WAYS * 2 ^ L2SETS) /\
  length (tsarray c) = Z.to_nat (WAYS * 2 ^ L2SETS) /\
  length (tsmax c) = Z.to_nat (2 ^ L2SETS) /\
  (forall s, 0 <= rd (tsmax c) s < 2 ^ 32).

(** Slot [idx] belongs to set [set], is valid and holds [tag]. *)
Definition resident (c : Cache LL) (set tag idx : Z) : Prop :=
  set_lo set <= idx < set_hi set /\
  slot_valid (tagarray c) idx = true /\
  slot_tag (tagarray c) idx = tag.

(** No tag is resident in two slots of set [set]. *)
Definition no_dup_in_set (c : Cache LL) (set : Z) : Prop :=
  forall tag i j, resident c set tag i -> resident c set tag j -> i = j.

(** The valid slots of set [set]. *)
Definition resident_slots (c : Cache LL) (set : Z) : list Z :=
  filter (fun idx => slot_valid (tagarray c) idx = true)
         (seqZ (set_lo set) (set_hi set - set_lo set)).

(** The tag that installing a line in set [set] overwrites: the tag of
    the victim slot when that slot is valid, nothing when it is empty. *)
Definition evicted_tag (set : Z) (c : Cache LL) : option Z :=
  let idx := findVictim set c in
  if slot_valid (tagarray c) idx then Some (slot_tag (tagarray c) idx)
  else None.

(** The first slot of set [set] whose valid bit is clear. *)
Definition first_invalid (set : Z) (c : Cache LL) : option Z :=
  head (filter (fun idx => slot_valid (tagarray c) idx = false)
               (seqZ (set_lo set) (set_hi set - set_lo set))).

(** Set [set] holds no line: none of its slots is valid. *)
Definition set_empty (set : Z) (c : Cache LL) : Prop :=
  forall idx, set_lo set <= idx < set_hi set ->
    slot_valid (tagarray c) idx = false.

(** What slot [idx] holds: the tag of its line when the slot is valid,
    nothing when it is empty. *)
Definition slot_line (ta : list Z) (idx : Z) : option Z :=
  if slot_valid ta idx then Some (slot_tag ta idx) else None.

(** Set [set] of a two-way unit, read off the arrays: way 0 holds [l0] and
    the timestamp [t0], way 1 holds [l1] and the timestamp [t1], and the
    counter of the set is [k]. *)
Definition two_way_set (set : Z) (c : Cache LL)
    (l0 : option Z) (t0 : Z) (l1 : option Z) (t1 : Z) (k : Z) : Prop :=
  slot_line (tagarray c) (set_lo set) = l0 /\
  rd (tsarray c) (set_lo set) = t0 /\
  slot_line (tagarray c) (set_lo set + 1) = l1 /\
  rd (tsarray c) (set_lo set + 1) = t1 /\
  rd (tsmax c) set = k.

(** The part of the state a unit owns: everything but the lower level. *)
Definition own (c : Cache LL) : list Z * list Z * list Z * Z * Z :=
  (tagarray c, tsarray c, tsmax c, accesses c, misses c).

End CacheUnit.

(** A lower level whose [access] always returns. *)
Definition dev_returns (LL : Type) `{MemSysDev LL} : Prop :=
  forall a w d, exists d', access a w d = Ok d'.

(** ** Units used in the examples

    A trace sink that has written nothing, and newly constructed units on
    top of it: [Cache<CPNull, 1, 0, 6>] (one way, one set, 64-byte lines),
    [Cache<CPNull, 2, 0, 6>] and [Cache<CPNull, 3, 1, 6>]. *)

Definition trace0 : Tracer := {| tracefile := "" |}.
Definition unit_1_0_6 : Cache Tracer := Cache_new 1 0 trace0.
Definition unit_2_0_6 : Cache Tracer := Cache_new 2 0 trace0.

Definition unit_3_1_6 : Cache Tracer := Cache_new 3 1 trace0.

(** A two-way unit on top of a call log. *)
Definition logged_2_0_6 : Cache CallLog := Cache_new 2 0 [].

(** The two-way unit after [access(0,false)] and [invalidate(0)]: its set
    is empty again, way 1 keeps its timestamp and the counter stands
    at 1. *)
Definition logged_2_0_6_emptied : Cache CallLog :=
  {| lowerLevel := [(0, false)];
     tagarray := [0; 0]; tsarray := [0; 1]; tsmax := [1];
     accesses := 1; misses := 1 |}.

(** The one-way unit after [access(0,false)], and the same unit with the
    counter of its set at [TIMESTAMP_MAX]. *)
Definition unit_1_0_6_hot : Cache Tracer :=
  {| lowerLevel := {| tracefile := "0 R
" |};
     tagarray := [1]; tsarray := [1]; tsmax := [1];
     accesses := 1; misses := 1 |}.

Definition unit_1_0_6_full : Cache Tracer :=
  {| lowerLevel := {| tracefile := "0 R
" |};
     tagarray := [1]; tsarray := [TIMESTAMP_MAX]; tsmax := [TIMESTAMP_MAX];
     accesses := TIMESTAMP_MAX; misses := 1 |}.

(** Set 0 of a three-way, two-set unit holding the lines of the addresses
    0 and 128 in ways 1 and 2. *)
Definition unit_3_1_6_two_lines : Cache Tracer :=
  {| lowerLevel := {| tracefile := "0 R
128 R
" |};
     tagarray := [0; 1; 129; 0; 0; 0]; tsarray := [0; 1; 2; 0; 0; 0];
     tsmax := [2; 0];
     accesses := 2; misses := 2 |}.

(** ** The destructor and measures of a call sequence *)

(** What [operator<<] is asked to insert into a stream, by the type of the
    operand.  The text a number becomes is chosen by the format flags of
    the stream (base, width, fill and so on); [~Cache()] sets none of them,
    so the model records the operands and not their text. *)
Inductive insertion : Type :=
| ins_str (s : string)
| ins_int (i : Z)
| ins_u64 (n : Z)
| ins_char (ch : ascii).

(** [~Cache()]: a unit that served no access inserts nothing; otherwise it
    inserts [name], [", "], [id], [", "], [accesses], [", "], [misses] and
    ['\n'] into [std::cout], whose insertions so far are [cout].  [name]
    (a [const char*]) and [id] (an [int]) are the constant members set by
    the constructor; [accesses] and [misses] are [uint64_t]. *)
Definition Cache_dtor {LL : Type} (name : string) (id : Z) (c : Cache LL)
    (cout : list insertion) : list insertion :=
  if accesses c =? 0 then cout
  else cout ++ [ins_str name; ins_str ", "; ins_int id; ins_str ", ";
                ins_u64 (accesses c); ins_str ", "; ins_u64 (misses c);
                ins_char "010"%char].

(** The number of [access] calls of a sequence. *)
Fixpoint n_access (ks : list call) : Z :=
  match ks with
  | [] => 0
  | Access _ _ :: ks' => 1 + n_access ks'
  | Invalidate _ :: ks' => n_access ks'
  end.

(** The number of [access] calls of a sequence whose address lies in set
    [s]. *)
Fixpoint set_accesses (L2SETS L2LINESZ : Z) (s : Z) (ks : list call) : Z :=
  match ks with
  | [] => 0
  | Access a _ :: ks' =>
      (if set_of L2SETS (tag_of L2LINESZ a) =? s then 1 else 0)
      + set_accesses L2SETS L2LINESZ s ks'
  | Invalidate _ :: ks' => set_accesses L2SETS L2LINESZ s ks'
  end.

(** The calls [access(a, w)] for the pairs [(a, w)] of [ms], made in order
    on a device in state [ll]. *)
Fixpoint feed {LL : Type} `{MemSysDev LL} (ms : list (Z * bool)) (ll : LL)
    : outcome LL :=
  match ms with
  | [] => Ok ll
  | (a, w) :: ms' => ll' ← access a w ll; feed ms' ll'
  end.

(** ** Invariants of the tag array *)

Section CacheInvariants.

Variables WAYS L2SETS L2LINESZ : Z.
Context {LL : Type}.

(** Way 0 of every set is empty and was never stamped, and every valid
    slot of the other ways carries a timestamp of at least 1. *)
Definition way0_unused (c : Cache LL) : Prop :=
  forall s, 0 <= s < 2 ^ L2SETS ->
    rd (tagarray c) (set_lo WAYS s) = 0 /\
    rd (tsarray c) (set_lo WAYS s) = 0 /\
    forall j, set_lo WAYS s < j < set_hi WAYS s ->
      slot_valid L2LINESZ (tagarray c) j = true -> 1 <= rd (tsarray c) j.

(** No timestamp of a set exceeds the counter of the set, and once the
    counter has left 0 exactly one slot of the set carries its value: the
    slot stamped last. *)
Definition stamps_bounded (c : Cache LL) : Prop :=
  forall s, 0 <= s < 2 ^ L2SETS ->
    (forall j, set_lo WAYS s <= j < set_hi WAYS s ->
       rd (tsarray c) j <= rd (tsmax c) s) /\
    (rd (tsmax c) s = 0 \/
     exists j, set_lo WAYS s <= j < set_hi WAYS s /\
               rd (tsarray c) j = rd (tsmax c) s /\
               forall j', set_lo WAYS s <= j' < set_hi WAYS s -> j' <> j ->
                 rd (tsarray c) j' < rd (tsmax c) s).

(** Every slot holds the word 0 or a word whose state bits are not all
    clear. *)
Definition zero_or_valid (c : Cache LL) : Prop :=
  forall j, 0 <= j ->
    rd (tagarray c) j = 0 \/ slot_valid L2LINESZ (tagarray c) j = true.

End CacheInvariants.

(** ** [class MemSysDevSet] and [class CacheGrp]

    The units of a group hold references to devices that live outside the
    group.  The state of everything below the group is kept in one value,
    the store [S]; a reference into it is a [MemSysDev S] instance, through
    which a call changes the store.  [getMemSysDev(i)] of a set of devices
    yields the reference to its device [i]. *)

Class MemSysDevSet (S : Type) : Type := {
  getMemSysDev : Z -> MemSysDev S
}.

(** A unit with its [lowerLevel] reference resolved to [ll]. *)
Definition attach {A B : Type} (ll : B) (c : Cache A) : Cache B :=
  {| lowerLevel := ll; tagarray := tagarray c; tsarray := tsarray c;
     tsmax := tsmax c; accesses := accesses c; misses := misses c |}.

(** [std::vector<CACHE> caches] (each unit without what its reference
    points to), the store below the group, and the reference that unit [i]
    was constructed with. *)
Record CacheGrp (S : Type) : Type := mkGrp {
  caches : list (Cache ());
  lowerStore : S;
  lowerRef : Z -> MemSysDev S
}.

Arguments mkGrp {S}.
Arguments caches {S}.
Arguments lowerStore {S}.
Arguments lowerRef {S}.

Section Group.

Variables WAYS L2SETS L2LINESZ : Z.
Context {S : Type}.

(** [CacheGrp(int n, MemSysDev &ll, ...)]: [n] new units, all referring to
    the one device [ll]. *)
Definition CacheGrp_shared `{MemSysDev S} (n : Z) (ll : S) : CacheGrp S :=
  {| caches := replicate (Z.to_nat n) (Cache_new WAYS L2SETS ());
     lowerStore := ll;
     lowerRef := fun _ => _ |}.

(** [CacheGrp(int n, MemSysDevSet &ll, ...)]: [n] new units, unit [i]
    referring to [ll.getMemSysDev(i)]. *)
Definition CacheGrp_over `{MemSysDevSet S} (n : Z) (ll : S) : CacheGrp S :=
  {| caches := replicate (Z.to_nat n) (Cache_new WAYS L2SETS ());
     lowerStore := ll;
     lowerRef := getMemSysDev |}.

(** [getCache(i).access(addr, wr)].  [caches[i]] with [i] out of range is
    undefined in the source; here the call aborts. *)
Definition CacheGrp_access (i addr : Z) (wr : bool) (g : CacheGrp S)
    : outcome (CacheGrp S) :=
  match caches g !! Z.to_nat i with
  | Some u =>
      c' ← @Cache_access WAYS L2SETS L2LINESZ S (lowerRef g i) addr wr
             (attach (lowerStore g) u);
      Ok {| caches := <[Z.to_nat i := attach () c']> (caches g);
            lowerStore := lowerLevel c';
            lowerRef := lowerRef g |}
  | None => Aborted
  end.

(** [getCache(i).invalidate(addr)] *)
Definition CacheGrp_invalidate (i addr : Z) (g : CacheGrp S)
    : outcome (CacheGrp S) :=
  match caches g !! Z.to_nat i with
  | Some u =>
      c' ← @Cache_invalidate WAYS L2SETS L2LINESZ S addr
             (attach (lowerStore g) u);
      Ok {| caches := <[Z.to_nat i := attach () c']> (caches g);
            lowerStore := lowerLevel c';
            lowerRef := lowerRef g |}
  | None => Aborted
  end.

(** [getMemSysDev(i)] of a group: its unit [i] as a device. *)
#[export] Instance CacheGrp_set : MemSysDevSet (CacheGrp S) :=
  {| getMemSysDev := fun i =>
       {| access := CacheGrp_access i;
          invalidate := CacheGrp_invalidate i |} |}.

(** Calls [(i, k)], made in order: call [k] through unit [i]. *)
Definition grp_call (ik : Z * call) (g : CacheGrp S) : outcome (CacheGrp S) :=
  match ik.2 with
  | Access a w => CacheGrp_access ik.1 a w g
  | Invalidate a => CacheGrp_invalidate ik.1 a g
  end.

Fixpoint grp_run (iks : list (Z * call)) (g : CacheGrp S)
    : outcome (CacheGrp S) :=
  match iks with
  | [] => Ok g
  | ik :: iks' => g' ← grp_call ik g; grp_run iks' g'
  end.

End Group.

(** ** Groups used in the examples

    Two units [Cache<_, 1, 0, 6>] over two units [Cache<_, 2, 0, 6>] over a
    call log; and two units [Cache<_, 1, 0, 6>] sharing one unit
    [Cache<_, 2, 0, 6>] over a call log. *)

Definition grp_low : CacheGrp CallLog := CacheGrp_shared 2 0 2 [].

Definition grp_chain : CacheGrp (CacheGrp CallLog) :=
  @CacheGrp_over 1 0 (CacheGrp CallLog) (CacheGrp_set 2 0 6) 2 grp_low.

Definition grp_shared : CacheGrp (Cache CallLog) :=
  @CacheGrp_shared 1 0 (Cache CallLog) (Cache_dev 2 0 6) 2 (Cache_new 2 0 []).

(** The sum of the [misses] counters of the units of a group. *)
Definition misses_sum (us : list (Cache ())) : Z :=
  foldr (fun u acc => misses u + acc) 0 us.

End Qcache.

(** * The hit counter of the trace driver

    [class CacheHitCounter] and [TraceWriter::mem_cb] of the driver program.
    [size_t] is taken to be 64 bits wide.  The counter keeps [width] columns
    of [depth = 16] cache lines each in one array, [addresses]; a column is
    kept in order of last use. *)
Module Driver.

Import Qcache.

(** [static const size_t depthLog2 = 4], [depth = 1<<depthLog2],
    [cacheLineSizeLog2 = 6], [cacheLineSize = 1<<cacheLineSizeLog2] *)
Definition depthLog2 : Z := 4.
Definition depth : Z := 1 ≪ depthLog2.
Definition cacheLineSizeLog2 : Z := 6.
Definition cacheLineSize : Z := 1 ≪ cacheLineSizeLog2.

(** The members of [CacheHitCounter] that [initialize] sets. *)
Record CacheHitCounter : Type := mkCounter {
  width : Z;
  widthMask : Z;
  hits : Z;
  misses : Z;
  addressesLen : Z;
  addresses : list Z;
  maxSize : Z
}.

(** [initialize(size)], with [clear()] inlined: the array is allocated
    with [addressesLen] elements and every element is set to 0. *)
Definition initialize (size : Z) : CacheHitCounter :=
  let w := size / u64 ((1 ≪ depthLog2) * cacheLineSize) in
  {| width := w;
     widthMask := u64 (w - 1);
     hits := 0;
     misses := 0;
     addressesLen := u64 (depth * w);
     addresses := replicate (Z.to_nat (u64 (depth * w))) 0;
     maxSize := size |}.

(** The loop of [insert]: [n] iterations remain, [r] is the loop variable,
    [base] is [col*depth] and [pc] the line carried from the row before.
    The result is the array and whether the loop returned through
    [hits++]. *)
Fixpoint insert_loop (n : nat) (r base cacheLine pc : Z) (a : list Z)
    : list Z * bool :=
  match n with
  | O => (a, false)
  | S n' =>
      let oldC := rd a (base + r) in
      let a' := upd a (base + r) pc in
      if oldC =? cacheLine then (a', true)
      else insert_loop n' (r + 1) base cacheLine oldC a'
  end.

(** [insert(cacheLine, hashedCacheLine)].  [hashedCacheLine % width] with
    [width = 0] is undefined in the source; the theorems assume
    [0 < width]. *)
Definition insert (cacheLine hashedCacheLine : Z) (c : CacheHitCounter)
    : CacheHitCounter :=
  let col := hashedCacheLine mod width c in
  let '(a', hit) :=
    insert_loop (Z.to_nat depth) 0 (u64 (col * depth)) cacheLine cacheLine
      (addresses c) in
  if hit then
    {| width := width c; widthMask := widthMask c;
       hits := u64 (hits c + 1); misses := misses c;
       addressesLen := addressesLen c; addresses := a';
       maxSize := maxSize c |}
  else
    {| width := width c; widthMask := widthMask c;
       hits := hits c; misses := u64 (misses c + 1);
       addressesLen := addressesLen c; addresses := a';
       maxSize := maxSize c |}.

(** [getHits()], [getTotalAccesses()] and [getCacheSize()] *)
Definition getHits (c : CacheHitCounter) : Z := hits c.
Definition getTotalAccesses (c : CacheHitCounter) : Z :=
  u64 (hits c + misses c).
Definition getCacheSize (c : CacheHitCounter) : Z := maxSize c / (1 ≪ 20).

(** [TraceWriter::mem_cb(c, v, p, s, w)]: the counter after the call and
    the value returned.  Only the virtual address [v] is used. *)
Definition mem_cb (v : Z) (counter : CacheHitCounter) : CacheHitCounter * Z :=
  let hashed_addr := Z.lxor v (v ≫ 13) in
  (insert v hashed_addr counter, 0).

(** The counter after the callbacks for the addresses [vs], in order. *)
Fixpoint mem_cbs (vs : list Z) (counter : CacheHitCounter) : CacheHitCounter :=
  match vs with
  | [] => counter
  | v :: vs' => mem_cbs vs' (fst (mem_cb v counter))
  end.

(** *** Notions used in the statements *)

(** [n] elements of the array from index [s] on. *)
Fixpoint seg (a : list Z) (s : Z) (n : nat) : list Z :=
  match n with
  | O => []
  | S n' => rd a s :: seg a (s + 1) n'
  end.

(** The loop of [insert] on a column given as a list: [pc] is written over
    each row and the line found there carried on, until [x] is found. *)
Fixpoint shift_in (x pc : Z) (l : list Z) : list Z * bool :=
  match l with
  | [] => ([], false)
  | y :: l' =>
      if y =? x then (pc :: l', true)
      else let '(l'', h) := shift_in x y l' in (pc :: l'', h)
  end.

(** Column [col] of the array, row 0 first. *)
Definition column (c : CacheHitCounter) (col : Z) : list Z :=
  map (fun r => rd (addresses c) (col * depth + r)) (seqZ 0 depth).

(** The column an address is counted in by [mem_cb]. *)
Definition column_of (c : CacheHitCounter) (v : Z) : Z :=
  Z.lxor v (v ≫ 13) mod width c.

(** The array has the size [initialize] gave it, for a positive number of
    columns. *)
Definition wf (c : CacheHitCounter) : Prop :=
  0 < width c /\ depth * width c < 2 ^ 64 /\
  length (addresses c) = Z.to_nat (depth * width c).

(** Fifteen addresses, used as an example. *)
Definition fifteen_lines : list Z :=
  [2; 4; 6; 8; 10; 12; 14; 16; 18; 20; 22; 24; 26; 28; 30].

End Driver.

Import Qcache.

(** * Facts *)

(** ** Arrays *)

Lemma rd_upd_eq (a : list Z) (i v : Z) :
  0 <= i < Z.of_nat (length a) -> rd (upd a i v) i = v.
Proof.
  intros Hi. unfold rd, upd.
  rewrite list_lookup_insert_eq by lia. reflexivity.
Qed.

Lemma rd_upd_ne (a : list Z) (i j v : Z) :
  0 <= i -> 0 <= j -> i <> j -> rd (upd a i v) j = rd a j.
Proof.
  intros Hi Hj Hne. unfold rd, upd.
  rewrite list_lookup_insert_ne by lia. reflexivity.
Qed.

Lemma length_upd (a : list Z) (i v : Z) : length (upd a i v) = length a.
Proof. unfold upd. apply length_insert. Qed.

Lemma rd_replicate (n : nat) (i : Z) : rd (replicate n 0) i = 0.
Proof.
  unfold rd. destruct (replicate n 0 !! Z.to_nat i) as [x|] eqn:E; [|reflexivity].
  apply lookup_replicate in E. simpl. tauto.
Qed.

(** ** Words *)

Lemma pow2_pos (n : Z) : 0 <= n -> 0 < 2 ^ n.
Proof. intros. apply Z.pow_pos_nonneg; lia. Qed.

Lemma pow2_le_30 (n : Z) : 0 <= n < 31 -> 1 <= 2 ^ n <= 2 ^ 30.
Proof.
  intros Hn. split.
  - pose proof (pow2_pos n). lia.
  - apply Z.pow_le_mono_r; lia.
Qed.

Lemma u64_small (x : Z) : 0 <= x < 2 ^ 64 -> u64 x = x.
Proof. intros. unfold u64. apply Z.mod_small. lia. Qed.

Lemma u32_small (x : Z) : 0 <= x < 2 ^ 32 -> u32 x = x.
Proof. intros. unfold u32. apply Z.mod_small. lia. Qed.

Section Geometry.

Variables WAYS L2SETS L2LINESZ : Z.
Hypothesis HW : 1 <= WAYS < 2 ^ 31.
Hypothesis HS : 0 <= L2SETS < 31.
Hypothesis HL : 0 <= L2LINESZ < 31.

Local Abbreviation stateMask := (stateMask L2LINESZ).
Local Abbreviation tag_of := (tag_of L2LINESZ).
Local Abbreviation set_of := (set_of L2SETS).
Local Abbreviation set_lo := (set_lo WAYS).
Local Abbreviation set_hi := (set_hi WAYS).
Local Abbreviation line_word := (line_word L2LINESZ).
Local Abbreviation slot_valid := (slot_valid L2LINESZ).
Local Abbreviation slot_tag := (slot_tag L2LINESZ).

Lemma stateMask_eq : stateMask = 2 ^ L2LINESZ - 1.
Proof.
  unfold Qcache.stateMask. rewrite Z.shiftl_1_l.
  pose proof (pow2_le_30 L2LINESZ HL).
  apply u64_small. lia.
Qed.

Lemma stateMask_ones : stateMask = Z.ones L2LINESZ.
Proof. rewrite stateMask_eq, Z.ones_equiv. lia. Qed.

Lemma set_of_range (t : Z) : 0 <= set_of t < 2 ^ L2SETS.
Proof.
  unfold Qcache.set_of. rewrite Z.shiftl_1_l.
  pose proof (pow2_le_30 L2SETS HS).
  rewrite u64_small by lia.
  apply Z.mod_pos_bound. lia.
Qed.

Lemma set_lo_eq (s : Z) : 0 <= s < 2 ^ L2SETS -> set_lo s = s * WAYS.
Proof.
  intros Hs. unfold Qcache.set_lo.
  pose proof (pow2_le_30 L2SETS HS).
  apply u64_small. nia.
Qed.

Lemma set_hi_eq (s : Z) : 0 <= s < 2 ^ L2SETS -> set_hi s = s * WAYS + WAYS.
Proof.
  intros Hs. unfold Qcache.set_hi.
  pose proof (pow2_le_30 L2SETS HS).
  rewrite u64_small by nia. lia.
Qed.

(** The slots of a set lie inside the arrays. *)
Lemma set_slots_in_range (s idx : Z) :
  0 <= s < 2 ^ L2SETS -> set_lo s <= idx < set_hi s ->
  0 <= idx < WAYS * 2 ^ L2SETS.
Proof.
  intros Hs. rewrite set_lo_eq, set_hi_eq by assumption. nia.
Qed.

(** Two sets share no slot. *)
Lemma set_slots_disjoint (s s' idx : Z) :
  0 <= s < 2 ^ L2SETS -> 0 <= s' < 2 ^ L2SETS ->
  set_lo s <= idx < set_hi s -> set_lo s' <= idx < set_hi s' -> s = s'.
Proof.
  intros Hs Hs'. rewrite !set_lo_eq, !set_hi_eq by assumption. nia.
Qed.

Lemma tag_of_range (addr : Z) :
  is_addr addr -> 0 <= tag_of addr /\ tag_of addr ≪ L2LINESZ <= addr.
Proof.
  intros [H0 H1]. unfold Qcache.tag_of.
  rewrite Z.shiftl_mul_pow2, Z.shiftr_div_pow2 by lia.
  pose proof (pow2_pos L2LINESZ ltac:(lia)) as Hp.
  split.
  - apply Z.div_pos; lia.
  - rewrite Z.mul_comm. apply Z.mul_div_le. lia.
Qed.

(** The address handed to the lower level is [addr] with its offset bits
    cleared. *)
Lemma block_address (addr : Z) :
  is_addr addr ->
  u64 (tag_of addr ≪ L2LINESZ) = addr - addr mod 2 ^ L2LINESZ.
Proof.
  intros Ha. destruct (tag_of_range addr Ha) as [H0 H1].
  assert (0 <= tag_of addr ≪ L2LINESZ) by (apply Z.shiftl_nonneg; lia).
  rewrite u64_small by (unfold is_addr in Ha; lia).
  unfold Qcache.tag_of.
  rewrite Z.shiftl_mul_pow2, Z.shiftr_div_pow2 by lia.
  pose proof (pow2_pos L2LINESZ ltac:(lia)) as Hp.
  pose proof (Z.div_mod addr (2 ^ L2LINESZ) ltac:(lia)). lia.
Qed.

Lemma line_word_tag (addr : Z) :
  is_addr addr -> 1 <= L2LINESZ ->
  line_word (tag_of addr) ≫ L2LINESZ = tag_of addr.
Proof.
  intros Ha H1. destruct (tag_of_range addr Ha) as [H0 H2].
  assert (0 <= tag_of addr ≪ L2LINESZ) by (apply Z.shiftl_nonneg; lia).
  unfold Qcache.line_word.
  rewrite u64_small by (unfold is_addr in Ha; lia).
  rewrite Z.shiftr_lor, Z.shiftr_shiftl_l, Z.sub_diag, Z.shiftl_0_r by lia.
  rewrite (Z.shiftr_div_pow2 1) by lia.
  rewrite Z.div_small, Z.lor_0_r; [reflexivity|].
  pose proof (Z.pow_le_mono_r 2 1 L2LINESZ ltac:(lia) ltac:(lia)). lia.
Qed.

Lemma line_word_valid (t : Z) :
  1 <= L2LINESZ -> Z.land (line_word t) stateMask <> 0.
Proof.
  intros H1 E.
  assert (Hb : Z.testbit (Z.land (line_word t) stateMask) 0 = true).
  { rewrite Z.land_spec. unfold Qcache.line_word.
    rewrite Z.lor_spec, stateMask_ones, Z.ones_spec_low by lia.
    simpl. rewrite orb_true_r. reflexivity. }
  rewrite E in Hb. discriminate.
Qed.

(** With [L2LINESZ = 0] the state mask is empty and no slot is valid. *)
Lemma no_line_valid (ta : list Z) (idx : Z) :
  L2LINESZ = 0 -> slot_valid ta idx = false.
Proof.
  intros E. unfold Qcache.slot_valid. rewrite stateMask_eq, E.
  simpl. rewrite Z.land_0_r. reflexivity.
Qed.

(** ** The loops *)

Context {LL : Type} `{MemSysDev LL}.

Local Abbreviation wf := (wf WAYS L2SETS (LL:=LL)).
Local Abbreviation resident := (resident WAYS L2LINESZ (LL:=LL)).
Local Abbreviation findMatch := (findMatch WAYS L2SETS L2LINESZ (LL:=LL)).
Local Abbreviation is_hit := (is_hit WAYS L2SETS L2LINESZ (LL:=LL)).
Local Abbreviation findVictim := (findVictim WAYS L2LINESZ (LL:=LL)).
Local Abbreviation updateRepl := (updateRepl (LL:=LL)).
Local Abbreviation access_miss := (access_miss WAYS L2SETS L2LINESZ (LL:=LL)).
Local Abbreviation Cache_access := (Cache_access WAYS L2SETS L2LINESZ (LL:=LL)).
Local Abbreviation Cache_invalidate :=
  (Cache_invalidate WAYS L2SETS L2LINESZ (LL:=LL)).

Lemma access_loop_spec (ta : list Z) (tag : Z) (n : nat) (lo : Z) :
  match access_loop L2LINESZ ta tag n lo with
  | Some idx =>
      lo <= idx < lo + Z.of_nat n /\
      slot_tag ta idx = tag /\ slot_valid ta idx = true /\
      forall j, lo <= j < idx ->
                ~ (slot_tag ta j = tag /\ slot_valid ta j = true)
  | None =>
      forall j, lo <= j < lo + Z.of_nat n ->
                ~ (slot_tag ta j = tag /\ slot_valid ta j = true)
  end.
Proof.
  revert lo. induction n as [|n IH]; intros lo; simpl.
  - intros j Hj. lia.
  - destruct ((slot_tag ta lo =? tag) && slot_valid ta lo) eqn:E.
    + apply andb_true_iff in E as [Et Ev]. apply Z.eqb_eq in Et.
      split; [lia|]. split; [assumption|]. split; [assumption|].
      intros j Hj. lia.
    + assert (Hlo : ~ (slot_tag ta lo = tag /\ slot_valid ta lo = true)).
      { intros [Et Ev]. apply Z.eqb_eq in Et. rewrite Et, Ev in E.
        discriminate. }
      specialize (IH (lo + 1)).
      destruct (access_loop L2LINESZ ta tag n (lo + 1)) as [idx|].
      * destruct IH as (Hr & Ht & Hv & Hfirst).
        split; [lia|]. split; [assumption|]. split; [assumption|].
        intros j Hj. destruct (decide (j = lo)) as [->|Hne]; [assumption|].
        apply Hfirst. lia.
      * intros j Hj. destruct (decide (j = lo)) as [->|Hne]; [assumption|].
        apply IH. lia.
Qed.

Lemma set_width (s : Z) :
  0 <= s < 2 ^ L2SETS -> Z.of_nat (Z.to_nat (set_hi s - set_lo s)) = WAYS.
Proof. intros Hs. rewrite set_lo_eq, set_hi_eq by assumption. lia. Qed.

(** A hit finds a resident slot, the first of its set. *)
Lemma findMatch_Some (addr idx : Z) (c : Cache LL) :
  findMatch addr c = Some idx ->
  resident c (set_of (tag_of addr)) (tag_of addr) idx /\
  forall j, resident c (set_of (tag_of addr)) (tag_of addr) j -> idx <= j.
Proof.
  unfold Qcache.findMatch, Qcache.resident. intros E.
  pose proof (set_of_range (tag_of addr)) as Hs.
  pose proof (access_loop_spec (tagarray c) (tag_of addr)
                (Z.to_nat (set_hi (set_of (tag_of addr)) -
                           set_lo (set_of (tag_of addr))))
                (set_lo (set_of (tag_of addr)))) as S.
  rewrite E in S. rewrite set_width in S by assumption.
  rewrite set_hi_eq, set_lo_eq in * by assumption.
  destruct S as (Hr & Ht & Hv & Hfirst). repeat split; try lia; try assumption.
  intros j (Hj & Hjv & Hjt).
  destruct (Z_lt_le_dec j idx) as [Hlt|]; [|assumption].
  exfalso. apply (Hfirst j); [lia|tauto].
Qed.

(** A miss means that no slot of the set holds the tag. *)
Lemma findMatch_None (addr : Z) (c : Cache LL) :
  findMatch addr c = None ->
  forall j, ~ resident c (set_of (tag_of addr)) (tag_of addr) j.
Proof.
  unfold Qcache.findMatch, Qcache.resident. intros E j (Hj & Hjv & Hjt).
  pose proof (set_of_range (tag_of addr)) as Hs.
  pose proof (access_loop_spec (tagarray c) (tag_of addr)
                (Z.to_nat (set_hi (set_of (tag_of addr)) -
                           set_lo (set_of (tag_of addr))))
                (set_lo (set_of (tag_of addr)))) as S.
  rewrite E in S. rewrite set_width in S by assumption.
  rewrite set_hi_eq, set_lo_eq in * by assumption.
  apply (S j); [lia|tauto].
Qed.

Lemma findMatch_resident (addr j : Z) (c : Cache LL) :
  resident c (set_of (tag_of addr)) (tag_of addr) j ->
  exists idx, findMatch addr c = Some idx.
Proof.
  intros Hr. destruct (findMatch addr c) as [idx|] eqn:E; [eauto|].
  exfalso. eapply findMatch_None; eassumption.
Qed.

Lemma findVictim_loop_range (ta ts : list Z) (n : nat) (lo i m mt : Z) :
  lo <= m < i ->
  lo <= findVictim_loop L2LINESZ ta ts n i m mt < i + Z.of_nat n.
Proof.
  revert i m mt. induction n as [|n IH]; intros i m mt Hm; simpl.
  - lia.
  - destruct (Z.land (rd ta i) stateMask =? 0); [lia|].
    destruct (rd ts i >? mt).
    + specialize (IH (i + 1) i (rd ts i)). lia.
    + specialize (IH (i + 1) m mt). lia.
Qed.

(** The victim is a slot of the set. *)
Lemma findVictim_range (s : Z) (c : Cache LL) :
  0 <= s < 2 ^ L2SETS -> set_lo s <= findVictim s c < set_hi s.
Proof.
  intros Hs. unfold Qcache.findVictim.
  pose proof (findVictim_loop_range (tagarray c) (tsarray c)
                (Z.to_nat (set_hi s - (set_lo s + 1))) (set_lo s)
                (set_lo s + 1) (set_lo s) (rd (tsarray c) (set_lo s))) as R.
  rewrite set_lo_eq, set_hi_eq in * by assumption. lia.
Qed.

Lemma invalidate_loop_length (tag : Z) (n : nat) (lo : Z) (ta : list Z) :
  length (invalidate_loop L2LINESZ tag n lo ta) = length ta.
Proof.
  revert lo ta. induction n as [|n IH]; intros lo ta; simpl; [reflexivity|].
  rewrite IH. destruct (slot_tag ta lo =? tag); [apply length_upd|reflexivity].
Qed.

(** What [invalidate]'s loop leaves in each slot. *)
Lemma invalidate_loop_rd (tag : Z) (n : nat) (lo : Z) (ta : list Z) (j : Z) :
  0 <= lo -> lo + Z.of_nat n <= Z.of_nat (length ta) -> 0 <= j ->
  rd (invalidate_loop L2LINESZ tag n lo ta) j =
  if decide (lo <= j < lo + Z.of_nat n /\ slot_tag ta j = tag) then 0
  else rd ta j.
Proof.
  revert lo ta. induction n as [|n IH]; intros lo ta Hlo Hlen Hj; simpl.
  - destruct (decide _) as [[? _]|]; [lia|reflexivity].
  - rewrite IH; [|lia| |lia].
    2:{ destruct (slot_tag ta lo =? tag); [rewrite length_upd|]; lia. }
    destruct (decide (j = lo)) as [->|Hne].
    + destruct (decide (lo + 1 <= lo < _ /\ _)) as [[? _]|]; [lia|].
      destruct (slot_tag ta lo =? tag) eqn:Et.
      * apply Z.eqb_eq in Et. rewrite rd_upd_eq by lia.
        destruct (decide _) as [|Hn]; [reflexivity|]. exfalso. apply Hn. lia.
      * apply Z.eqb_neq in Et.
        destruct (decide _) as [[_ ?]|]; [congruence|reflexivity].
    + assert (E : slot_tag (if slot_tag ta lo =? tag then upd ta lo 0 else ta) j
                  = slot_tag ta j /\
                  rd (if slot_tag ta lo =? tag then upd ta lo 0 else ta) j
                  = rd ta j).
      { destruct (slot_tag ta lo =? tag); [|tauto].
        unfold Qcache.slot_tag. rewrite rd_upd_ne by lia. tauto. }
      destruct E as [E1 E2]. rewrite E1, E2.
      destruct (decide (lo + 1 <= j < _ /\ _)) as [[? ?]|Hn];
        destruct (decide (lo <= j < _ /\ _)) as [[? ?]|Hn']; try reflexivity.
      * exfalso. apply Hn'. split; [lia|assumption].
      * exfalso. apply Hn. split; [lia|assumption].
Qed.

(** ** [access]: the two branches *)

Local Abbreviation count_access := (count_access (LL:=LL)).

Lemma findMatch_count_access (addr : Z) (c : Cache LL) :
  findMatch addr (count_access c) = findMatch addr c.
Proof. reflexivity. Qed.

Lemma Cache_access_hit (addr : Z) (wr : bool) (c : Cache LL) (idx : Z) :
  findMatch addr c = Some idx ->
  Cache_access addr wr c = updateRepl (set_of (tag_of addr)) idx (count_access c).
Proof.
  intros E. unfold Qcache.Cache_access. simpl.
  rewrite findMatch_count_access, E. reflexivity.
Qed.

Lemma Cache_access_miss (addr : Z) (wr : bool) (c : Cache LL) :
  findMatch addr c = None ->
  Cache_access addr wr c = access_miss addr wr (count_access c).
Proof.
  intros E. unfold Qcache.Cache_access. simpl.
  rewrite findMatch_count_access, E. reflexivity.
Qed.

Lemma is_hit_true (addr : Z) (c : Cache LL) :
  is_hit addr c = true <-> exists idx, findMatch addr c = Some idx.
Proof.
  unfold Qcache.is_hit. destruct (findMatch addr c) as [idx|].
  - split; eauto.
  - split; [discriminate|]. intros [idx E]. discriminate.
Qed.

Lemma is_hit_false (addr : Z) (c : Cache LL) :
  is_hit addr c = false <-> findMatch addr c = None.
Proof.
  unfold Qcache.is_hit. destruct (findMatch addr c) as [idx|].
  - split; discriminate.
  - split; reflexivity.
Qed.

(** The outcome of [updateRepl], by the value of the set's counter. *)
Lemma updateRepl_Ok (s idx : Z) (c : Cache LL) :
  rd (tsmax c) s <> TIMESTAMP_MAX ->
  updateRepl s idx c =
  Ok {| lowerLevel := lowerLevel c; tagarray := tagarray c;
        tsarray := upd (tsarray c) idx (u32 (rd (tsmax c) s + 1));
        tsmax := upd (tsmax c) s (u32 (rd (tsmax c) s + 1));
        accesses := accesses c; misses := misses c |}.
Proof.
  intros Hne. unfold Qcache.updateRepl.
  destruct (rd (tsmax c) s =? TIMESTAMP_MAX) eqn:E; [|reflexivity].
  apply Z.eqb_eq in E. contradiction.
Qed.

Lemma updateRepl_Aborted (s idx : Z) (c : Cache LL) :
  rd (tsmax c) s = TIMESTAMP_MAX -> updateRepl s idx c = Aborted.
Proof.
  intros E. unfold Qcache.updateRepl. rewrite E, Z.eqb_refl. reflexivity.
Qed.

(** The miss branch when the lower level returns and the counter of the
    set has not reached its last value. *)
Lemma access_miss_Ok (addr : Z) (wr : bool) (c : Cache LL) (ll' : LL) :
  access (u64 (tag_of addr ≪ L2LINESZ)) wr (lowerLevel c) = Ok ll' ->
  rd (tsmax c) (set_of (tag_of addr)) <> TIMESTAMP_MAX ->
  let s := set_of (tag_of addr) in
  let v := findVictim s c in
  let t := u32 (rd (tsmax c) s + 1) in
  access_miss addr wr c =
  Ok {| lowerLevel := ll';
        tagarray := upd (tagarray c) v (line_word (tag_of addr));
        tsarray := upd (tsarray c) v t;
        tsmax := upd (tsmax c) s t;
        accesses := accesses c;
        misses := u64 (misses c + 1) |}.
Proof.
  intros Hll Hts. unfold Qcache.access_miss. simpl. rewrite Hll. simpl.
  unfold mbind, outcome_bind. rewrite updateRepl_Ok by exact Hts. reflexivity.
Qed.

Lemma access_miss_Aborted (addr : Z) (wr : bool) (c : Cache LL) (ll' : LL) :
  access (u64 (tag_of addr ≪ L2LINESZ)) wr (lowerLevel c) = Ok ll' ->
  rd (tsmax c) (set_of (tag_of addr)) = TIMESTAMP_MAX ->
  access_miss addr wr c = Aborted.
Proof.
  intros Hll Hts. unfold Qcache.access_miss. simpl. rewrite Hll. simpl.
  unfold mbind, outcome_bind. rewrite updateRepl_Aborted by exact Hts.
  reflexivity.
Qed.

(** Whatever the miss branch returns, the lower level was called once, on
    the block address, and its state after the call is kept. *)
Lemma access_miss_lower (addr : Z) (wr : bool) (c c' : Cache LL) :
  access_miss addr wr c = Ok c' ->
  access (u64 (tag_of addr ≪ L2LINESZ)) wr (lowerLevel c) = Ok (lowerLevel c').
Proof.
  unfold Qcache.access_miss. simpl.
  destruct (access (u64 (tag_of addr ≪ L2LINESZ)) wr (lowerLevel c))
    as [ll'| |e]; simpl; try discriminate.
  unfold mbind, outcome_bind, Qcache.updateRepl. simpl.
  destruct (rd (tsmax c) (set_of (tag_of addr)) =? TIMESTAMP_MAX); simpl;
    [discriminate|].
  intros E. injection E as <-. reflexivity.
Qed.

(** ** Hits *)

(** C8.  When [access(addr, wr)] hits at slot [idx], the call aborts if the
    counter of the set has reached [TIMESTAMP_MAX]; otherwise it returns, and
    the state it leaves differs from the state before in three places only:
    the timestamp of slot [idx], the counter of the set, and [accesses].  The
    tag array, [misses] and the lower level are as before, and so are the
    timestamps of the other slots and the counters of the other sets. *)
Theorem access_hit_frame (addr : Z) (wr : bool) (c : Cache LL) (idx : Z) :
  findMatch addr c = Some idx ->
  let s := set_of (tag_of addr) in
  let t := u32 (rd (tsmax c) s + 1) in
  if decide (rd (tsmax c) s = TIMESTAMP_MAX) then
    Cache_access addr wr c = Aborted
  else
    exists c',
      Cache_access addr wr c = Ok c' /\
      tagarray c' = tagarray c /\
      misses c' = misses c /\
      lowerLevel c' = lowerLevel c /\
      accesses c' = u64 (accesses c + 1) /\
      tsarray c' = upd (tsarray c) idx t /\
      tsmax c' = upd (tsmax c) s t /\
      (forall j, 0 <= j -> j <> idx -> rd (tsarray c') j = rd (tsarray c) j) /\
      (forall s', 0 <= s' -> s' <> s -> rd (tsmax c') s' = rd (tsmax c) s').
Proof.
  intros E s t. rewrite (Cache_access_hit addr wr c idx E).
  destruct (decide (rd (tsmax c) s = TIMESTAMP_MAX)) as [Hmax|Hmax].
  - apply updateRepl_Aborted. exact Hmax.
  - rewrite updateRepl_Ok by exact Hmax. eexists. split; [reflexivity|].
    simpl. repeat (split; [reflexivity|]).
    destruct (findMatch_Some addr idx c E) as [(Hidx & _) _].
    pose proof (set_of_range (tag_of addr)) as Hs.
    rewrite set_lo_eq in Hidx by exact Hs.
    split.
    + intros j Hj Hne. apply rd_upd_ne; [nia|lia|congruence].
    + intros s' Hs' Hne. apply rd_upd_ne; [lia|lia|].
      intros Heq. apply Hne. symmetry. exact Heq.
Qed.

(** ** Misses and the lower level *)

(** C5.  An access that misses calls [access] of the lower level once: the
    state in which the unit leaves the lower level is the result of that one
    call, made with the write flag of the caller and with the address whose
    offset bits are cleared, which is the same for all addresses of a block.
    The call is made whether the unit then returns or fails its assertion.
    An access that hits leaves the lower level as it was. *)
Theorem miss_propagation (addr : Z) (wr : bool) (c : Cache LL) :
  is_addr addr ->
  let blk := Z.ldiff addr (Z.ones L2LINESZ) in
  let s := set_of (tag_of addr) in
  (is_hit addr c = false ->
     (forall c', Cache_access addr wr c = Ok c' ->
                 access blk wr (lowerLevel c) = Ok (lowerLevel c')) /\
     (forall ll', access blk wr (lowerLevel c) = Ok ll' ->
                  if decide (rd (tsmax c) s = TIMESTAMP_MAX)
                  then Cache_access addr wr c = Aborted
                  else exists c', Cache_access addr wr c = Ok c' /\
                                  lowerLevel c' = ll')) /\
  (is_hit addr c = true ->
     forall c', Cache_access addr wr c = Ok c' -> lowerLevel c' = lowerLevel c) /\
  blk = addr - addr mod 2 ^ L2LINESZ /\
  (forall addr', is_addr addr' -> tag_of addr' = tag_of addr ->
                 Z.ldiff addr' (Z.ones L2LINESZ) = blk).
Proof.
  intros Ha blk s.
  assert (Hblk : blk = u64 (tag_of addr ≪ L2LINESZ)).
  { unfold blk. rewrite Z.ldiff_ones_r by lia.
    destruct (tag_of_range addr Ha) as [H0 H1].
    assert (0 <= tag_of addr ≪ L2LINESZ) by (apply Z.shiftl_nonneg; lia).
    rewrite u64_small by (unfold is_addr in Ha; lia). reflexivity. }
  split; [|split; [|split]].
  - intros Hmiss. apply is_hit_false in Hmiss.
    rewrite (Cache_access_miss addr wr c Hmiss), Hblk. split.
    + intros c' E. apply access_miss_lower in E. exact E.
    + intros ll' Hll.
      destruct (decide (rd (tsmax c) s = TIMESTAMP_MAX)) as [Hmax|Hmax].
      * eapply access_miss_Aborted; [exact Hll|exact Hmax].
      * rewrite (access_miss_Ok addr wr (count_access c) ll' Hll Hmax).
        eexists. split; reflexivity.
  - intros Hhit c'. apply is_hit_true in Hhit as [idx E].
    rewrite (Cache_access_hit addr wr c idx E). unfold Qcache.updateRepl.
    destruct (_ =? _); [discriminate|]. intros E'. injection E' as <-.
    reflexivity.
  - rewrite Hblk. apply block_address. exact Ha.
  - intros addr' Ha' Et. unfold blk. rewrite !Z.ldiff_ones_r by lia.
    unfold Qcache.tag_of in Et. rewrite Et. reflexivity.
Qed.

(** ** The timestamp counter of a set *)

(** C6.  Take an access whose call to the lower level, if it misses,
    returns.  While the counter of the target set is below [TIMESTAMP_MAX]
    the access returns and has raised that counter by one; once the counter
    equals [TIMESTAMP_MAX] the access fails the assertion of [updateRepl]
    and aborts: it does not return with a wrapped counter. *)
Theorem access_bumps_tsmax (addr : Z) (wr : bool) (c : Cache LL) :
  wf c ->
  (is_hit addr c = false ->
   exists ll', access (u64 (tag_of addr ≪ L2LINESZ)) wr (lowerLevel c) = Ok ll') ->
  let s := set_of (tag_of addr) in
  (rd (tsmax c) s < TIMESTAMP_MAX ->
   exists c', Cache_access addr wr c = Ok c' /\
              rd (tsmax c') s = rd (tsmax c) s + 1) /\
  (rd (tsmax c) s = TIMESTAMP_MAX -> Cache_access addr wr c = Aborted).
Proof.
  intros (_ & _ & Hlen & Hrange) Hlow s.
  pose proof (set_of_range (tag_of addr)) as Hs. fold s in Hs.
  specialize (Hrange s).
  assert (Hin : 0 <= s < Z.of_nat (length (tsmax c))) by (rewrite Hlen; lia).
  destruct (findMatch addr c) as [idx|] eqn:E.
  - rewrite (Cache_access_hit addr wr c idx E). split.
    + intros Hlt. rewrite updateRepl_Ok by (simpl; fold s; lia).
      eexists. split; [reflexivity|]. simpl. fold s.
      rewrite rd_upd_eq by exact Hin.
      apply u32_small. unfold TIMESTAMP_MAX in Hlt. lia.
    + intros Hmax. apply updateRepl_Aborted. exact Hmax.
  - destruct (Hlow (proj2 (is_hit_false addr c) E)) as [ll' Hll].
    rewrite (Cache_access_miss addr wr c E). split.
    + intros Hlt.
      rewrite (access_miss_Ok addr wr (count_access c) ll' Hll)
        by (simpl; fold s; lia).
      eexists. split; [reflexivity|]. simpl. fold s.
      rewrite rd_upd_eq by exact Hin.
      apply u32_small. unfold TIMESTAMP_MAX in Hlt. lia.
    + intros Hmax. eapply access_miss_Aborted; [exact Hll|exact Hmax].
Qed.

(** ** The write flag *)

(** C10.  Whether an access hits does not depend on the write flag.  On a
    hit the two runs give the same outcome.  On a miss the flag reaches the
    lower level as it was given, and if the lower level returns in both
    runs, the two runs agree on whether the unit returns and on everything
    the unit owns: tag array, timestamps, set counters, [accesses] and
    [misses].  [invalidate] takes no write flag. *)
Theorem wr_noninterference (addr : Z) (c : Cache LL) :
  (is_hit addr c = true ->
   Cache_access addr true c = Cache_access addr false c) /\
  (forall wr c', is_hit addr c = false -> Cache_access addr wr c = Ok c' ->
     access (u64 (tag_of addr ≪ L2LINESZ)) wr (lowerLevel c)
     = Ok (lowerLevel c')) /\
  (forall l1 l2,
     access (u64 (tag_of addr ≪ L2LINESZ)) true (lowerLevel c) = Ok l1 ->
     access (u64 (tag_of addr ≪ L2LINESZ)) false (lowerLevel c) = Ok l2 ->
     omap (own (LL:=LL)) (Cache_access addr true c)
     = omap (own (LL:=LL)) (Cache_access addr false c)) /\
  (forall c1 c2, Cache_access addr true c = Ok c1 ->
                 Cache_access addr false c = Ok c2 -> own c1 = own c2).
Proof.
  assert (Hhit : is_hit addr c = true ->
                 Cache_access addr true c = Cache_access addr false c).
  { intros Hh. apply is_hit_true in Hh as [idx E].
    rewrite !(Cache_access_hit addr _ c idx E). reflexivity. }
  assert (Hmiss : forall l1 l2,
     access (u64 (tag_of addr ≪ L2LINESZ)) true (lowerLevel c) = Ok l1 ->
     access (u64 (tag_of addr ≪ L2LINESZ)) false (lowerLevel c) = Ok l2 ->
     omap (own (LL:=LL)) (Cache_access addr true c)
     = omap (own (LL:=LL)) (Cache_access addr false c)).
  { intros l1 l2 H1 H2. destruct (findMatch addr c) as [idx|] eqn:E.
    - rewrite !(Cache_access_hit addr _ c idx E). reflexivity.
    - rewrite !(Cache_access_miss addr _ c E).
      destruct (decide (rd (tsmax c) (set_of (tag_of addr)) = TIMESTAMP_MAX))
        as [Hmax|Hmax].
      + rewrite (access_miss_Aborted addr true (count_access c) l1 H1 Hmax).
        rewrite (access_miss_Aborted addr false (count_access c) l2 H2 Hmax).
        reflexivity.
      + rewrite (access_miss_Ok addr true (count_access c) l1 H1 Hmax).
        rewrite (access_miss_Ok addr false (count_access c) l2 H2 Hmax).
        reflexivity. }
  split; [exact Hhit|]. split; [|split; [exact Hmiss|]].
  - intros wr c' Hm E. apply is_hit_false in Hm.
    rewrite (Cache_access_miss addr wr c Hm) in E.
    apply access_miss_lower in E. exact E.
  - intros c1 c2 E1 E2. destruct (is_hit addr c) eqn:Hh.
    + rewrite (Hhit eq_refl), E2 in E1. congruence.
    + apply is_hit_false in Hh.
      pose proof E1 as E1'. pose proof E2 as E2'.
      rewrite (Cache_access_miss addr true c Hh) in E1'.
      rewrite (Cache_access_miss addr false c Hh) in E2'.
      apply access_miss_lower in E1', E2'.
      specialize (Hmiss _ _ E1' E2'). rewrite E1, E2 in Hmiss.
      simpl in Hmiss. congruence.
Qed.

(** ** Well-formed states *)

Lemma rd_upd_cases (a : list Z) (i j v : Z) :
  rd (upd a i v) j = v \/ rd (upd a i v) j = rd a j.
Proof.
  unfold rd, upd. destruct (decide (Z.to_nat i = Z.to_nat j)) as [E|E].
  - destruct (decide (Z.to_nat i < length a)%nat) as [Hlt|Hge].
    + left. rewrite <- E, list_lookup_insert_eq by exact Hlt. reflexivity.
    + right. rewrite list_insert_ge by lia. reflexivity.
  - right. rewrite list_lookup_insert_ne by exact E. reflexivity.
Qed.

Lemma u32_range (x : Z) : 0 <= u32 x < 2 ^ 32.
Proof. unfold u32. apply Z.mod_pos_bound. lia. Qed.

Lemma wf_Cache_new (ll : LL) : wf (Cache_new WAYS L2SETS ll).
Proof.
  pose proof (pow2_le_30 L2SETS HS) as Hp.
  unfold Qcache.wf, Cache_new, initArrays. simpl.
  rewrite !length_replicate, Z.shiftl_1_l.
  rewrite (u64_small WAYS) by lia.
  rewrite Z.shiftl_mul_pow2 by lia. rewrite u64_small by nia.
  repeat split; try reflexivity.
  - rewrite rd_replicate. lia.
  - rewrite rd_replicate. lia.
Qed.

(** What an access that returns has done, by branch. *)
Lemma Cache_access_Ok_inv (addr : Z) (wr : bool) (c c' : Cache LL) :
  Cache_access addr wr c = Ok c' ->
  let s := set_of (tag_of addr) in
  let t := u32 (rd (tsmax c) s + 1) in
  rd (tsmax c) s <> TIMESTAMP_MAX /\
  ((exists idx,
      findMatch addr c = Some idx /\
      c' = {| lowerLevel := lowerLevel c; tagarray := tagarray c;
              tsarray := upd (tsarray c) idx t;
              tsmax := upd (tsmax c) s t;
              accesses := u64 (accesses c + 1); misses := misses c |}) \/
   (exists ll',
      findMatch addr c = None /\
      access (u64 (tag_of addr ≪ L2LINESZ)) wr (lowerLevel c) = Ok ll' /\
      c' = {| lowerLevel := ll';
              tagarray := upd (tagarray c) (findVictim s c)
                            (line_word (tag_of addr));
              tsarray := upd (tsarray c) (findVictim s c) t;
              tsmax := upd (tsmax c) s t;
              accesses := u64 (accesses c + 1);
              misses := u64 (misses c + 1) |})).
Proof.
  intros E s t.
  destruct (decide (rd (tsmax c) s = TIMESTAMP_MAX)) as [Hmax|Hmax].
  - exfalso. destruct (findMatch addr c) as [idx|] eqn:Em.
    + rewrite (Cache_access_hit addr wr c idx Em) in E.
      rewrite updateRepl_Aborted in E by exact Hmax. discriminate.
    + rewrite (Cache_access_miss addr wr c Em) in E.
      destruct (access (u64 (tag_of addr ≪ L2LINESZ)) wr (lowerLevel c))
        as [ll'| |e] eqn:El.
      * rewrite (access_miss_Aborted addr wr (count_access c) ll' El Hmax) in E.
        discriminate.
      * unfold Qcache.access_miss in E. simpl in E. rewrite El in E.
        discriminate.
      * unfold Qcache.access_miss in E. simpl in E. rewrite El in E.
        discriminate.
  - split; [exact Hmax|]. destruct (findMatch addr c) as [idx|] eqn:Em.
    + left. exists idx. split; [reflexivity|].
      rewrite (Cache_access_hit addr wr c idx Em) in E.
      rewrite updateRepl_Ok in E by exact Hmax. injection E as <-.
      reflexivity.
    + right. rewrite (Cache_access_miss addr wr c Em) in E.
      pose proof (access_miss_lower addr wr _ _ E) as El. simpl in El.
      exists (lowerLevel c'). split; [reflexivity|]. split; [exact El|].
      rewrite (access_miss_Ok addr wr (count_access c) _ El Hmax) in E.
      injection E as <-. reflexivity.
Qed.

Lemma wf_upd_tsmax (a : list Z) (s : Z) (x : Z) :
  (forall j, 0 <= rd a j < 2 ^ 32) ->
  forall j, 0 <= rd (upd a s (u32 x)) j < 2 ^ 32.
Proof.
  intros Ha j. destruct (rd_upd_cases a s j (u32 x)) as [-> | ->].
  - apply u32_range.
  - apply Ha.
Qed.

Lemma wf_Cache_access (addr : Z) (wr : bool) (c c' : Cache LL) :
  wf c -> Cache_access addr wr c = Ok c' -> wf c'.
Proof.
  intros (H1 & H2 & H3 & H4) E.
  destruct (Cache_access_Ok_inv addr wr c c' E)
    as [_ [(idx & _ & ->) | (ll' & _ & _ & ->)]];
    unfold Qcache.wf; simpl; rewrite ?length_upd;
    (split; [exact H1|]; split; [exact H2|]; split; [exact H3|]);
    apply wf_upd_tsmax; exact H4.
Qed.

Lemma wf_Cache_invalidate (addr : Z) (c c' : Cache LL) :
  wf c -> Cache_invalidate addr c = Ok c' -> wf c'.
Proof.
  intros (H1 & H2 & H3 & H4) E. injection E as <-.
  unfold Qcache.wf. simpl. rewrite invalidate_loop_length. tauto.
Qed.

(** ** [invalidate] *)

Lemma slot_valid_zero (ta : list Z) (j : Z) :
  rd ta j = 0 -> slot_valid ta j = false.
Proof. intros E. unfold Qcache.slot_valid. rewrite E. reflexivity. Qed.

(** The tag array after [invalidate(X)], slot by slot. *)
Lemma Cache_invalidate_rd (X : Z) (c : Cache LL) (j : Z) :
  wf c -> 0 <= j ->
  let s := set_of (tag_of X) in
  rd (invalidate_loop L2LINESZ (tag_of X) (Z.to_nat (set_hi s - set_lo s))
        (set_lo s) (tagarray c)) j =
  if decide (set_lo s <= j < set_hi s /\ slot_tag (tagarray c) j = tag_of X)
  then 0 else rd (tagarray c) j.
Proof.
  intros (Hlen & _) Hj s.
  pose proof (set_of_range (tag_of X)) as Hs. fold s in Hs.
  pose proof (pow2_le_30 L2SETS HS) as Hp.
  rewrite invalidate_loop_rd.
  - rewrite set_width by exact Hs.
    rewrite set_hi_eq by exact Hs. rewrite set_lo_eq by exact Hs.
    reflexivity.
  - rewrite set_lo_eq by exact Hs. nia.
  - rewrite set_width by exact Hs. rewrite set_lo_eq by exact Hs.
    rewrite Hlen. nia.
  - exact Hj.
Qed.

Lemma access_loop_ext (ta ta' : list Z) (tag : Z) (n : nat) (lo : Z) :
  (forall j, lo <= j < lo + Z.of_nat n ->
     (slot_tag ta j =? tag) && slot_valid ta j =
     (slot_tag ta' j =? tag) && slot_valid ta' j) ->
  access_loop L2LINESZ ta tag n lo = access_loop L2LINESZ ta' tag n lo.
Proof.
  revert lo. induction n as [|n IH]; intros lo Hext; simpl; [reflexivity|].
  rewrite <- (Hext lo) by lia. rewrite (IH (lo + 1)); [reflexivity|].
  intros j Hj. apply Hext. lia.
Qed.

Lemma access_miss_counters (addr : Z) (wr : bool) (c c' : Cache LL) :
  access_miss addr wr c = Ok c' ->
  misses c' = u64 (misses c + 1) /\ accesses c' = accesses c.
Proof.
  unfold Qcache.access_miss. simpl.
  destruct (access (u64 (tag_of addr ≪ L2LINESZ)) wr (lowerLevel c))
    as [ll'| |e]; simpl; try discriminate.
  unfold mbind, outcome_bind, Qcache.updateRepl. simpl.
  destruct (rd (tsmax c) (set_of (tag_of addr)) =? TIMESTAMP_MAX); simpl;
    [discriminate|].
  intros E. injection E as <-. simpl. split; reflexivity.
Qed.

(** C4.  [invalidate(X)] returns.  It writes 0 into every slot of the set
    of [X] whose tag field equals the tag of [X], valid or not, and leaves
    every other slot as it was; the timestamps, the set counters, the lower
    level, [accesses] and [misses] are as before.  In the state it leaves,
    an access to [X] takes the miss branch (it counts a miss when it
    returns), and an address with another tag that hit before still hits. *)
Theorem invalidate_contract (X : Z) (c : Cache LL) :
  wf c ->
  let s := set_of (tag_of X) in
  exists c',
    Cache_invalidate X c = Ok c' /\
    (forall j, 0 <= j ->
       rd (tagarray c') j =
       if decide (set_lo s <= j < set_hi s /\
                  slot_tag (tagarray c) j = tag_of X)
       then 0 else rd (tagarray c) j) /\
    tsarray c' = tsarray c /\ tsmax c' = tsmax c /\
    lowerLevel c' = lowerLevel c /\
    accesses c' = accesses c /\ misses c' = misses c /\
    is_hit X c' = false /\
    (forall wr c'', Cache_access X wr c' = Ok c'' ->
       misses c'' = u64 (misses c + 1)) /\
    (forall Y, tag_of Y <> tag_of X -> is_hit Y c = true -> is_hit Y c' = true).
Proof.
  intros Hwf s. subst s. eexists. split; [reflexivity|]. simpl.
  pose proof (set_of_range (tag_of X)) as Hs.
  assert (Hrd := fun j Hj => Cache_invalidate_rd X c j Hwf Hj).
  simpl in Hrd.
  split; [exact Hrd|]. do 5 (split; [reflexivity|]).
  match goal with |- is_hit X ?c1 = false /\ _ => set (c' := c1) end.
  assert (Hmiss : findMatch X c' = None).
  { destruct (findMatch X c') as [idx|] eqn:E; [|reflexivity]. exfalso.
    destruct (findMatch_Some X idx c' E) as [(Hidx & Hv & Ht) _].
    unfold Qcache.slot_tag in Ht. simpl in Hv, Ht.
    assert (H0 : 0 <= idx) by (rewrite set_lo_eq in Hidx by exact Hs; nia).
    pose proof (Hrd idx H0) as R.
    destruct (decide _) as [_|Hn].
    - rewrite (slot_valid_zero _ _ R) in Hv. discriminate.
    - apply Hn. split; [exact Hidx|]. unfold Qcache.slot_tag.
      rewrite <- R. exact Ht. }
  split; [apply is_hit_false; exact Hmiss|]. split.
  - intros wr c'' E. rewrite (Cache_access_miss X wr c' Hmiss) in E.
    apply access_miss_counters in E as [E _]. exact E.
  - intros Y Hne Hhit. apply is_hit_true in Hhit as [idx E].
    apply is_hit_true. exists idx. rewrite <- E.
    unfold Qcache.findMatch. simpl. apply access_loop_ext.
    intros j Hj.
    assert (H0 : 0 <= j).
    { pose proof (set_of_range (tag_of Y)) as HsY.
      rewrite set_lo_eq in Hj by exact HsY. nia. }
    unfold Qcache.slot_tag at 1. unfold Qcache.slot_valid at 1.
    pose proof (Hrd j H0) as R. destruct (decide _) as [[_ Ht]|_].
    + rewrite R. rewrite Ht.
      replace (0 ≫ L2LINESZ) with 0 by (symmetry; apply Z.shiftr_0_l).
      simpl. rewrite andb_false_r.
      destruct (Z.eqb_spec (tag_of X) (tag_of Y)) as [Heq|_];
        [congruence|reflexivity].
    + rewrite R. reflexivity.
Qed.

(** ** Residency *)

Local Abbreviation no_dup_in_set := (no_dup_in_set WAYS L2LINESZ (LL:=LL)).
Local Abbreviation resident_slots := (resident_slots WAYS L2LINESZ (LL:=LL)).
Local Abbreviation run := (run WAYS L2SETS L2LINESZ (LL:=LL)).

Lemma resident_slots_bound (c : Cache LL) (s : Z) :
  0 <= s < 2 ^ L2SETS -> Z.of_nat (length (resident_slots c s)) <= WAYS.
Proof.
  intros Hs. unfold Qcache.resident_slots.
  pose proof (length_filter (fun idx => slot_valid (tagarray c) idx = true)
                (seqZ (set_lo s) (set_hi s - set_lo s))) as Hf.
  rewrite length_seqZ in Hf. pose proof (set_width s Hs). lia.
Qed.

Lemma no_dup_Cache_new (ll : LL) (s : Z) :
  no_dup_in_set (Cache_new WAYS L2SETS ll) s.
Proof.
  intros t i j (_ & Hv & _) _. exfalso.
  unfold Cache_new, initArrays in Hv. simpl in Hv.
  rewrite slot_valid_zero in Hv by apply rd_replicate. discriminate.
Qed.

(** A slot that is resident after [invalidate] was resident before. *)
Lemma resident_Cache_invalidate (X : Z) (c c' : Cache LL) (s t i : Z) :
  wf c -> 0 <= s < 2 ^ L2SETS -> Cache_invalidate X c = Ok c' ->
  resident c' s t i -> resident c s t i.
Proof.
  intros Hwf Hs E (Hi & Hv & Ht). injection E as <-. simpl in Hv, Ht.
  assert (H0 : 0 <= i) by (rewrite set_lo_eq in Hi by exact Hs; nia).
  pose proof (Cache_invalidate_rd X c i Hwf H0) as R. simpl in R.
  destruct (decide _) as [_|_].
  - rewrite (slot_valid_zero _ _ R) in Hv. discriminate.
  - unfold Qcache.resident, Qcache.slot_valid, Qcache.slot_tag in *.
    rewrite R in Hv, Ht. tauto.
Qed.

(** A hit leaves the tag array alone; a miss writes one slot of the set of
    the address, and no valid slot of that set held the tag. *)
Lemma no_dup_Cache_access (addr : Z) (wr : bool) (c c' : Cache LL) :
  wf c -> is_addr addr ->
  (forall s, 0 <= s < 2 ^ L2SETS -> no_dup_in_set c s) ->
  Cache_access addr wr c = Ok c' ->
  forall s, 0 <= s < 2 ^ L2SETS -> no_dup_in_set c' s.
Proof.
  intros Hwf Ha Hinv E s Hs.
  destruct (Cache_access_Ok_inv addr wr c c' E)
    as [_ [(idx & _ & ->) | (ll' & Hnone & _ & ->)]].
  - intros t i j Hi Hj. exact (Hinv s Hs t i j Hi Hj).
  - pose proof (set_of_range (tag_of addr)) as Hs0.
    pose proof (findVictim_range (set_of (tag_of addr)) c Hs0) as Hv.
    set (v := findVictim (set_of (tag_of addr)) c) in *.
    pose proof (set_slots_in_range _ v Hs0 Hv) as Hvr.
    destruct Hwf as (Hlen & _).
    assert (Hvl : 0 <= v < Z.of_nat (length (tagarray c))) by (rewrite Hlen; lia).
    (* a slot other than the victim is resident as before *)
    assert (Hold : forall t k, k <> v ->
              resident {| lowerLevel := ll';
                          tagarray := upd (tagarray c) v (line_word (tag_of addr));
                          tsarray := upd (tsarray c) v
                                       (u32 (rd (tsmax c) (set_of (tag_of addr)) + 1));
                          tsmax := upd (tsmax c) (set_of (tag_of addr))
                                     (u32 (rd (tsmax c) (set_of (tag_of addr)) + 1));
                          accesses := u64 (accesses c + 1);
                          misses := u64 (misses c + 1) |} s t k ->
              resident c s t k).
    { intros t k Hne (Hk & Hkv & Hkt).
      assert (0 <= k) by (rewrite set_lo_eq in Hk by exact Hs; nia).
      unfold Qcache.resident, Qcache.slot_valid, Qcache.slot_tag in *.
      simpl in Hkv, Hkt. rewrite rd_upd_ne in Hkv, Hkt by lia. tauto. }
    (* the victim, when resident, holds the tag of [addr] in its set *)
    assert (Hnew : forall t k, k <> v ->
              resident {| lowerLevel := ll';
                          tagarray := upd (tagarray c) v (line_word (tag_of addr));
                          tsarray := upd (tsarray c) v
                                       (u32 (rd (tsmax c) (set_of (tag_of addr)) + 1));
                          tsmax := upd (tsmax c) (set_of (tag_of addr))
                                     (u32 (rd (tsmax c) (set_of (tag_of addr)) + 1));
                          accesses := u64 (accesses c + 1);
                          misses := u64 (misses c + 1) |} s t v ->
              resident c s t k -> False).
    { intros t k Hne (Hvs & Hvv & Hvt) Hk.
      assert (s = set_of (tag_of addr))
        by (eapply set_slots_disjoint; eassumption).
      subst s.
      unfold Qcache.slot_valid, Qcache.slot_tag in Hvv, Hvt.
      simpl in Hvv, Hvt. rewrite rd_upd_eq in Hvv, Hvt by exact Hvl.
      destruct (decide (L2LINESZ = 0)) as [E0|E0].
      - pose proof (no_line_valid (upd (tagarray c) v (line_word (tag_of addr)))
                      v E0) as Hn.
        unfold Qcache.slot_valid in Hn. rewrite rd_upd_eq in Hn by exact Hvl.
        congruence.
      - rewrite line_word_tag in Hvt by (try exact Ha; lia). subst t.
        exact (findMatch_None addr c Hnone k Hk). }
    intros t i j Hi Hj.
    destruct (decide (i = v)) as [->|Hiv]; destruct (decide (j = v)) as [->|Hjv].
    + reflexivity.
    + exfalso. exact (Hnew t j Hjv Hi (Hold t j Hjv Hj)).
    + exfalso. exact (Hnew t i Hiv Hj (Hold t i Hiv Hi)).
    + exact (Hinv s Hs t i j (Hold t i Hiv Hi) (Hold t j Hjv Hj)).
Qed.

Lemma run_invariant (ks : list call) (c0 c : Cache LL) :
  Forall (fun k => is_addr (call_addr k)) ks ->
  wf c0 -> (forall s, 0 <= s < 2 ^ L2SETS -> no_dup_in_set c0 s) ->
  run ks c0 = Ok c ->
  wf c /\ (forall s, 0 <= s < 2 ^ L2SETS -> no_dup_in_set c s).
Proof.
  revert c0. induction ks as [|k ks IH]; intros c0 Hks Hwf Hinv E.
  - injection E as <-. split; assumption.
  - apply Forall_cons in Hks as [Hk Hks]. simpl in E.
    destruct (do_call WAYS L2SETS L2LINESZ k c0) as [c1| |e] eqn:E1;
      try discriminate.
    simpl in E. apply (IH c1 Hks); [| |exact E].
    + destruct k as [a w|a]; simpl in E1.
      * eapply wf_Cache_access; eassumption.
      * eapply wf_Cache_invalidate; eassumption.
    + destruct k as [a w|a]; simpl in E1, Hk.
      * eapply no_dup_Cache_access; eassumption.
      * intros s Hs t i j Hi Hj. apply (Hinv s Hs t).
        -- eapply resident_Cache_invalidate; eassumption.
        -- eapply resident_Cache_invalidate; eassumption.
Qed.

(** C7.  After any sequence of [access] and [invalidate] calls on a newly
    constructed unit, in every set no tag is held by two valid slots, and
    the number of valid slots of the set is at most [WAYS]. *)
Theorem residency_invariant (ll : LL) (ks : list call) (c : Cache LL) :
  Forall (fun k => is_addr (call_addr k)) ks ->
  run ks (Cache_new WAYS L2SETS ll) = Ok c ->
  forall s, 0 <= s < 2 ^ L2SETS ->
    no_dup_in_set c s /\ Z.of_nat (length (resident_slots c s)) <= WAYS.
Proof.
  intros Hks E s Hs.
  destruct (run_invariant ks (Cache_new WAYS L2SETS ll) c Hks
              (wf_Cache_new ll) (fun s' _ => no_dup_Cache_new ll s') E)
    as [_ Hinv].
  split; [exact (Hinv s Hs)|exact (resident_slots_bound c s Hs)].
Qed.

(** ** What [findVictim] returns *)

Lemma findVictim_loop_spec (ta ts : list Z) (n : nat) (lo i m : Z) :
  lo <= m < i ->
  (forall j, lo <= j < i -> rd ts j <= rd ts m) ->
  (forall j, lo <= j < m -> rd ts j < rd ts m) ->
  let r := findVictim_loop L2LINESZ ta ts n i m (rd ts m) in
  (i <= r < i + Z.of_nat n /\ slot_valid ta r = false /\
   forall j, i <= j < r -> slot_valid ta j = true) \/
  ((forall j, i <= j < i + Z.of_nat n -> slot_valid ta j = true) /\
   lo <= r < i + Z.of_nat n /\
   (forall j, lo <= j < i + Z.of_nat n -> rd ts j <= rd ts r) /\
   (forall j, lo <= j < r -> rd ts j < rd ts r)).
Proof.
  revert i m. induction n as [|n IH]; intros i m Hm Hle Hlt; simpl.
  - right. split; [intros j Hj; lia|]. split; [lia|].
    split; [intros j Hj; apply Hle; lia|exact Hlt].
  - destruct (Z.land (rd ta i) stateMask =? 0) eqn:Ev.
    + left. split; [lia|]. split.
      * unfold Qcache.slot_valid. rewrite Ev. reflexivity.
      * intros j Hj. lia.
    + assert (Hvi : slot_valid ta i = true)
        by (unfold Qcache.slot_valid; rewrite Ev; reflexivity).
      assert (Hstep : forall m',
                lo <= m' < i + 1 ->
                (forall j, lo <= j < i + 1 -> rd ts j <= rd ts m') ->
                (forall j, lo <= j < m' -> rd ts j < rd ts m') ->
                let r := findVictim_loop L2LINESZ ta ts n (i + 1) m' (rd ts m') in
                (i <= r < i + Z.of_nat (S n) /\ slot_valid ta r = false /\
                 forall j, i <= j < r -> slot_valid ta j = true) \/
                ((forall j, i <= j < i + Z.of_nat (S n) ->
                    slot_valid ta j = true) /\
                 lo <= r < i + Z.of_nat (S n) /\
                 (forall j, lo <= j < i + Z.of_nat (S n) ->
                    rd ts j <= rd ts r) /\
                 (forall j, lo <= j < r -> rd ts j < rd ts r))).
      { intros m' Hm' Hle' Hlt'.
        destruct (IH (i + 1) m' Hm' Hle' Hlt')
          as [(Hr & Hinv & Hfirst) | (Hv & Hr & Hmle & Hmlt)].
        - left. split; [lia|]. split; [exact Hinv|].
          intros j Hj. destruct (decide (j = i)) as [->|Hne];
            [exact Hvi|apply Hfirst; lia].
        - right. split.
          + intros j Hj. destruct (decide (j = i)) as [->|Hne];
              [exact Hvi|apply Hv; lia].
          + split; [lia|]. split; [|exact Hmlt].
            intros j Hj. apply Hmle. lia. }
      destruct (Z.gtb_spec (rd ts i) (rd ts m)) as [Hgt|Hngt].
      * apply (Hstep i); [lia| |].
        -- intros j Hj. destruct (decide (j = i)) as [->|Hne]; [lia|].
           specialize (Hle j ltac:(lia)). lia.
        -- intros j Hj. specialize (Hle j ltac:(lia)). lia.
      * apply (Hstep m); [lia| |exact Hlt].
        intros j Hj. destruct (decide (j = i)) as [->|Hne]; [lia|].
        apply Hle. lia.
Qed.

(** [findVictim] returns the first slot among ways 1 and up whose valid bit
    is clear; when all of these are valid it returns the first slot of the
    whole set, way 0 included, that carries the maximum timestamp.  The
    valid bit of way 0 plays no part. *)
Lemma findVictim_spec (s : Z) (c : Cache LL) :
  0 <= s < 2 ^ L2SETS ->
  let r := findVictim s c in
  (set_lo s + 1 <= r < set_hi s /\
   slot_valid (tagarray c) r = false /\
   forall j, set_lo s + 1 <= j < r -> slot_valid (tagarray c) j = true) \/
  ((forall j, set_lo s + 1 <= j < set_hi s ->
      slot_valid (tagarray c) j = true) /\
   set_lo s <= r < set_hi s /\
   (forall j, set_lo s <= j < set_hi s ->
      rd (tsarray c) j <= rd (tsarray c) r) /\
   (forall j, set_lo s <= j < r -> rd (tsarray c) j < rd (tsarray c) r)).
Proof.
  intros Hs r.
  pose proof (findVictim_loop_spec (tagarray c) (tsarray c)
                (Z.to_nat (set_hi s - (set_lo s + 1))) (set_lo s)
                (set_lo s + 1) (set_lo s)) as S.
  assert (Hn : set_lo s + 1 + Z.of_nat (Z.to_nat (set_hi s - (set_lo s + 1)))
               = set_hi s).
  { rewrite set_hi_eq, set_lo_eq by exact Hs. lia. }
  rewrite Hn in S. fold (findVictim s c) in S. fold r in S.
  apply S.
  - lia.
  - intros j Hj. assert (j = set_lo s) as -> by lia. lia.
  - intros j Hj. lia.
Qed.

(** ** Two ways: the choice of the victim *)

Section TwoWays.

Hypothesis HW2 : WAYS = 2.
Hypothesis HL1 : 1 <= L2LINESZ.
Hypothesis Hdev : dev_returns LL.

Local Abbreviation evicted_tag := (evicted_tag WAYS L2LINESZ (LL:=LL)).
Local Abbreviation set_empty := (set_empty WAYS L2LINESZ (LL:=LL)).
Local Abbreviation slot_line := (slot_line L2LINESZ).
Local Abbreviation two_way_set := (two_way_set WAYS L2LINESZ (LL:=LL)).

(** With two ways the loop of [findVictim] runs once, for way 1. *)
Lemma findVictim_two_ways (s : Z) (c : Cache LL) :
  0 <= s < 2 ^ L2SETS ->
  findVictim s c =
  if Z.land (rd (tagarray c) (set_lo s + 1)) stateMask =? 0 then set_lo s + 1
  else if rd (tsarray c) (set_lo s + 1) >? rd (tsarray c) (set_lo s)
       then set_lo s + 1 else set_lo s.
Proof.
  intros Hs. unfold Qcache.findVictim.
  replace (Z.to_nat (set_hi s - (set_lo s + 1))) with 1%nat
    by (rewrite set_hi_eq, set_lo_eq by exact Hs; lia).
  reflexivity.
Qed.

Lemma slot_installed (ta : list Z) (i : Z) (addr : Z) :
  is_addr addr -> rd ta i = line_word (tag_of addr) ->
  slot_valid ta i = true /\ slot_tag ta i = tag_of addr.
Proof.
  intros Ha E. unfold Qcache.slot_valid, Qcache.slot_tag. rewrite E. split.
  - pose proof (line_word_valid (tag_of addr) HL1) as Hv.
    apply Z.eqb_neq in Hv. rewrite Hv. reflexivity.
  - apply line_word_tag; assumption.
Qed.

Lemma set_two_slots (s idx : Z) :
  0 <= s < 2 ^ L2SETS -> set_lo s <= idx < set_hi s ->
  idx = set_lo s \/ idx = set_lo s + 1.
Proof. intros Hs. rewrite set_hi_eq, set_lo_eq by exact Hs. lia. Qed.

Lemma way1_slot_in_range (s : Z) (c : Cache LL) :
  wf c -> 0 <= s < 2 ^ L2SETS ->
  0 <= set_lo s /\
  0 <= set_lo s + 1 < Z.of_nat (length (tagarray c)) /\
  0 <= set_lo s + 1 < Z.of_nat (length (tsarray c)) /\
  0 <= s < Z.of_nat (length (tsmax c)).
Proof.
  intros (H1 & H2 & H3 & _) Hs. rewrite H1, H2, H3.
  rewrite set_lo_eq by exact Hs.
  pose proof (pow2_le_30 L2SETS HS). nia.
Qed.

Lemma two_slots_in_set (s : Z) :
  0 <= s < 2 ^ L2SETS ->
  set_lo s <= set_lo s < set_hi s /\ set_lo s <= set_lo s + 1 < set_hi s.
Proof. intros Hs. rewrite set_hi_eq, set_lo_eq by exact Hs. lia. Qed.

(** *** What a slot holds *)

Lemma slot_line_Some (ta : list Z) (i t : Z) :
  slot_line ta i = Some t <-> slot_valid ta i = true /\ slot_tag ta i = t.
Proof.
  unfold Qcache.slot_line. destruct (slot_valid ta i).
  - split; [intros [= <-]; tauto|intros [_ <-]; reflexivity].
  - split; [discriminate|intros [? _]; discriminate].
Qed.

Lemma slot_line_None (ta : list Z) (i : Z) :
  slot_line ta i = None <-> slot_valid ta i = false.
Proof.
  unfold Qcache.slot_line. destruct (slot_valid ta i).
  - split; discriminate.
  - tauto.
Qed.

Lemma slot_line_ext (ta ta' : list Z) (i : Z) :
  rd ta' i = rd ta i -> slot_line ta' i = slot_line ta i.
Proof.
  intros E. unfold Qcache.slot_line, Qcache.slot_valid, Qcache.slot_tag.
  rewrite E. reflexivity.
Qed.

Lemma slot_line_installed (ta : list Z) (i addr : Z) :
  is_addr addr -> rd ta i = line_word (tag_of addr) ->
  slot_line ta i = Some (tag_of addr).
Proof.
  intros Ha E. apply slot_line_Some. apply slot_installed; assumption.
Qed.

Lemma evicted_tag_slot_line (s : Z) (c : Cache LL) :
  evicted_tag s c = slot_line (tagarray c) (findVictim s c).
Proof. reflexivity. Qed.

(** *** One set of a two-way unit *)

(** The slot of a two-way set that holds the tag of [Y], if any, decides
    the lookup. *)
Lemma two_way_hit (Y : Z) (c : Cache LL) (l0 l1 : option Z) (t0 t1 k : Z) :
  two_way_set (set_of (tag_of Y)) c l0 t0 l1 t1 k ->
  l0 = Some (tag_of Y) \/ l1 = Some (tag_of Y) -> is_hit Y c = true.
Proof.
  intros (E0 & _ & E1 & _) Hl.
  pose proof (set_of_range (tag_of Y)) as Hs.
  set (s := set_of (tag_of Y)) in *.
  apply is_hit_true. destruct Hl as [-> | ->].
  - apply (findMatch_resident Y (set_lo s) c). apply slot_line_Some in E0.
    split; [apply (two_slots_in_set _ Hs)|exact E0].
  - apply (findMatch_resident Y (set_lo s + 1) c). apply slot_line_Some in E1.
    split; [apply (two_slots_in_set _ Hs)|exact E1].
Qed.

Lemma two_way_miss (Y : Z) (c : Cache LL) (l0 l1 : option Z) (t0 t1 k : Z) :
  two_way_set (set_of (tag_of Y)) c l0 t0 l1 t1 k ->
  l0 <> Some (tag_of Y) -> l1 <> Some (tag_of Y) -> is_hit Y c = false.
Proof.
  intros (E0 & _ & E1 & _) H0 H1.
  pose proof (set_of_range (tag_of Y)) as Hs.
  apply is_hit_false.
  destruct (findMatch Y c) as [idx|] eqn:E; [|reflexivity]. exfalso.
  destruct (findMatch_Some Y idx c E) as [(Hidx & Hv) _].
  apply slot_line_Some in Hv.
  destruct (set_two_slots _ idx Hs Hidx) as [-> | ->]; congruence.
Qed.

(** The victim of a two-way set: way 1 when it is empty or carries the
    larger timestamp, way 0 otherwise; the valid bit of way 0 is not
    read. *)
Lemma two_way_victim (s : Z) (c : Cache LL) (l0 l1 : option Z) (t0 t1 k : Z) :
  0 <= s < 2 ^ L2SETS -> two_way_set s c l0 t0 l1 t1 k ->
  findVictim s c =
  if decide (l1 = None \/ t0 < t1) then set_lo s + 1 else set_lo s.
Proof.
  intros Hs (_ & Et0 & E1 & Et1 & _).
  rewrite findVictim_two_ways by exact Hs. rewrite Et0, Et1.
  destruct l1 as [t|].
  - apply slot_line_Some in E1 as [Hv _].
    unfold Qcache.slot_valid in Hv. apply negb_true_iff in Hv. rewrite Hv.
    destruct (Z.gtb_spec t1 t0); destruct (decide _) as [[?|?]|?];
      try reflexivity; try discriminate; lia.
  - apply slot_line_None in E1.
    unfold Qcache.slot_valid in E1. apply negb_false_iff in E1. rewrite E1.
    rewrite decide_True by (left; reflexivity). reflexivity.
Qed.

Lemma two_way_evicted (s : Z) (c : Cache LL) (l0 l1 : option Z)
    (t0 t1 k : Z) :
  0 <= s < 2 ^ L2SETS -> two_way_set s c l0 t0 l1 t1 k ->
  evicted_tag s c = if decide (l1 = None \/ t0 < t1) then l1 else l0.
Proof.
  intros Hs Q. rewrite evicted_tag_slot_line.
  rewrite (two_way_victim s c l0 l1 t0 t1 k Hs Q).
  destruct Q as (E0 & _ & E1 & _).
  destruct (decide _); assumption.
Qed.

(** One access to a two-way set, whatever the set holds: a hit stamps the
    slot found, a miss stamps the victim and installs the line there. *)
Lemma two_way_access (Y : Z) (wr : bool) (c : Cache LL) (l0 l1 : option Z)
    (t0 t1 k : Z) :
  wf c -> is_addr Y ->
  two_way_set (set_of (tag_of Y)) c l0 t0 l1 t1 k -> k < TIMESTAMP_MAX ->
  exists c', Cache_access Y wr c = Ok c' /\ wf c' /\
    if decide (l0 = Some (tag_of Y))
    then two_way_set (set_of (tag_of Y)) c' l0 (k + 1) l1 t1 (k + 1)
    else if decide (l1 = Some (tag_of Y))
    then two_way_set (set_of (tag_of Y)) c' l0 t0 l1 (k + 1) (k + 1)
    else if decide (l1 = None \/ t0 < t1)
    then two_way_set (set_of (tag_of Y)) c' l0 t0 (Some (tag_of Y)) (k + 1)
           (k + 1)
    else two_way_set (set_of (tag_of Y)) c' (Some (tag_of Y)) (k + 1) l1 t1
           (k + 1).
Proof.
  intros Hwf HaY Q Hk.
  pose proof (set_of_range (tag_of Y)) as Hs.
  pose proof (two_way_victim _ c l0 l1 t0 t1 k Hs Q) as Hvic.
  set (s := set_of (tag_of Y)) in *.
  destruct (way1_slot_in_range s c Hwf Hs) as (Hlo & Hta & Hts & Hsm).
  pose proof Q as (E0 & Et0 & E1 & Et1 & Ek).
  assert (Hk0 : 0 <= k) by (destruct Hwf as (_ & _ & _ & Hr);
                            specialize (Hr s); lia).
  assert (Hmax : rd (tsmax c) s <> TIMESTAMP_MAX) by lia.
  assert (Hu : u32 (rd (tsmax c) s + 1) = k + 1)
    by (rewrite Ek; apply u32_small; unfold TIMESTAMP_MAX in Hk; lia).
  destruct (findMatch Y c) as [idx|] eqn:Em.
  - (* hit *)
    assert (Ec : Cache_access Y wr c =
                 Ok {| lowerLevel := lowerLevel c; tagarray := tagarray c;
                       tsarray := upd (tsarray c) idx (k + 1);
                       tsmax := upd (tsmax c) s (k + 1);
                       accesses := u64 (accesses c + 1);
                       misses := misses c |}).
    { rewrite (Cache_access_hit Y wr c idx Em).
      rewrite updateRepl_Ok by exact Hmax. simpl. fold s. rewrite Hu.
      reflexivity. }
    eexists. split; [exact Ec|].
    split; [eapply wf_Cache_access; [exact Hwf|exact Ec]|].
    destruct (findMatch_Some Y idx c Em) as [(Hidx & Hv) Hfirst]. fold s in Hidx.
    apply slot_line_Some in Hv.
    destruct (set_two_slots s idx Hs Hidx) as [-> | ->].
    + rewrite decide_True by congruence.
      unfold Qcache.two_way_set. simpl.
      rewrite !rd_upd_eq by lia. rewrite !rd_upd_ne by lia. tauto.
    + rewrite decide_False.
      * rewrite decide_True by congruence.
        unfold Qcache.two_way_set. simpl.
        rewrite !rd_upd_eq by lia. rewrite !rd_upd_ne by lia. tauto.
      * intros H0. rewrite <- E0 in H0. apply slot_line_Some in H0.
        assert (set_lo s + 1 <= set_lo s); [|lia].
        apply Hfirst. fold s.
        split; [apply (two_slots_in_set _ Hs)|exact H0].
  - (* miss *)
    destruct (Hdev (u64 (tag_of Y ≪ L2LINESZ)) wr (lowerLevel c)) as [ll' Hll].
    assert (Ec : Cache_access Y wr c =
                 Ok {| lowerLevel := ll';
                       tagarray := upd (tagarray c) (findVictim s c)
                                     (line_word (tag_of Y));
                       tsarray := upd (tsarray c) (findVictim s c) (k + 1);
                       tsmax := upd (tsmax c) s (k + 1);
                       accesses := u64 (accesses c + 1);
                       misses := u64 (misses c + 1) |}).
    { rewrite (Cache_access_miss Y wr c Em).
      rewrite (access_miss_Ok Y wr (count_access c) ll' Hll Hmax).
      simpl. fold s. rewrite Hu. reflexivity. }
    eexists. split; [exact Ec|].
    split; [eapply wf_Cache_access; [exact Hwf|exact Ec]|].
    pose proof (findMatch_None Y c Em) as Hnone. fold s in Hnone.
    assert (H0 : l0 <> Some (tag_of Y)).
    { intros H0. rewrite <- E0 in H0. apply slot_line_Some in H0.
      apply (Hnone (set_lo s)).
      split; [apply (two_slots_in_set _ Hs)|exact H0]. }
    assert (H1 : l1 <> Some (tag_of Y)).
    { intros H1. rewrite <- E1 in H1. apply slot_line_Some in H1.
      apply (Hnone (set_lo s + 1)).
      split; [apply (two_slots_in_set _ Hs)|exact H1]. }
    rewrite (decide_False (P := l0 = _)) by exact H0.
    rewrite (decide_False (P := l1 = Some _)) by exact H1.
    rewrite Hvic. unfold Qcache.two_way_set. simpl.
    destruct (decide (l1 = None \/ t0 < t1)) as [_|_].
    + rewrite (slot_line_installed _ (set_lo s + 1) Y HaY)
        by (apply rd_upd_eq; lia).
      rewrite (slot_line_ext (tagarray c) _ (set_lo s))
        by (apply rd_upd_ne; lia).
      rewrite !rd_upd_eq by lia. rewrite !rd_upd_ne by lia. tauto.
    + rewrite (slot_line_installed _ (set_lo s) Y HaY)
        by (apply rd_upd_eq; lia).
      rewrite (slot_line_ext (tagarray c) _ (set_lo s + 1))
        by (apply rd_upd_ne; lia).
      rewrite !rd_upd_eq by lia. rewrite !rd_upd_ne by lia. tauto.
Qed.

Lemma run_cons_Ok (k : call) (ks : list call) (c c1 : Cache LL) :
  do_call WAYS L2SETS L2LINESZ k c = Ok c1 -> run (k :: ks) c = run ks c1.
Proof. intros E. simpl. rewrite E. reflexivity. Qed.

(** C1, as the code has it.  Take a two-way unit with state bits
    ([1 <= L2LINESZ]) whose lower level returns, in any state in which the
    set of [A] is empty and the counter of that set leaves room for four
    accesses.  Let [A], [B], [C] lie in one set and have pairwise distinct
    tags.  The accesses [A], [B], [A] return and leave the line of [A]
    resident, and the access to [C] installs its line over the line of [A],
    the line touched last: the victim slot holds the tag of [A], after the
    access [A] misses and [C] hits. *)
Theorem abac_victim (c0 : Cache LL) (A B C : Z) (wa wb wa' wc : bool) :
  wf c0 ->
  is_addr A -> is_addr B -> is_addr C ->
  set_of (tag_of B) = set_of (tag_of A) ->
  set_of (tag_of C) = set_of (tag_of A) ->
  tag_of A <> tag_of B -> tag_of A <> tag_of C -> tag_of B <> tag_of C ->
  set_empty (set_of (tag_of A)) c0 ->
  rd (tsmax c0) (set_of (tag_of A)) + 4 <= TIMESTAMP_MAX ->
  exists c3 c4,
    run [Access A wa; Access B wb; Access A wa'] c0 = Ok c3 /\
    Cache_access C wc c3 = Ok c4 /\
    is_hit A c3 = true /\
    evicted_tag (set_of (tag_of A)) c3 = Some (tag_of A) /\
    is_hit A c4 = false /\
    is_hit C c4 = true.
Proof.
  intros Hwf0 HaA HaB HaC HsB HsC Hab Hac Hbc Hempty Hroom.
  pose proof (set_of_range (tag_of A)) as Hs.
  set (s := set_of (tag_of A)) in *.
  set (k := rd (tsmax c0) s) in *.
  set (t0 := rd (tsarray c0) (set_lo s)).
  assert (Q0 : two_way_set s c0 None t0 None (rd (tsarray c0) (set_lo s + 1))
                 k).
  { unfold Qcache.two_way_set. fold k t0.
    split; [apply slot_line_None, Hempty; apply (two_slots_in_set _ Hs)|].
    split; [reflexivity|].
    split; [apply slot_line_None, Hempty; apply (two_slots_in_set _ Hs)|].
    tauto. }
  (* access A: a miss into the empty way 1 *)
  destruct (two_way_access A wa c0 _ _ _ _ _ Hwf0 HaA Q0 ltac:(lia))
    as (c1 & E1 & Hwf1 & Q1). fold s in Q1.
  rewrite decide_False, decide_False, decide_True in Q1
    by (first [discriminate | left; reflexivity]).
  (* access B: a miss; the victim depends on the stamp found in way 0 *)
  pose proof Q1 as Q1'. rewrite <- HsB in Q1'.
  destruct (two_way_access B wb c1 _ _ _ _ _ Hwf1 HaB Q1' ltac:(lia))
    as (c2 & E2 & Hwf2 & Q2). rewrite HsB in Q2. fold s in Q2.
  rewrite decide_False, decide_False in Q2 by congruence.
  destruct (decide (Some (tag_of A) = None \/ t0 < k + 1)) as [Hlt|Hge].
  - (* way 1 again: B replaces A, then A replaces B *)
    assert (Ht0 : t0 < k + 1) by (destruct Hlt; [discriminate|assumption]).
    destruct (two_way_access A wa' c2 _ _ _ _ _ Hwf2 HaA Q2 ltac:(lia))
      as (c3 & E3 & Hwf3 & Q3). fold s in Q3.
    rewrite decide_False, decide_False, decide_True in Q3
      by (first [congruence | right; lia]).
    pose proof Q3 as Q3'. rewrite <- HsC in Q3'.
    destruct (two_way_access C wc c3 _ _ _ _ _ Hwf3 HaC Q3' ltac:(lia))
      as (c4 & E4 & Hwf4 & Q4). rewrite HsC in Q4. fold s in Q4.
    rewrite decide_False, decide_False, decide_True in Q4
      by (first [congruence | right; lia]).
    exists c3, c4. split.
    { rewrite (run_cons_Ok (Access A wa) _ _ c1 E1).
      rewrite (run_cons_Ok (Access B wb) _ _ c2 E2).
      rewrite (run_cons_Ok (Access A wa') _ _ c3 E3). reflexivity. }
    split; [exact E4|].
    split; [apply (two_way_hit A c3 _ _ _ _ _ Q3); right; reflexivity|].
    split.
    { rewrite (two_way_evicted s c3 _ _ _ _ _ Hs Q3).
      apply decide_True. right. lia. }
    split.
    + apply (two_way_miss A c4 _ _ _ _ _ Q4); congruence.
    + rewrite <- HsC in Q4.
      apply (two_way_hit C c4 _ _ _ _ _ Q4); right; reflexivity.
  - (* way 0: B joins A, then A hits in way 1 *)
    destruct (two_way_access A wa' c2 _ _ _ _ _ Hwf2 HaA Q2 ltac:(lia))
      as (c3 & E3 & Hwf3 & Q3). fold s in Q3.
    rewrite decide_False, decide_True in Q3 by congruence.
    pose proof Q3 as Q3'. rewrite <- HsC in Q3'.
    destruct (two_way_access C wc c3 _ _ _ _ _ Hwf3 HaC Q3' ltac:(lia))
      as (c4 & E4 & Hwf4 & Q4). rewrite HsC in Q4. fold s in Q4.
    rewrite decide_False, decide_False, decide_True in Q4
      by (first [congruence | right; lia]).
    exists c3, c4. split.
    { rewrite (run_cons_Ok (Access A wa) _ _ c1 E1).
      rewrite (run_cons_Ok (Access B wb) _ _ c2 E2).
      rewrite (run_cons_Ok (Access A wa') _ _ c3 E3). reflexivity. }
    split; [exact E4|].
    split; [apply (two_way_hit A c3 _ _ _ _ _ Q3); right; reflexivity|].
    split.
    { rewrite (two_way_evicted s c3 _ _ _ _ _ Hs Q3).
      apply decide_True. right. lia. }
    split.
    + apply (two_way_miss A c4 _ _ _ _ _ Q4); congruence.
    + rewrite <- HsC in Q4.
      apply (two_way_hit C c4 _ _ _ _ _ Q4); right; reflexivity.
Qed.

End TwoWays.

(** ** Further properties of a unit *)

Local Abbreviation do_call := (do_call WAYS L2SETS L2LINESZ (LL:=LL)).

Lemma findMatch_tagarray (addr : Z) (c c' : Cache LL) :
  tagarray c' = tagarray c -> findMatch addr c' = findMatch addr c.
Proof. intros E. unfold Qcache.findMatch. rewrite E. reflexivity. Qed.

(** X1.  An access that returns leaves the line of its address resident:
    the next access to any address of the same block hits.  ([L2LINESZ] is
    at least 1, so that the bit set by the installation lies in the state
    mask.) *)
Theorem hit_after_access (addr addr' : Z) (wr : bool) (c c' : Cache LL) :
  1 <= L2LINESZ -> wf c -> is_addr addr ->
  Cache_access addr wr c = Ok c' ->
  tag_of addr' = tag_of addr ->
  is_hit addr' c' = true.
Proof.
  intros HL1 Hwf Ha E Ht.
  assert (Hsame : findMatch addr' c' = findMatch addr c').
  { unfold Qcache.findMatch. rewrite Ht. reflexivity. }
  apply is_hit_true. rewrite Hsame.
  destruct (Cache_access_Ok_inv addr wr c c' E)
    as [_ [(idx & Em & ->) | (ll' & _ & _ & ->)]].
  - exists idx. rewrite <- Em. apply findMatch_tagarray. reflexivity.
  - pose proof (set_of_range (tag_of addr)) as Hs.
    pose proof (findVictim_range (set_of (tag_of addr)) c Hs) as Hv.
    set (v := findVictim (set_of (tag_of addr)) c) in *.
    pose proof (set_slots_in_range _ v Hs Hv) as Hvr.
    destruct Hwf as (Hlen & _).
    apply (findMatch_resident addr v).
    unfold Qcache.resident, Qcache.slot_valid, Qcache.slot_tag. simpl.
    rewrite rd_upd_eq by (rewrite Hlen; lia).
    split; [exact Hv|]. split.
    + pose proof (line_word_valid (tag_of addr) HL1) as Hnz.
      apply Z.eqb_neq in Hnz. rewrite Hnz. reflexivity.
    + apply line_word_tag; assumption.
Qed.

(** X2.  With [L2LINESZ = 0] the state mask [(1<<0)-1] is 0, so no slot
    ever tests as valid: no access hits, and every access that returns has
    counted a miss and called the lower level. *)
Theorem no_hit_without_state_bits (addr : Z) (wr : bool) (c : Cache LL) :
  L2LINESZ = 0 ->
  is_hit addr c = false /\
  forall c', Cache_access addr wr c = Ok c' ->
    misses c' = u64 (misses c + 1) /\
    access (u64 (tag_of addr ≪ L2LINESZ)) wr (lowerLevel c)
    = Ok (lowerLevel c').
Proof.
  intros E0.
  assert (Hnone : findMatch addr c = None).
  { destruct (findMatch addr c) as [idx|] eqn:E; [|reflexivity]. exfalso.
    destruct (findMatch_Some addr idx c E) as [(_ & Hv & _) _].
    rewrite (no_line_valid (tagarray c) idx E0) in Hv. discriminate. }
  split; [apply is_hit_false; exact Hnone|].
  intros c' E. rewrite (Cache_access_miss addr wr c Hnone) in E. split.
  - apply access_miss_counters in E as [E _]. exact E.
  - apply access_miss_lower in E. exact E.
Qed.

(** *** Counters *)

Lemma u64_add_l (a b : Z) : u64 (u64 a + b) = u64 (a + b).
Proof. unfold u64. apply Z.add_mod_idemp_l. lia. Qed.

Lemma n_access_nonneg (ks : list call) : 0 <= n_access ks.
Proof. induction ks as [|[a w|a] ks IH]; simpl; lia. Qed.

Lemma Cache_access_counters (addr : Z) (wr : bool) (c c' : Cache LL) :
  Cache_access addr wr c = Ok c' ->
  accesses c' = u64 (accesses c + 1) /\
  (misses c' = misses c \/ misses c' = u64 (misses c + 1)).
Proof.
  clear HW HS HL.
  intros E.
  destruct (Cache_access_Ok_inv addr wr c c' E)
    as [_ [(idx & _ & ->) | (ll' & _ & _ & ->)]]; simpl; tauto.
Qed.

Lemma run_counters (ks : list call) (c0 c : Cache LL) (a0 m0 : Z) :
  accesses c0 = u64 a0 -> misses c0 = u64 m0 ->
  run ks c0 = Ok c ->
  accesses c = u64 (a0 + n_access ks) /\
  exists m, 0 <= m <= n_access ks /\ misses c = u64 (m0 + m).
Proof.
  clear HW HS HL.
  revert c0 a0 m0. induction ks as [|k ks IH]; intros c0 a0 m0 Ha Hm E.
  - injection E as <-. simpl. rewrite Z.add_0_r. split; [exact Ha|].
    exists 0. rewrite Z.add_0_r. split; [lia|exact Hm].
  - simpl in E. destruct (do_call k c0) as [c1| |e] eqn:E1; try discriminate.
    simpl in E. destruct k as [a w|a]; simpl in E1.
    + destruct (Cache_access_counters a w c0 c1 E1) as [Ha1 Hm1].
      rewrite Ha, u64_add_l in Ha1.
      destruct Hm1 as [Hm1|Hm1].
      * rewrite Hm in Hm1.
        destruct (IH c1 (a0 + 1) m0 Ha1 Hm1 E) as [IHa (m & Hmr & IHm)].
        simpl. split; [rewrite IHa; f_equal; lia|].
        exists m. split; [lia|exact IHm].
      * rewrite Hm, u64_add_l in Hm1.
        destruct (IH c1 (a0 + 1) (m0 + 1) Ha1 Hm1 E) as [IHa (m & Hmr & IHm)].
        simpl. split; [rewrite IHa; f_equal; lia|].
        exists (1 + m). split; [lia|rewrite IHm; f_equal; lia].
    + injection E1 as <-. simpl.
      apply (IH _ a0 m0) in E; [exact E|exact Ha|exact Hm].
Qed.

(** X3.  On a newly constructed unit, [accesses] is the number of [access]
    calls made, modulo 2^64, whether they hit or missed; [invalidate] calls
    are not counted.  [misses] counts some of these calls, and as long as
    fewer than 2^64 accesses were made, [misses <= accesses]. *)
Theorem counters_count_accesses (ll : LL) (ks : list call) (c : Cache LL) :
  run ks (Cache_new WAYS L2SETS ll) = Ok c ->
  accesses c = u64 (n_access ks) /\
  (exists m, 0 <= m <= n_access ks /\ misses c = u64 m) /\
  (n_access ks < 2 ^ 64 ->
   accesses c = n_access ks /\ 0 <= misses c <= accesses c).
Proof.
  clear HW HS HL.
  intros E.
  destruct (run_counters ks (Cache_new WAYS L2SETS ll) c 0 0
              eq_refl eq_refl E) as [Ha (m & Hm & Hmc)].
  rewrite Z.add_0_l in Ha, Hmc.
  split; [exact Ha|]. split; [exists m; tauto|].
  intros Hn. pose proof (n_access_nonneg ks) as H0.
  rewrite Ha, Hmc, !u64_small by lia. lia.
Qed.

(** *** Sets do not interfere *)

(** A call changes tags and timestamps only in the slots of the set of its
    address, and only the counter of that set. *)
Lemma do_call_frame (k : call) (c c' : Cache LL) :
  wf c -> do_call k c = Ok c' ->
  let s := set_of (tag_of (call_addr k)) in
  (forall j, 0 <= j -> ~ set_lo s <= j < set_hi s ->
     rd (tagarray c') j = rd (tagarray c) j /\
     rd (tsarray c') j = rd (tsarray c) j) /\
  (forall s', 0 <= s' -> s' <> s -> rd (tsmax c') s' = rd (tsmax c) s').
Proof.
  intros Hwf E s. subst s. destruct k as [a w|a]; simpl in E; simpl.
  - pose proof (set_of_range (tag_of a)) as Hs.
    assert (Hlo : 0 <= set_lo (set_of (tag_of a)))
      by (rewrite set_lo_eq by exact Hs; nia).
    destruct (Cache_access_Ok_inv a w c c' E)
      as [_ [(idx & Em & ->) | (ll' & _ & _ & ->)]]; simpl.
    + destruct (findMatch_Some a idx c Em) as [(Hidx & _) _]. split.
      * intros j Hj Hout. split; [reflexivity|].
        apply rd_upd_ne; [lia|lia|]. intros ->. apply Hout. exact Hidx.
      * intros s' Hs' Hne. apply rd_upd_ne; [lia|lia|].
        intros Heq. apply Hne. symmetry. exact Heq.
    + pose proof (findVictim_range (set_of (tag_of a)) c Hs) as Hv. split.
      * intros j Hj Hout.
        split; (apply rd_upd_ne; [lia|lia|]; intros Heq; apply Hout;
                rewrite <- Heq; exact Hv).
      * intros s' Hs' Hne. apply rd_upd_ne; [lia|lia|].
        intros Heq. apply Hne. symmetry. exact Heq.
  - injection E as <-. simpl. split.
    + intros j Hj Hout. split; [|reflexivity].
      rewrite (Cache_invalidate_rd a c j Hwf Hj).
      destruct (decide _) as [[Hin _]|_]; [contradiction|reflexivity].
    + intros. reflexivity.
Qed.

(** X4.  A call on an address of one set leaves every other set as it was:
    the tags, timestamps and counter of the other set are unchanged, and any
    address of the other set hits after the call exactly if it hit before,
    in the same slot. *)
Theorem other_sets_untouched (k : call) (c c' : Cache LL) (Y : Z) :
  wf c -> do_call k c = Ok c' ->
  set_of (tag_of Y) <> set_of (tag_of (call_addr k)) ->
  let s := set_of (tag_of Y) in
  findMatch Y c' = findMatch Y c /\
  is_hit Y c' = is_hit Y c /\
  rd (tsmax c') s = rd (tsmax c) s /\
  forall j, set_lo s <= j < set_hi s ->
    rd (tagarray c') j = rd (tagarray c) j /\
    rd (tsarray c') j = rd (tsarray c) j.
Proof.
  intros Hwf E Hne s. subst s.
  pose proof (set_of_range (tag_of Y)) as HsY.
  pose proof (set_of_range (tag_of (call_addr k))) as Hsk.
  destruct (do_call_frame k c c' Hwf E) as [Hslots Hcnt].
  assert (Hset : forall j,
            set_lo (set_of (tag_of Y)) <= j < set_hi (set_of (tag_of Y)) ->
            rd (tagarray c') j = rd (tagarray c) j /\
            rd (tsarray c') j = rd (tsarray c) j).
  { intros j Hj. apply Hslots.
    - rewrite set_lo_eq in Hj by exact HsY. nia.
    - intros Hin. apply Hne.
      exact (set_slots_disjoint _ _ j HsY Hsk Hj Hin). }
  assert (Hfind : findMatch Y c' = findMatch Y c).
  { unfold Qcache.findMatch. apply access_loop_ext. intros j Hj.
    rewrite set_width in Hj by exact HsY.
    assert (Hin : set_lo (set_of (tag_of Y)) <= j < set_hi (set_of (tag_of Y)))
      by (rewrite set_hi_eq, set_lo_eq in * by exact HsY; lia).
    destruct (Hset j Hin) as [Ht _].
    unfold Qcache.slot_tag, Qcache.slot_valid. rewrite Ht. reflexivity. }
  split; [exact Hfind|]. split.
  - unfold Qcache.is_hit. rewrite Hfind. reflexivity.
  - split; [|exact Hset]. apply Hcnt; [lia|exact Hne].
Qed.

(** *** The counter of a set counts the accesses to the set *)

Local Abbreviation set_accesses := (set_accesses L2SETS L2LINESZ).

Lemma set_accesses_nonneg (s : Z) (ks : list call) : 0 <= set_accesses s ks.
Proof.
  induction ks as [|[a w|a] ks IH]; simpl; [lia| |exact IH].
  destruct (_ =? _); lia.
Qed.

Lemma Cache_access_tsmax (a : Z) (w : bool) (c c' : Cache LL) (s : Z) :
  wf c -> Cache_access a w c = Ok c' -> 0 <= s < 2 ^ L2SETS ->
  rd (tsmax c') s =
  rd (tsmax c) s + (if set_of (tag_of a) =? s then 1 else 0).
Proof.
  intros Hwf E Hs.
  pose proof (set_of_range (tag_of a)) as Hsa.
  destruct Hwf as (_ & _ & Hlen & Hrange).
  assert (Ht : forall c1 : Cache LL,
            rd (tsmax c) (set_of (tag_of a)) <> TIMESTAMP_MAX ->
            tsmax c1 = upd (tsmax c) (set_of (tag_of a))
                         (u32 (rd (tsmax c) (set_of (tag_of a)) + 1)) ->
            rd (tsmax c1) s =
            rd (tsmax c) s + (if set_of (tag_of a) =? s then 1 else 0)).
  { intros c1 Hmax ->. destruct (Z.eqb_spec (set_of (tag_of a)) s) as [<-|Hne].
    - rewrite rd_upd_eq by (rewrite Hlen; lia).
      specialize (Hrange (set_of (tag_of a))).
      apply u32_small. unfold TIMESTAMP_MAX in Hmax. lia.
    - rewrite rd_upd_ne by lia. lia. }
  destruct (Cache_access_Ok_inv a w c c' E)
    as [Hmax [(idx & _ & ->) | (ll' & _ & _ & ->)]];
    apply Ht; try exact Hmax; reflexivity.
Qed.

Lemma run_tsmax (ks : list call) (c0 c : Cache LL) (s : Z) :
  wf c0 -> run ks c0 = Ok c -> 0 <= s < 2 ^ L2SETS ->
  wf c /\ rd (tsmax c) s = rd (tsmax c0) s + set_accesses s ks.
Proof.
  revert c0. induction ks as [|k ks IH]; intros c0 Hwf E Hs.
  - injection E as <-. simpl. split; [exact Hwf|lia].
  - simpl in E. destruct (do_call k c0) as [c1| |e] eqn:E1; try discriminate.
    simpl in E. destruct k as [a w|a]; simpl in E1.
    + pose proof (wf_Cache_access a w c0 c1 Hwf E1) as Hwf1.
      destruct (IH c1 Hwf1 E Hs) as [Hwfc IHt]. split; [exact Hwfc|].
      rewrite IHt, (Cache_access_tsmax a w c0 c1 s Hwf E1 Hs). simpl. lia.
    + pose proof (wf_Cache_invalidate a c0 c1 Hwf E1) as Hwf1.
      destruct (IH c1 Hwf1 E Hs) as [Hwfc IHt]. split; [exact Hwfc|].
      rewrite IHt. injection E1 as <-. reflexivity.
Qed.

(** X5.  On a newly constructed unit the counter of a set equals the
    number of [access] calls made to addresses of that set, hits and misses
    alike.  A sequence of calls that returns therefore holds at most
    [TIMESTAMP_MAX] accesses to any one set: the access after that aborts. *)
Theorem tsmax_counts_set_accesses (ll : LL) (ks : list call) (c : Cache LL)
    (s : Z) :
  run ks (Cache_new WAYS L2SETS ll) = Ok c -> 0 <= s < 2 ^ L2SETS ->
  rd (tsmax c) s = set_accesses s ks /\
  set_accesses s ks <= TIMESTAMP_MAX.
Proof.
  intros E Hs.
  destruct (run_tsmax ks _ c s (wf_Cache_new ll) E Hs) as [Hwf Ht].
  assert (H0 : rd (tsmax (Cache_new WAYS L2SETS ll)) s = 0)
    by (unfold Cache_new, initArrays; simpl; apply rd_replicate).
  rewrite H0, Z.add_0_l in Ht. split; [exact Ht|].
  destruct Hwf as (_ & _ & _ & Hrange). specialize (Hrange s).
  rewrite Ht in Hrange. unfold TIMESTAMP_MAX. lia.
Qed.

(** *** Way 0 *)

Section AtLeastTwoWays.

Hypothesis HW2 : 2 <= WAYS.

Local Abbreviation way0_unused := (way0_unused WAYS L2SETS L2LINESZ (LL:=LL)).

Lemma way0_unused_Cache_new (ll : LL) : way0_unused (Cache_new WAYS L2SETS ll).
Proof.
  intros s Hs. unfold Cache_new, initArrays. simpl.
  rewrite !rd_replicate. split; [reflexivity|]. split; [reflexivity|].
  intros j _ Hv. rewrite slot_valid_zero in Hv by apply rd_replicate.
  discriminate.
Qed.

(** The victim is never way 0: either a later way is empty, or all later
    ways are valid and way 1 already carries a larger timestamp than the
    unstamped way 0. *)
Lemma findVictim_not_way0 (sa s : Z) (c : Cache LL) :
  way0_unused c -> 0 <= sa < 2 ^ L2SETS -> 0 <= s < 2 ^ L2SETS ->
  findVictim sa c <> set_lo s.
Proof.
  intros HJ Hsa Hs Heq.
  pose proof (findVictim_range sa c Hsa) as Hv.
  assert (s = sa).
  { apply (set_slots_disjoint s sa (set_lo s) Hs Hsa).
    - rewrite set_hi_eq, set_lo_eq by exact Hs. lia.
    - rewrite <- Heq. exact Hv. }
  subst s. destruct (HJ sa Hsa) as (_ & Hts0 & Hstamped).
  destruct (findVictim_spec sa c Hsa) as [(Hr & _) | (Hall & _ & Hmax & _)].
  - lia.
  - assert (Hin : set_lo sa < set_lo sa + 1 < set_hi sa)
      by (rewrite set_hi_eq, set_lo_eq by exact Hsa; lia).
    specialize (Hstamped _ Hin (Hall (set_lo sa + 1) ltac:(lia))).
    specialize (Hmax (set_lo sa + 1) ltac:(lia)).
    rewrite Heq, Hts0 in Hmax. lia.
Qed.

Lemma way0_unused_Cache_access (a : Z) (w : bool) (c c' : Cache LL) :
  wf c -> way0_unused c -> Cache_access a w c = Ok c' -> way0_unused c'.
Proof.
  intros Hwf HJ E s Hs.
  pose proof (set_of_range (tag_of a)) as Hsa.
  destruct (HJ s Hs) as (Hta0 & Hts0 & Hstamped).
  assert (Hlo : 0 <= set_lo s) by (rewrite set_lo_eq by exact Hs; nia).
  destruct (Cache_access_Ok_inv a w c c' E)
    as [Hmax [(idx & Em & ->) | (ll' & _ & _ & ->)]]; simpl.
  - destruct (findMatch_Some a idx c Em) as [(Hidx & Hvi & _) _].
    assert (Hne : idx <> set_lo s).
    { intros ->. rewrite slot_valid_zero in Hvi by exact Hta0. discriminate. }
    assert (H0 : 0 <= idx) by (rewrite set_lo_eq in Hidx by exact Hsa; nia).
    split; [exact Hta0|]. split; [rewrite rd_upd_ne by lia; exact Hts0|].
    intros j Hj Hv.
    destruct (rd_upd_cases (tsarray c) idx j
                (u32 (rd (tsmax c) (set_of (tag_of a)) + 1))) as [-> | ->].
    + destruct Hwf as (_ & _ & _ & Hrange).
      specialize (Hrange (set_of (tag_of a))).
      rewrite u32_small by (unfold TIMESTAMP_MAX in Hmax; lia). lia.
    + apply Hstamped; assumption.
  - pose proof (findVictim_not_way0 (set_of (tag_of a)) s c HJ Hsa Hs) as Hne.
    pose proof (findVictim_range (set_of (tag_of a)) c Hsa) as Hv.
    pose proof (set_slots_in_range _ _ Hsa Hv) as Hvr.
    set (v := findVictim (set_of (tag_of a)) c) in *.
    split; [rewrite rd_upd_ne by lia; exact Hta0|].
    split; [rewrite rd_upd_ne by lia; exact Hts0|].
    intros j Hj Hvj. destruct (decide (j = v)) as [->|Hjv].
    + destruct Hwf as (_ & Hlen & _ & Hrange).
      specialize (Hrange (set_of (tag_of a))).
      rewrite rd_upd_eq by (rewrite Hlen; lia).
      rewrite u32_small by (unfold TIMESTAMP_MAX in Hmax; lia). lia.
    + rewrite rd_upd_ne by lia. apply Hstamped; [exact Hj|].
      unfold Qcache.slot_valid in *. rewrite rd_upd_ne in Hvj by lia.
      exact Hvj.
Qed.

Lemma way0_unused_Cache_invalidate (a : Z) (c c' : Cache LL) :
  wf c -> way0_unused c -> Cache_invalidate a c = Ok c' -> way0_unused c'.
Proof.
  intros Hwf HJ E s Hs. injection E as <-. simpl.
  destruct (HJ s Hs) as (Hta0 & Hts0 & Hstamped).
  assert (Hlo : 0 <= set_lo s) by (rewrite set_lo_eq by exact Hs; nia).
  split.
  { rewrite (Cache_invalidate_rd a c _ Hwf Hlo).
    destruct (decide _); [reflexivity|exact Hta0]. }
  split; [exact Hts0|].
  intros j Hj Hv. apply Hstamped; [exact Hj|].
  pose proof (Cache_invalidate_rd a c j Hwf ltac:(lia)) as R. simpl in R.
  destruct (decide _) as [_|_].
  - rewrite (slot_valid_zero _ _ R) in Hv. discriminate.
  - unfold Qcache.slot_valid in *. rewrite R in Hv. exact Hv.
Qed.

Lemma run_way0_unused (ks : list call) (c0 c : Cache LL) :
  wf c0 -> way0_unused c0 -> run ks c0 = Ok c -> way0_unused c.
Proof.
  revert c0. induction ks as [|k ks IH]; intros c0 Hwf HJ E.
  - injection E as <-. exact HJ.
  - simpl in E. destruct (do_call k c0) as [c1| |e] eqn:E1; try discriminate.
    simpl in E. destruct k as [a w|a]; simpl in E1.
    + apply (IH c1); [| |exact E].
      * eapply wf_Cache_access; eassumption.
      * eapply way0_unused_Cache_access; eassumption.
    + apply (IH c1); [| |exact E].
      * eapply wf_Cache_invalidate; eassumption.
      * eapply way0_unused_Cache_invalidate; eassumption.
Qed.

(** X6.  In a unit with two or more ways, way 0 of a set is never filled:
    after any sequence of calls on a newly constructed unit, slot
    [set*WAYS] of every set still holds the word 0 and is not valid, so a
    set holds at most [WAYS - 1] lines. *)
Theorem way0_never_filled (ll : LL) (ks : list call) (c : Cache LL) (s : Z) :
  run ks (Cache_new WAYS L2SETS ll) = Ok c -> 0 <= s < 2 ^ L2SETS ->
  rd (tagarray c) (set_lo s) = 0 /\
  slot_valid (tagarray c) (set_lo s) = false /\
  Z.of_nat (length (resident_slots c s)) <= WAYS - 1.
Proof.
  intros E Hs.
  pose proof (run_way0_unused ks _ c (wf_Cache_new ll)
                (way0_unused_Cache_new ll) E s Hs) as (Hta0 & _).
  pose proof (slot_valid_zero (tagarray c) _ Hta0) as Hinv.
  split; [exact Hta0|]. split; [exact Hinv|].
  unfold Qcache.resident_slots.
  replace (set_hi s - set_lo s) with WAYS
    by (rewrite set_hi_eq, set_lo_eq by exact Hs; lia).
  rewrite seqZ_cons by lia. rewrite filter_cons_False by congruence.
  pose proof (length_filter (fun idx => slot_valid (tagarray c) idx = true)
                (seqZ (Z.succ (set_lo s)) (Z.pred WAYS))) as Hf.
  rewrite length_seqZ in Hf. lia.
Qed.

(** *** The victim in a full set *)

Local Abbreviation stamps_bounded := (stamps_bounded WAYS L2SETS (LL:=LL)).

Lemma stamps_bounded_Cache_new (ll : LL) :
  stamps_bounded (Cache_new WAYS L2SETS ll).
Proof.
  intros s Hs. unfold Cache_new, initArrays. simpl. split.
  - intros j _. rewrite !rd_replicate. lia.
  - left. apply rd_replicate.
Qed.

Lemma stamps_bounded_do_call (k : call) (c c' : Cache LL) :
  wf c -> stamps_bounded c -> do_call k c = Ok c' -> stamps_bounded c'.
Proof.
  intros Hwf HM E. destruct k as [a w|a]; simpl in E.
  - pose proof (set_of_range (tag_of a)) as Hsa.
    destruct Hwf as (_ & Hlen & Hlenm & Hrange).
    assert (Hstep : forall (i : Z) (c1 : Cache LL),
              set_lo (set_of (tag_of a)) <= i < set_hi (set_of (tag_of a)) ->
              rd (tsmax c) (set_of (tag_of a)) <> TIMESTAMP_MAX ->
              tsarray c1 = upd (tsarray c) i
                             (u32 (rd (tsmax c) (set_of (tag_of a)) + 1)) ->
              tsmax c1 = upd (tsmax c) (set_of (tag_of a))
                           (u32 (rd (tsmax c) (set_of (tag_of a)) + 1)) ->
              stamps_bounded c1).
    { intros i c1 Hi Hmax Ets Etm s Hs. rewrite Ets, Etm.
      pose proof (set_slots_in_range _ i Hsa Hi) as Hir.
      pose proof (Hrange (set_of (tag_of a))) as Hr.
      rewrite u32_small by (unfold TIMESTAMP_MAX in Hmax; lia).
      destruct (HM s Hs) as [Hle Hex].
      destruct (decide (s = set_of (tag_of a))) as [->|Hne].
      - rewrite rd_upd_eq by (rewrite Hlenm; lia). split.
        + intros j Hj. destruct (decide (j = i)) as [->|Hji].
          * rewrite rd_upd_eq by (rewrite Hlen; lia). lia.
          * pose proof (set_slots_in_range _ j Hsa Hj).
            rewrite rd_upd_ne by lia. specialize (Hle j Hj). lia.
        + right. exists i. split; [exact Hi|]. split.
          * apply rd_upd_eq. rewrite Hlen. lia.
          * intros j' Hj' Hne. pose proof (set_slots_in_range _ j' Hsa Hj').
            rewrite rd_upd_ne by lia. specialize (Hle j' Hj'). lia.
      - rewrite (rd_upd_ne (tsmax c)) by lia.
        assert (Hout : forall j, set_lo s <= j < set_hi s -> j <> i).
        { intros j Hj ->. apply Hne.
          exact (set_slots_disjoint _ _ i Hs Hsa Hj Hi). }
        assert (Hlo : 0 <= set_lo s) by (rewrite set_lo_eq by exact Hs; nia).
        split.
        + intros j Hj. rewrite rd_upd_ne by (specialize (Hout j Hj); lia).
          apply Hle. exact Hj.
        + destruct Hex as [H0|(j & Hj & Ej & Hothers)]; [left; exact H0|].
          right. exists j. split; [exact Hj|]. split.
          * rewrite rd_upd_ne by (specialize (Hout j Hj); lia). exact Ej.
          * intros j' Hj' Hne'.
            rewrite rd_upd_ne by (specialize (Hout j' Hj'); lia).
            apply Hothers; assumption. }
    destruct (Cache_access_Ok_inv a w c c' E)
      as [Hmax [(idx & Em & ->) | (ll' & _ & _ & ->)]].
    + destruct (findMatch_Some a idx c Em) as [(Hidx & _) _].
      apply (Hstep idx); [exact Hidx|exact Hmax|reflexivity|reflexivity].
    + apply (Hstep (findVictim (set_of (tag_of a)) c));
        [apply findVictim_range; exact Hsa|exact Hmax|reflexivity|reflexivity].
  - injection E as <-. exact HM.
Qed.

Lemma run_stamps (ks : list call) (c0 c : Cache LL) :
  wf c0 -> way0_unused c0 -> stamps_bounded c0 -> run ks c0 = Ok c ->
  way0_unused c /\ stamps_bounded c.
Proof.
  revert c0. induction ks as [|k ks IH]; intros c0 Hwf HJ HM E.
  - injection E as <-. split; assumption.
  - simpl in E. destruct (do_call k c0) as [c1| |e] eqn:E1; try discriminate.
    simpl in E. apply (IH c1); [| | |exact E].
    + destruct k as [a w|a]; simpl in E1.
      * eapply wf_Cache_access; eassumption.
      * eapply wf_Cache_invalidate; eassumption.
    + destruct k as [a w|a]; simpl in E1.
      * eapply way0_unused_Cache_access; eassumption.
      * eapply way0_unused_Cache_invalidate; eassumption.
    + eapply stamps_bounded_do_call; eassumption.
Qed.

(** X19.  The victim in a full set is the line accessed last.  In a unit
    with two or more ways reached from construction, if all slots of a set
    from way 1 on are valid, [findVictim] returns a valid slot whose
    timestamp equals the counter of the set, that is the slot stamped by the
    last access to the set: a miss replaces the most recently used line. *)
Theorem victim_is_most_recent (ll : LL) (ks : list call) (c : Cache LL)
    (s : Z) :
  run ks (Cache_new WAYS L2SETS ll) = Ok c -> 0 <= s < 2 ^ L2SETS ->
  (forall j, set_lo s < j < set_hi s -> slot_valid (tagarray c) j = true) ->
  set_lo s < findVictim s c < set_hi s /\
  slot_valid (tagarray c) (findVictim s c) = true /\
  rd (tsarray c) (findVictim s c) = rd (tsmax c) s /\
  forall j, set_lo s <= j < set_hi s -> j <> findVictim s c ->
    rd (tsarray c) j < rd (tsarray c) (findVictim s c).
Proof.
  intros E Hs Hfull.
  destruct (run_stamps ks _ c (wf_Cache_new ll) (way0_unused_Cache_new ll)
              (stamps_bounded_Cache_new ll) E) as [HJ HM].
  pose proof (findVictim_range s c Hs) as Hr.
  pose proof (findVictim_not_way0 s s c HJ Hs Hs) as Hne0.
  assert (Hin : set_lo s < findVictim s c < set_hi s) by lia.
  destruct (HJ s Hs) as (_ & Hts0 & Hstamped).
  destruct (HM s Hs) as [Hle Hex].
  destruct (findVictim_spec s c Hs)
    as [(_ & Hinv & _) | (_ & _ & Hmax & Hfirst)].
  { rewrite (Hfull _ Hin) in Hinv. discriminate. }
  assert (Hone : set_lo s < set_lo s + 1 < set_hi s)
    by (rewrite set_hi_eq, set_lo_eq by exact Hs; lia).
  pose proof (Hstamped _ Hone (Hfull _ Hone)) as H1.
  pose proof (Hle (set_lo s + 1) ltac:(lia)) as H2.
  destruct Hex as [H0|(j0 & Hj0 & Ej0 & Hothers)]; [lia|].
  assert (Hr0 : findVictim s c = j0).
  { destruct (Z.eq_dec (findVictim s c) j0) as [Heq|Hne]; [exact Heq|].
    pose proof (Hothers _ Hr Hne). pose proof (Hmax j0 Hj0). lia. }
  split; [exact Hin|]. split; [exact (Hfull _ Hin)|].
  rewrite Hr0. split; [exact Ej0|].
  intros j Hj Hne. rewrite Ej0. apply Hothers; assumption.
Qed.

End AtLeastTwoWays.

(** *** [invalidate] on lines that are not there *)

Lemma list_eq_rd (a b : list Z) :
  length a = length b -> (forall j, 0 <= j -> rd a j = rd b j) -> a = b.
Proof.
  intros Hlen Hrd. apply list_eq. intros i.
  specialize (Hrd (Z.of_nat i) ltac:(lia)). unfold rd in Hrd.
  rewrite Nat2Z.id in Hrd.
  destruct (a !! i) as [x|] eqn:Ea; destruct (b !! i) as [y|] eqn:Eb;
    simpl in Hrd.
  - congruence.
  - apply lookup_lt_Some in Ea. apply lookup_ge_None in Eb. lia.
  - apply lookup_ge_None in Ea. apply lookup_lt_Some in Eb. lia.
  - reflexivity.
Qed.

(** X7.  [invalidate] is idempotent: a second [invalidate] of the same
    address changes nothing. *)
Theorem invalidate_idempotent (X : Z) (c c1 : Cache LL) :
  wf c -> Cache_invalidate X c = Ok c1 -> Cache_invalidate X c1 = Ok c1.
Proof.
  intros Hwf E.
  pose proof (wf_Cache_invalidate X c c1 Hwf E) as Hwf1.
  injection E as <-. unfold Qcache.Cache_invalidate at 1. simpl.
  f_equal. f_equal. apply list_eq_rd.
  - rewrite !invalidate_loop_length. reflexivity.
  - intros j Hj.
    pose proof (Cache_invalidate_rd X _ j Hwf1 Hj) as R1. simpl in R1.
    pose proof (Cache_invalidate_rd X c j Hwf Hj) as R0. simpl in R0.
    rewrite R1. destruct (decide _) as [[Hin Ht]|_]; [|reflexivity].
    destruct (decide (set_lo (set_of (tag_of X)) <= j
                        < set_hi (set_of (tag_of X)) /\
                      slot_tag (tagarray c) j = tag_of X)) as [Hy|Hn].
    + symmetry. exact R0.
    + exfalso. apply Hn.
      split; [exact Hin|]. unfold Qcache.slot_tag in Ht |- *.
      rewrite <- R0. exact Ht.
Qed.

Section StateBits.

Hypothesis HL1 : 1 <= L2LINESZ.

Local Abbreviation zero_or_valid := (zero_or_valid L2LINESZ (LL:=LL)).

Lemma zero_or_valid_Cache_new (ll : LL) :
  zero_or_valid (Cache_new WAYS L2SETS ll).
Proof.
  intros j _. left. unfold Cache_new, initArrays. simpl. apply rd_replicate.
Qed.

Lemma zero_or_valid_do_call (k : call) (c c' : Cache LL) :
  wf c -> zero_or_valid c -> do_call k c = Ok c' -> zero_or_valid c'.
Proof.
  intros Hwf HZ E j Hj. destruct k as [a w|a]; simpl in E.
  - destruct (Cache_access_Ok_inv a w c c' E)
      as [_ [(idx & _ & ->) | (ll' & _ & _ & ->)]]; simpl.
    + apply HZ. exact Hj.
    + unfold Qcache.slot_valid.
      destruct (rd_upd_cases (tagarray c)
                  (findVictim (set_of (tag_of a)) c) j
                  (line_word (tag_of a))) as [-> | ->].
      * right. pose proof (line_word_valid (tag_of a) HL1) as Hnz.
        apply Z.eqb_neq in Hnz. rewrite Hnz. reflexivity.
      * apply HZ. exact Hj.
  - injection E as <-. simpl.
    pose proof (Cache_invalidate_rd a c j Hwf Hj) as R. simpl in R.
    destruct (decide _) as [_|_]; [left; exact R|].
    unfold Qcache.slot_valid. rewrite R. apply HZ. exact Hj.
Qed.

Lemma run_zero_or_valid (ks : list call) (c0 c : Cache LL) :
  wf c0 -> zero_or_valid c0 -> run ks c0 = Ok c -> wf c /\ zero_or_valid c.
Proof.
  revert c0. induction ks as [|k ks IH]; intros c0 Hwf HZ E.
  - injection E as <-. split; assumption.
  - simpl in E. destruct (do_call k c0) as [c1| |e] eqn:E1; try discriminate.
    simpl in E. apply (IH c1); [| |exact E].
    + destruct k as [a w|a]; simpl in E1.
      * eapply wf_Cache_access; eassumption.
      * eapply wf_Cache_invalidate; eassumption.
    + eapply zero_or_valid_do_call; eassumption.
Qed.

(** X8.  In a unit reached from construction, [invalidate] of an address
    that would miss changes nothing at all: the call returns the unit as it
    was. *)
Theorem invalidate_absent_unchanged (ll : LL) (ks : list call)
    (c : Cache LL) (X : Z) :
  run ks (Cache_new WAYS L2SETS ll) = Ok c ->
  is_hit X c = false ->
  Cache_invalidate X c = Ok c.
Proof.
  intros E Hmiss.
  destruct (run_zero_or_valid ks _ c (wf_Cache_new ll)
              (zero_or_valid_Cache_new ll) E) as [Hwf HZ].
  apply is_hit_false in Hmiss.
  assert (Hta : invalidate_loop L2LINESZ (tag_of X)
                  (Z.to_nat (set_hi (set_of (tag_of X))
                             - set_lo (set_of (tag_of X))))
                  (set_lo (set_of (tag_of X))) (tagarray c) = tagarray c).
  { apply list_eq_rd; [apply invalidate_loop_length|].
    intros j Hj. pose proof (Cache_invalidate_rd X c j Hwf Hj) as R.
    simpl in R. rewrite R. destruct (decide _) as [[Hin Ht]|_]; [|reflexivity].
    destruct (HZ j Hj) as [H0|Hv]; [symmetry; exact H0|].
    exfalso. apply (findMatch_None X c Hmiss j).
    split; [exact Hin|]. split; [exact Hv|exact Ht]. }
  unfold Qcache.Cache_invalidate. rewrite Hta. destruct c. reflexivity.
Qed.

End StateBits.

(** *** The report of the destructor *)

(** X9.  The destructor reports exactly if the unit served an access:
    after a sequence of calls with fewer than 2^64 accesses on a newly
    constructed unit, [~Cache()] inserts nothing into [std::cout] when the
    sequence holds no [access] call (any number of [invalidate] calls
    notwithstanding), and otherwise inserts, in this order, the name, the
    id, the number of [access] calls made and the miss count, separated by
    [", "] and ended by a newline.  The text of the numbers follows the
    format flags the stream has at that moment. *)
Theorem dtor_reports_accesses (name : string) (id : Z) (ll : LL)
    (ks : list call) (c : Cache LL) (cout : list insertion) :
  run ks (Cache_new WAYS L2SETS ll) = Ok c ->
  n_access ks < 2 ^ 64 ->
  Cache_dtor name id c cout =
  if n_access ks =? 0 then cout
  else cout ++ [ins_str name; ins_str ", "; ins_int id; ins_str ", ";
                ins_u64 (n_access ks); ins_str ", "; ins_u64 (misses c);
                ins_char "010"%char].
Proof.
  clear HW HS HL.
  intros E Hn.
  destruct (run_counters ks (Cache_new WAYS L2SETS ll) c 0 0
              eq_refl eq_refl E) as [Ha _].
  pose proof (n_access_nonneg ks) as H0.
  rewrite Z.add_0_l, u64_small in Ha by lia.
  unfold Cache_dtor. rewrite Ha. reflexivity.
Qed.

(** *** The traffic below a unit *)

Lemma run_traffic (ks : list call) (c0 c : Cache LL) (m0 : Z) :
  Forall (fun k => is_addr (call_addr k)) ks ->
  misses c0 = u64 m0 ->
  run ks c0 = Ok c ->
  exists ms : list (Z * bool),
    sublist (map (fun p => Access p.1 p.2) ms) ks /\
    feed (map (fun p => (p.1 - p.1 mod 2 ^ L2LINESZ, p.2)) ms) (lowerLevel c0)
    = Ok (lowerLevel c) /\
    misses c = u64 (m0 + Z.of_nat (length ms)).
Proof.
  clear HW HS.
  revert c0 m0. induction ks as [|k ks IH]; intros c0 m0 Hks Hm E.
  - injection E as <-. exists []. simpl. rewrite Z.add_0_r.
    split; [constructor|]. split; [reflexivity|exact Hm].
  - apply Forall_cons in Hks as [Hk Hks]. simpl in E.
    destruct (do_call k c0) as [c1| |e] eqn:E1; try discriminate.
    simpl in E. destruct k as [a w|a]; simpl in E1, Hk.
    + destruct (Cache_access_Ok_inv a w c0 c1 E1)
        as [_ [(idx & _ & Hc1) | (ll' & _ & Hll & Hc1)]].
      * assert (Hm1 : misses c1 = u64 m0) by (rewrite Hc1; exact Hm).
        destruct (IH c1 m0 Hks Hm1 E) as (ms & Hsub & Hfeed & Hmis).
        exists ms. split; [apply sublist_cons; exact Hsub|].
        split; [|exact Hmis]. rewrite Hc1 in Hfeed. exact Hfeed.
      * assert (Hm1 : misses c1 = u64 (m0 + 1))
          by (rewrite Hc1; simpl; rewrite Hm; apply u64_add_l).
        destruct (IH c1 (m0 + 1) Hks Hm1 E) as (ms & Hsub & Hfeed & Hmis).
        exists ((a, w) :: ms). split; [apply sublist_skip; exact Hsub|].
        split.
        -- simpl. rewrite <- (block_address a Hk), Hll. simpl.
           rewrite Hc1 in Hfeed. exact Hfeed.
        -- rewrite Hmis. f_equal. simpl length. lia.
    + destruct (IH c1 m0 Hks) as (ms & Hsub & Hfeed & Hmis);
        [injection E1 as <-; exact Hm|exact E|].
      exists ms. split; [apply sublist_cons; exact Hsub|].
      split; [|exact Hmis]. injection E1 as <-. exact Hfeed.
Qed.

(** X10.  What the lower level receives.  Over a sequence of calls on a
    newly constructed unit, the lower level is called once for each miss and
    never otherwise: its final state is the result of the calls
    [access(a - a mod 2^L2LINESZ, w)] for a subsequence [(a, w)] of the
    [access] calls made, in the order they were made and with their write
    flags, and [misses] is the length of that subsequence (modulo 2^64).
    [invalidate] calls are never passed down. *)
Theorem lower_level_traffic (ll : LL) (ks : list call) (c : Cache LL) :
  Forall (fun k => is_addr (call_addr k)) ks ->
  run ks (Cache_new WAYS L2SETS ll) = Ok c ->
  exists ms : list (Z * bool),
    sublist (map (fun p => Access p.1 p.2) ms) ks /\
    feed (map (fun p => (p.1 - p.1 mod 2 ^ L2LINESZ, p.2)) ms) ll
    = Ok (lowerLevel c) /\
    misses c = u64 (Z.of_nat (length ms)).
Proof.
  clear HW HS.
  intros Hks E.
  destruct (run_traffic ks (Cache_new WAYS L2SETS ll) c 0 Hks eq_refl E)
    as (ms & Hsub & Hfeed & Hmis).
  exists ms. split; [exact Hsub|]. split; [exact Hfeed|].
  rewrite Z.add_0_l in Hmis. exact Hmis.
Qed.

End Geometry.

(** * The devices of the header *)

Lemma Tracer_returns : dev_returns Tracer.
Proof. intros a w t. eexists. reflexivity. Qed.

Lemma CallLog_returns : dev_returns CallLog.
Proof. intros a w l. eexists. reflexivity. Qed.

(** C9.  [Tracer::access] returns and has appended one record to the
    trace: the address in decimal, then [" W"] for a write or [" R"] for a
    read, then the end of the line.  [Tracer::invalidate] throws
    [InvalidAccess] for every address and every state of the trace; it never
    returns. *)
Theorem Tracer_contract (addr : Z) (wr : bool) (t : Tracer) :
  access addr wr t =
  Ok {| tracefile := tracefile t +:+
                     (pretty addr +:+ (if wr then " W" else " R") +:+ "
") |} /\
  invalidate addr t = Thrown InvalidAccess /\
  (forall t', invalidate addr t <> Ok t').
Proof.
  split; [|split].
  - reflexivity.
  - reflexivity.
  - intros t'. simpl. unfold Tracer_invalidate. discriminate.
Qed.

(** The records of a write to address 64 and of a read of the largest
    address, appended to a trace that holds one record. *)
Example Tracer_records :
  access 64 true {| tracefile := "0 R
" |} = Ok {| tracefile := "0 R
64 W
" |} /\
  access (2 ^ 64 - 1) false {| tracefile := "0 R
" |} = Ok {| tracefile := "0 R
18446744073709551615 R
" |}.
Proof. split; vm_compute; reflexivity. Qed.

(** * Scenarios *)

(** C3.  One way, one set, 64-byte lines, over any lower level that
    returns.  On the newly constructed unit, [access(0,false)] misses, the
    second [access(0,false)] hits, [access(64,false)] misses and
    [access(0,false)] misses again; every call returns, [misses] goes
    1, 1, 2, 3, and the unit ends with [accesses = 4] and [misses = 3]. *)
Theorem end_to_end_scenario {LL : Type} `{MemSysDev LL} (ll : LL) :
  dev_returns LL ->
  exists c1 c2 c3 c4 : Cache LL,
    is_hit 1 0 6 0 (Cache_new 1 0 ll) = false /\
    Cache_access 1 0 6 0 false (Cache_new 1 0 ll) = Ok c1 /\
    is_hit 1 0 6 0 c1 = true /\
    Cache_access 1 0 6 0 false c1 = Ok c2 /\
    is_hit 1 0 6 64 c2 = false /\
    Cache_access 1 0 6 64 false c2 = Ok c3 /\
    is_hit 1 0 6 0 c3 = false /\
    Cache_access 1 0 6 0 false c3 = Ok c4 /\
    [misses c1; misses c2; misses c3; misses c4] = [1; 1; 2; 3] /\
    accesses c4 = 4 /\ misses c4 = 3.
Proof.
  intros Hdev.
  destruct (Hdev 0 false ll) as [l1 E1].
  destruct (Hdev 64 false l1) as [l3 E3].
  destruct (Hdev 0 false l3) as [l4 E4].
  exists (mkCache l1 [1] [1] [1] 1 1), (mkCache l1 [1] [2] [2] 2 1),
         (mkCache l3 [65] [3] [3] 3 2), (mkCache l4 [1] [4] [4] 4 3).
  split; [reflexivity|]. split.
  { rewrite Cache_access_miss by reflexivity.
    rewrite (access_miss_Ok 1 0 6 0 false
               (count_access (Cache_new 1 0 ll)) l1 E1) by (vm_compute; discriminate).
    reflexivity. }
  split; [reflexivity|]. split; [reflexivity|].
  split; [reflexivity|]. split.
  { rewrite Cache_access_miss by reflexivity.
    rewrite (access_miss_Ok 1 0 6 64 false
               (count_access (mkCache l1 [1] [2] [2] 2 1)) l3 E3) by (vm_compute; discriminate).
    reflexivity. }
  split; [reflexivity|]. split.
  { rewrite Cache_access_miss by reflexivity.
    rewrite (access_miss_Ok 1 0 6 0 false
               (count_access (mkCache l3 [65] [3] [3] 3 2)) l4 E4) by (vm_compute; discriminate).
    reflexivity. }
  repeat split.
Qed.

(** C2, on the code.  [findVictim] does not test the valid bit of way 0.
    On a newly constructed two-way unit both slots are empty, the first
    empty slot is slot 0, and [findVictim] returns slot 1.  After
    [access(0,false)] slot 0 is still empty and slot 1 is valid, and
    [findVictim] returns slot 1 again, so the next miss overwrites a valid
    line although the set has an empty slot. *)
Theorem findVictim_skips_way0 :
  first_invalid 2 6 0 unit_2_0_6 = Some 0 /\
  findVictim 2 6 0 unit_2_0_6 = 1 /\
  exists c1,
    Cache_access 2 0 6 0 false unit_2_0_6 = Ok c1 /\
    first_invalid 2 6 0 c1 = Some 0 /\
    slot_valid 6 (tagarray c1) 1 = true /\
    findVictim 2 6 0 c1 = 1.
Proof.
  split; [reflexivity|]. split; [reflexivity|].
  eexists. split; [reflexivity|]. repeat split.
Qed.

(** C1, as stated, fails.  Two ways, one set, 64-byte lines; [A = 0],
    [B = 64], [C = 128].  After the accesses [A], [B], [A], the slot that the
    access to [C] overwrites holds the line of [A], not the line of [B], and
    after the access to [C] the address [A] misses. *)
Lemma lru_abac_counterexample :
  exists c3 c4,
    run 2 0 6 [Access 0 false; Access 64 false; Access 0 false] unit_2_0_6
    = Ok c3 /\
    Cache_access 2 0 6 128 false c3 = Ok c4 /\
    evicted_tag 2 6 0 c3 = Some (tag_of 6 0) /\
    evicted_tag 2 6 0 c3 <> Some (tag_of 6 64) /\
    is_hit 2 0 6 0 c4 = false.
Proof.
  eexists. eexists. split; [reflexivity|]. split; [reflexivity|].
  split; [reflexivity|]. split; [|reflexivity].
  vm_compute. discriminate.
Qed.

(** * The theorems at concrete units *)

Lemma wf_intro {LL : Type} (WAYS L2SETS : Z) (c : Cache LL) :
  length (tagarray c) = Z.to_nat (WAYS * 2 ^ L2SETS) ->
  length (tsarray c) = Z.to_nat (WAYS * 2 ^ L2SETS) ->
  length (tsmax c) = Z.to_nat (2 ^ L2SETS) ->
  Forall (fun t => 0 <= t < 2 ^ 32) (tsmax c) ->
  wf WAYS L2SETS c.
Proof.
  intros H1 H2 H3 H4. repeat split; try assumption.
  - unfold rd. destruct (tsmax c !! Z.to_nat s) as [x|] eqn:E; simpl; [|lia].
    rewrite Forall_lookup in H4. apply (H4 _ _ E).
  - unfold rd. destruct (tsmax c !! Z.to_nat s) as [x|] eqn:E; simpl; [|lia].
    rewrite Forall_lookup in H4. apply (H4 _ _ E).
Defined.

Lemma end_to_end_scenario_witness :
  dev_returns Tracer /\
  exists c1 c2 c3 c4 : Cache Tracer,
    is_hit 1 0 6 0 unit_1_0_6 = false /\
    Cache_access 1 0 6 0 false unit_1_0_6 = Ok c1 /\
    is_hit 1 0 6 0 c1 = true /\
    Cache_access 1 0 6 0 false c1 = Ok c2 /\
    is_hit 1 0 6 64 c2 = false /\
    Cache_access 1 0 6 64 false c2 = Ok c3 /\
    is_hit 1 0 6 0 c3 = false /\
    Cache_access 1 0 6 0 false c3 = Ok c4 /\
    [misses c1; misses c2; misses c3; misses c4] = [1; 1; 2; 3] /\
    accesses c4 = 4 /\ misses c4 = 3.
Proof.
  split; [exact Tracer_returns|].
  exact (end_to_end_scenario trace0 Tracer_returns).
Defined.

Lemma abac_victim_witness :
  (1 <= 2 < 2 ^ 31 /\ 0 <= 0 < 31 /\ 0 <= 6 < 31 /\ 1 <= 6) /\
  dev_returns CallLog /\
  run 2 0 6 [Access 0 false; Invalidate 0] logged_2_0_6
  = Ok logged_2_0_6_emptied /\
  wf 2 0 logged_2_0_6_emptied /\
  (is_addr 0 /\ is_addr 64 /\ is_addr 128) /\
  (set_of 0 (tag_of 6 64) = set_of 0 (tag_of 6 0) /\
   set_of 0 (tag_of 6 128) = set_of 0 (tag_of 6 0)) /\
  (tag_of 6 0 <> tag_of 6 64 /\ tag_of 6 0 <> tag_of 6 128 /\
   tag_of 6 64 <> tag_of 6 128) /\
  set_empty 2 6 (set_of 0 (tag_of 6 0)) logged_2_0_6_emptied /\
  rd (tsmax logged_2_0_6_emptied) (set_of 0 (tag_of 6 0)) + 4
  <= TIMESTAMP_MAX /\
  exists c3 c4,
    run 2 0 6 [Access 0 false; Access 64 false; Access 0 true]
      logged_2_0_6_emptied = Ok c3 /\
    Cache_access 2 0 6 128 false c3 = Ok c4 /\
    is_hit 2 0 6 0 c3 = true /\
    evicted_tag 2 6 (set_of 0 (tag_of 6 0)) c3 = Some (tag_of 6 0) /\
    is_hit 2 0 6 0 c4 = false /\
    is_hit 2 0 6 128 c4 = true.
Proof.
  assert (G : 1 <= 2 < 2 ^ 31 /\ 0 <= 0 < 31 /\ 0 <= 6 < 31 /\ 1 <= 6) by lia.
  assert (R : run 2 0 6 [Access 0 false; Invalidate 0] logged_2_0_6
              = Ok logged_2_0_6_emptied) by (vm_compute; reflexivity).
  assert (W : wf 2 0 logged_2_0_6_emptied).
  { apply wf_intro; try reflexivity. repeat constructor; lia. }
  assert (A : is_addr 0 /\ is_addr 64 /\ is_addr 128)
    by (unfold is_addr; lia).
  assert (T : tag_of 6 0 <> tag_of 6 64 /\ tag_of 6 0 <> tag_of 6 128 /\
              tag_of 6 64 <> tag_of 6 128)
    by (vm_compute; repeat split; discriminate).
  assert (E : set_empty 2 6 (set_of 0 (tag_of 6 0)) logged_2_0_6_emptied).
  { intros idx Hidx.
    assert (Hlo : set_lo 2 (set_of 0 (tag_of 6 0)) = 0)
      by (vm_compute; reflexivity).
    assert (Hhi : set_hi 2 (set_of 0 (tag_of 6 0)) = 2)
      by (vm_compute; reflexivity).
    assert (Hc : idx = 0 \/ idx = 1) by lia.
    destruct Hc as [-> | ->]; vm_compute; reflexivity. }
  assert (K : rd (tsmax logged_2_0_6_emptied) (set_of 0 (tag_of 6 0)) + 4
              <= TIMESTAMP_MAX) by (vm_compute; discriminate).
  split; [exact G|]. split; [exact CallLog_returns|]. split; [exact R|].
  split; [exact W|]. split; [exact A|].
  split; [split; reflexivity|]. split; [exact T|]. split; [exact E|].
  split; [exact K|].
  destruct G as (G1 & G2 & G3 & G4). destruct A as (A1 & A2 & A3).
  destruct T as (T1 & T2 & T3).
  exact (abac_victim 2 0 6 G1 G2 G3 eq_refl G4 CallLog_returns
           logged_2_0_6_emptied 0 64 128 false false true false
           W A1 A2 A3 eq_refl eq_refl T1 T2 T3 E K).
Defined.

Lemma access_hit_frame_witness :
  (1 <= 1 < 2 ^ 31 /\ 0 <= 0 < 31 /\ 0 <= 6 < 31) /\
  findMatch 1 0 6 0 unit_1_0_6_hot = Some 0 /\
  (exists c',
     Cache_access 1 0 6 0 true unit_1_0_6_hot = Ok c' /\
     tagarray c' = [1] /\ misses c' = 1 /\
     lowerLevel c' = lowerLevel unit_1_0_6_hot /\
     accesses c' = 2 /\ tsarray c' = [2] /\ tsmax c' = [2]) /\
  Cache_access 1 0 6 0 true unit_1_0_6_full = Aborted.
Proof.
  assert (G : 1 <= 1 < 2 ^ 31 /\ 0 <= 0 < 31 /\ 0 <= 6 < 31) by lia.
  split; [exact G|]. split; [reflexivity|].
  destruct G as (G1 & G2 & G3). split.
  - pose proof (access_hit_frame 1 0 6 G1 G2 G3 0 true unit_1_0_6_hot 0
                  eq_refl) as W.
    cbv zeta in W.
    destruct (decide (rd (tsmax unit_1_0_6_hot) (set_of 0 (tag_of 6 0))
                      = TIMESTAMP_MAX)) as [Hmax|_].
    + vm_compute in Hmax. discriminate.
    + destruct W as (c' & E & Ht & Hm & Hl & Ha & Hts & Htm & _).
      exists c'. split; [exact E|]. rewrite Ht, Hm, Hl, Ha, Hts, Htm.
      repeat split.
  - pose proof (access_hit_frame 1 0 6 G1 G2 G3 0 true unit_1_0_6_full 0
                  eq_refl) as W.
    cbv zeta in W.
    destruct (decide (rd (tsmax unit_1_0_6_full) (set_of 0 (tag_of 6 0))
                      = TIMESTAMP_MAX)) as [_|Hmax].
    + exact W.
    + exfalso. apply Hmax. reflexivity.
Defined.

Lemma miss_propagation_witness :
  0 <= 6 < 31 /\ is_addr 100 /\
  is_hit 2 0 6 100 logged_2_0_6 = false /\
  exists c',
    Cache_access 2 0 6 100 true logged_2_0_6 = Ok c' /\
    lowerLevel c' = [(64, true)].
Proof.
  assert (G : 0 <= 6 < 31) by lia.
  assert (A : is_addr 100) by (unfold is_addr; lia).
  split; [exact G|]. split; [exact A|]. split; [reflexivity|].
  destruct (miss_propagation 2 0 6 G 100 true logged_2_0_6 A)
    as (Hmiss & _).
  destruct (Hmiss eq_refl) as [_ Hret].
  specialize (Hret [(64, true)] eq_refl).
  destruct (decide (rd (tsmax logged_2_0_6) (set_of 0 (tag_of 6 100))
                    = TIMESTAMP_MAX)) as [Hmax|_].
  - vm_compute in Hmax. discriminate.
  - exact Hret.
Defined.

Lemma access_bumps_tsmax_witness :
  0 <= 0 < 31 /\ wf 1 0 unit_1_0_6 /\ wf 1 0 unit_1_0_6_full /\
  (exists ll', access (u64 (tag_of 6 0 ≪ 6)) false (lowerLevel unit_1_0_6)
               = Ok ll') /\
  rd (tsmax unit_1_0_6) (set_of 0 (tag_of 6 0)) < TIMESTAMP_MAX /\
  (exists c', Cache_access 1 0 6 0 false unit_1_0_6 = Ok c' /\
              rd (tsmax c') (set_of 0 (tag_of 6 0)) = 0 + 1) /\
  rd (tsmax unit_1_0_6_full) (set_of 0 (tag_of 6 0)) = TIMESTAMP_MAX /\
  Cache_access 1 0 6 0 false unit_1_0_6_full = Aborted.
Proof.
  assert (G : 0 <= 0 < 31) by lia.
  assert (W1 : wf 1 0 unit_1_0_6).
  { apply wf_intro; try reflexivity. repeat constructor; lia. }
  assert (W2 : wf 1 0 unit_1_0_6_full).
  { apply wf_intro; try reflexivity.
    repeat constructor; unfold TIMESTAMP_MAX; lia. }
  assert (L : exists ll', access (u64 (tag_of 6 0 ≪ 6)) false
                            (lowerLevel unit_1_0_6) = Ok ll')
    by apply Tracer_returns.
  split; [exact G|]. split; [exact W1|]. split; [exact W2|].
  split; [exact L|]. split; [vm_compute; reflexivity|]. split.
  - destruct (access_bumps_tsmax 1 0 6 G 0 false unit_1_0_6 W1 (fun _ => L))
      as [Hlt _].
    apply Hlt. vm_compute. reflexivity.
  - split; [reflexivity|].
    destruct (access_bumps_tsmax 1 0 6 G 0 false unit_1_0_6_full W2)
      as [_ Hmax].
    + intros Hm. vm_compute in Hm. discriminate.
    + apply Hmax. reflexivity.
Defined.

Lemma wr_noninterference_witness :
  is_hit 1 0 6 0 unit_1_0_6_hot = true /\
  Cache_access 1 0 6 0 true unit_1_0_6_hot
  = Cache_access 1 0 6 0 false unit_1_0_6_hot /\
  omap own (Cache_access 1 0 6 64 true unit_1_0_6_hot)
  = omap own (Cache_access 1 0 6 64 false unit_1_0_6_hot).
Proof.
  destruct (wr_noninterference 1 0 6 0 unit_1_0_6_hot) as (Hh & _).
  destruct (wr_noninterference 1 0 6 64 unit_1_0_6_hot) as (_ & _ & Hm & _).
  split; [reflexivity|]. split; [exact (Hh eq_refl)|].
  eapply Hm; reflexivity.
Defined.

Lemma invalidate_contract_witness :
  (1 <= 3 < 2 ^ 31 /\ 0 <= 1 < 31 /\ 0 <= 6 < 31) /\
  run 3 1 6 [Access 0 false; Access 128 false] unit_3_1_6
  = Ok unit_3_1_6_two_lines /\
  wf 3 1 unit_3_1_6_two_lines /\
  is_hit 3 1 6 0 unit_3_1_6_two_lines = true /\
  is_hit 3 1 6 128 unit_3_1_6_two_lines = true /\
  exists c',
    Cache_invalidate 3 1 6 0 unit_3_1_6_two_lines = Ok c' /\
    tagarray c' = [0; 0; 129; 0; 0; 0] /\
    lowerLevel c' = lowerLevel unit_3_1_6_two_lines /\
    accesses c' = 2 /\ misses c' = 2 /\
    is_hit 3 1 6 0 c' = false /\
    is_hit 3 1 6 128 c' = true.
Proof.
  assert (G : 1 <= 3 < 2 ^ 31 /\ 0 <= 1 < 31 /\ 0 <= 6 < 31) by lia.
  assert (W : wf 3 1 unit_3_1_6_two_lines).
  { apply wf_intro; try reflexivity. repeat constructor; lia. }
  split; [exact G|]. split; [reflexivity|]. split; [exact W|].
  split; [reflexivity|]. split; [reflexivity|].
  destruct G as (G1 & G2 & G3).
  destruct (invalidate_contract 3 1 6 G1 G2 G3 0 unit_3_1_6_two_lines W)
    as (c' & E & _ & _ & _ & Hl & Ha & Hm & Hx & _ & Hy).
  exists c'. split; [exact E|].
  split; [injection E as <-; reflexivity|].
  split; [exact Hl|]. split; [exact Ha|]. split; [exact Hm|].
  split; [exact Hx|].
  apply (Hy 128); [vm_compute; discriminate|reflexivity].
Defined.

Lemma residency_invariant_witness :
  (1 <= 3 < 2 ^ 31 /\ 0 <= 1 < 31 /\ 0 <= 6 < 31) /\
  Forall (fun k => is_addr (call_addr k))
    [Access 0 false; Access 128 true; Access 64 false; Invalidate 0;
     Access 256 false; Access 128 false; Access 0 true] /\
  exists c,
    run 3 1 6
      [Access 0 false; Access 128 true; Access 64 false; Invalidate 0;
       Access 256 false; Access 128 false; Access 0 true] unit_3_1_6 = Ok c /\
    forall s, 0 <= s < 2 ^ 1 ->
      no_dup_in_set 3 6 c s /\ Z.of_nat (length (resident_slots 3 6 c s)) <= 3.
Proof.
  assert (G : 1 <= 3 < 2 ^ 31 /\ 0 <= 1 < 31 /\ 0 <= 6 < 31) by lia.
  assert (A : Forall (fun k => is_addr (call_addr k))
                [Access 0 false; Access 128 true; Access 64 false;
                 Invalidate 0; Access 256 false; Access 128 false;
                 Access 0 true])
    by (repeat constructor; unfold is_addr; simpl; lia).
  split; [exact G|]. split; [exact A|].
  destruct G as (G1 & G2 & G3).
  eexists. split; [vm_compute; reflexivity|].
  apply (residency_invariant 3 1 6 G1 G2 G3 trace0 _ _ A). reflexivity.
Defined.

(** * Hierarchies *)

Section TwoLevels.

(** A unit [Cache<_, W1, S1, L1>] whose lower level is a unit
    [Cache<_, W2, S2, L2>] over some device. *)
Variables W1 S1 L1 W2 S2 L2 : Z.
Context {LL : Type} `{MemSysDev LL}.

Local Abbreviation lower_unit := (Cache_dev W2 S2 L2 (LL:=LL)).
Local Abbreviation run2 := (@run W1 S1 L1 (Cache LL) lower_unit).

Lemma lower_unit_counters (a : Z) (w : bool) (l l' : Cache LL) :
  @access (Cache LL) lower_unit a w l = Ok l' ->
  accesses l' = u64 (accesses l + 1) /\
  (misses l' = misses l \/ misses l' = u64 (misses l + 1)).
Proof. apply Cache_access_counters. Qed.

Lemma run_two_levels (ks : list call) (c0 c : Cache (Cache LL)) (n0 : Z) :
  (exists m m2, 0 <= m2 <= m /\ m <= n0 /\
     accesses c0 = u64 n0 /\ misses c0 = u64 m /\
     accesses (lowerLevel c0) = u64 m /\ misses (lowerLevel c0) = u64 m2) ->
  run2 ks c0 = Ok c ->
  exists m m2, 0 <= m2 <= m /\ m <= n0 + n_access ks /\
     accesses c = u64 (n0 + n_access ks) /\ misses c = u64 m /\
     accesses (lowerLevel c) = u64 m /\ misses (lowerLevel c) = u64 m2.
Proof.
  revert c0 n0. induction ks as [|k ks IH]; intros c0 n0 HP E.
  - injection E as <-. simpl. rewrite Z.add_0_r. exact HP.
  - simpl in E.
    destruct (@do_call W1 S1 L1 (Cache LL) lower_unit k c0)
      as [c1| |e] eqn:E1; try discriminate.
    simpl in E. destruct HP as (m & m2 & Hm2 & Hm & Ha & Hmi & Hla & Hlm).
    destruct k as [a w|a]; simpl in E1.
    + replace (n0 + n_access (Access a w :: ks))
        with ((n0 + 1) + n_access ks) by (simpl; lia).
      apply (IH c1 (n0 + 1)); [|exact E].
      destruct (Cache_access_Ok_inv W1 S1 L1 a w c0 c1 E1)
        as [_ [(idx & _ & ->) | (l' & _ & Hll & ->)]]; simpl.
      * exists m, m2. rewrite Ha, u64_add_l.
        repeat split; try assumption; try lia.
      * destruct (lower_unit_counters _ _ _ _ Hll) as [Hla' Hlm'].
        rewrite Hla, u64_add_l in Hla'. rewrite Ha, Hmi, !u64_add_l.
        destruct Hlm' as [Hlm'|Hlm'].
        -- exists (m + 1), m2. rewrite Hlm', Hlm.
           repeat split; try assumption; try lia.
        -- exists (m + 1), (m2 + 1). rewrite Hlm', Hlm, u64_add_l.
           repeat split; try assumption; try lia.
    + apply (IH c1 n0); [|exact E]. injection E1 as <-. simpl.
      exists m, m2. repeat split; try assumption; lia.
Qed.

(** X11.  Two units in series.  After any sequence of calls on a newly
    constructed unit over a newly constructed unit, the lower unit has
    served exactly as many accesses as the upper unit has counted misses
    (the two counters are equal, also when they wrap), and with fewer than
    2^64 accesses made the counters are ordered: misses of the lower unit
    [<=] its accesses [=] misses of the upper unit [<=] its accesses. *)
Theorem two_level_counters (ll : LL) (ks : list call) (c : Cache (Cache LL)) :
  run2 ks (Cache_new W1 S1 (Cache_new W2 S2 ll)) = Ok c ->
  accesses (lowerLevel c) = misses c /\
  (n_access ks < 2 ^ 64 ->
   0 <= misses (lowerLevel c) <= accesses (lowerLevel c) /\
   misses c <= accesses c /\ accesses c = n_access ks).
Proof.
  intros E.
  assert (H0 : exists m m2, 0 <= m2 <= m /\ m <= 0 /\
            accesses (Cache_new W1 S1 (Cache_new W2 S2 ll)) = u64 0 /\
            misses (Cache_new W1 S1 (Cache_new W2 S2 ll)) = u64 m /\
            accesses (lowerLevel (Cache_new W1 S1 (Cache_new W2 S2 ll)))
            = u64 m /\
            misses (lowerLevel (Cache_new W1 S1 (Cache_new W2 S2 ll)))
            = u64 m2).
  { exists 0, 0. simpl. repeat split; reflexivity || lia. }
  destruct (run_two_levels ks _ c 0 H0 E)
    as (m & m2 & Hm2 & Hm & Ha & Hmi & Hla & Hlm).
  rewrite Z.add_0_l in Hm, Ha.
  split; [rewrite Hla, Hmi; reflexivity|].
  intros Hn. rewrite Hla, Hlm, Hmi, Ha, !u64_small by lia. lia.
Qed.

End TwoLevels.

(** * The further properties at concrete units *)

Lemma hit_after_access_witness :
  (1 <= 1 < 2 ^ 31 /\ 0 <= 0 < 31 /\ 0 <= 6 < 31 /\ 1 <= 6) /\
  wf 1 0 unit_1_0_6 /\ is_addr 0 /\
  tag_of 6 63 = tag_of 6 0 /\
  exists c',
    Cache_access 1 0 6 0 false unit_1_0_6 = Ok c' /\
    is_hit 1 0 6 63 c' = true.
Proof.
  assert (G : 1 <= 1 < 2 ^ 31 /\ 0 <= 0 < 31 /\ 0 <= 6 < 31 /\ 1 <= 6) by lia.
  assert (W : wf 1 0 unit_1_0_6).
  { apply wf_intro; try reflexivity. repeat constructor; lia. }
  assert (A : is_addr 0) by (unfold is_addr; lia).
  split; [exact G|]. split; [exact W|]. split; [exact A|].
  split; [reflexivity|].
  destruct G as (G1 & G2 & G3 & G4).
  eexists. split; [vm_compute; reflexivity|].
  eapply (hit_after_access 1 0 6 G1 G2 G3 0 63 false unit_1_0_6 _ G4 W A);
    vm_compute; reflexivity.
Defined.

Lemma no_hit_without_state_bits_witness :
  (1 <= 1 < 2 ^ 31 /\ 0 <= 0 < 31 /\ 0 <= 0 < 31) /\
  exists c1 c2 : Cache Tracer,
    Cache_access 1 0 0 5 false (Cache_new 1 0 trace0) = Ok c1 /\
    is_hit 1 0 0 5 c1 = false /\
    Cache_access 1 0 0 5 false c1 = Ok c2 /\
    misses c2 = u64 (misses c1 + 1).
Proof.
  assert (G : 1 <= 1 < 2 ^ 31 /\ 0 <= 0 < 31 /\ 0 <= 0 < 31) by lia.
  split; [exact G|]. destruct G as (G1 & G2 & G3).
  eexists. eexists. split; [vm_compute; reflexivity|].
  match goal with
  | |- is_hit 1 0 0 5 ?c1 = false /\ _ =>
      pose proof (no_hit_without_state_bits 1 0 0 G1 G2 G3 5 false c1
                    eq_refl) as [Hmiss Hcount]
  end.
  split; [exact Hmiss|]. split; [vm_compute; reflexivity|].
  apply Hcount. vm_compute. reflexivity.
Defined.

Lemma counters_count_accesses_witness :
  n_access [Access 0 false; Invalidate 0; Access 0 true; Access 64 false;
            Access 0 false] < 2 ^ 64 /\
  exists c,
    run 3 1 6 [Access 0 false; Invalidate 0; Access 0 true; Access 64 false;
               Access 0 false] unit_3_1_6 = Ok c /\
    accesses c = 4 /\ 0 <= misses c <= accesses c.
Proof.
  split; [vm_compute; reflexivity|].
  eexists. split; [vm_compute; reflexivity|].
  match goal with
  | |- accesses ?c = _ /\ _ =>
      assert (E : run 3 1 6
                    [Access 0 false; Invalidate 0; Access 0 true;
                     Access 64 false; Access 0 false] unit_3_1_6 = Ok c)
        by (vm_compute; reflexivity)
  end.
  assert (Hn : n_access [Access 0 false; Invalidate 0; Access 0 true;
                         Access 64 false; Access 0 false] < 2 ^ 64)
    by (vm_compute; reflexivity).
  pose proof (counters_count_accesses 3 1 6 trace0 _ _ E) as W.
  destruct W as (_ & _ & Hlt). destruct (Hlt Hn) as [Ha Hm].
  split; [exact Ha|exact Hm].
Defined.

Lemma other_sets_untouched_witness :
  (1 <= 3 < 2 ^ 31 /\ 0 <= 1 < 31 /\ 0 <= 6 < 31) /\
  wf 3 1 unit_3_1_6_two_lines /\
  set_of 1 (tag_of 6 128) <> set_of 1 (tag_of 6 64) /\
  exists c',
    Cache_access 3 1 6 64 false unit_3_1_6_two_lines = Ok c' /\
    is_hit 3 1 6 128 c' = is_hit 3 1 6 128 unit_3_1_6_two_lines /\
    rd (tsmax c') 0 = 2.
Proof.
  assert (G : 1 <= 3 < 2 ^ 31 /\ 0 <= 1 < 31 /\ 0 <= 6 < 31) by lia.
  assert (W : wf 3 1 unit_3_1_6_two_lines).
  { apply wf_intro; try reflexivity. repeat constructor; lia. }
  assert (N : set_of 1 (tag_of 6 128) <> set_of 1 (tag_of 6 64))
    by (vm_compute; discriminate).
  split; [exact G|]. split; [exact W|]. split; [exact N|].
  destruct G as (G1 & G2 & G3).
  eexists. split; [vm_compute; reflexivity|].
  match goal with
  | |- is_hit 3 1 6 128 ?c' = _ /\ _ =>
      assert (E : do_call 3 1 6 (Access 64 false) unit_3_1_6_two_lines
                  = Ok c') by (vm_compute; reflexivity)
  end.
  pose proof (other_sets_untouched 3 1 6 G1 G2 G3 _ _ _ 128 W E N) as Wt.
  destruct Wt as (_ & Hh & Ht & _).
  split; [exact Hh|exact Ht].
Defined.

Lemma tsmax_counts_set_accesses_witness :
  (1 <= 3 < 2 ^ 31 /\ 0 <= 1 < 31 /\ 0 <= 6 < 31) /\ 0 <= 0 < 2 ^ 1 /\
  exists c,
    run 3 1 6 [Access 0 false; Invalidate 0; Access 0 true; Access 64 false;
               Access 130 false] unit_3_1_6 = Ok c /\
    rd (tsmax c) 0 = 3.
Proof.
  assert (G : 1 <= 3 < 2 ^ 31 /\ 0 <= 1 < 31 /\ 0 <= 6 < 31) by lia.
  split; [exact G|]. split; [lia|]. destruct G as (G1 & G2 & G3).
  eexists. split; [vm_compute; reflexivity|].
  match goal with
  | |- rd (tsmax ?c) 0 = _ =>
      assert (E : run 3 1 6
                    [Access 0 false; Invalidate 0; Access 0 true;
                     Access 64 false; Access 130 false] unit_3_1_6 = Ok c)
        by (vm_compute; reflexivity)
  end.
  assert (R : 0 <= 0 < 2 ^ 1) by lia.
  pose proof (tsmax_counts_set_accesses 3 1 6 G1 G2 G3 trace0 _ _ 0 E R) as W.
  destruct W as [Ht _]. exact Ht.
Defined.

Lemma way0_never_filled_witness :
  (1 <= 3 < 2 ^ 31 /\ 0 <= 1 < 31 /\ 0 <= 6 < 31 /\ 2 <= 3) /\
  0 <= 0 < 2 ^ 1 /\
  exists c,
    run 3 1 6 [Access 0 false; Access 128 false; Access 256 false;
               Access 384 true; Invalidate 128; Access 512 false]
      unit_3_1_6 = Ok c /\
    rd (tagarray c) (set_lo 3 0) = 0 /\
    slot_valid 6 (tagarray c) (set_lo 3 0) = false /\
    Z.of_nat (length (resident_slots 3 6 c 0)) <= 3 - 1.
Proof.
  assert (G : 1 <= 3 < 2 ^ 31 /\ 0 <= 1 < 31 /\ 0 <= 6 < 31 /\ 2 <= 3) by lia.
  split; [exact G|]. split; [lia|]. destruct G as (G1 & G2 & G3 & G4).
  eexists. split; [vm_compute; reflexivity|].
  apply (way0_never_filled 3 1 6 G1 G2 G3 G4 trace0
           [Access 0 false; Access 128 false; Access 256 false;
            Access 384 true; Invalidate 128; Access 512 false]);
    [vm_compute; reflexivity|lia].
Defined.

Lemma victim_is_most_recent_witness :
  (1 <= 3 < 2 ^ 31 /\ 0 <= 1 < 31 /\ 0 <= 6 < 31 /\ 2 <= 3) /\
  0 <= 0 < 2 ^ 1 /\
  exists c,
    run 3 1 6 [Access 0 false; Access 128 false; Access 0 false]
      (Cache_new 3 1 ([] : CallLog)) = Ok c /\
    (forall j, set_lo 3 0 < j < set_hi 3 0 ->
       slot_valid 6 (tagarray c) j = true) /\
    set_lo 3 0 < findVictim 3 6 0 c < set_hi 3 0 /\
    slot_valid 6 (tagarray c) (findVictim 3 6 0 c) = true /\
    rd (tsarray c) (findVictim 3 6 0 c) = rd (tsmax c) 0 /\
    forall j, set_lo 3 0 <= j < set_hi 3 0 -> j <> findVictim 3 6 0 c ->
      rd (tsarray c) j < rd (tsarray c) (findVictim 3 6 0 c).
Proof.
  assert (G : 1 <= 3 < 2 ^ 31 /\ 0 <= 1 < 31 /\ 0 <= 6 < 31 /\ 2 <= 3) by lia.
  split; [exact G|]. split; [lia|]. destruct G as (G1 & G2 & G3 & G4).
  set (c := {| lowerLevel := [(0, false); (128, false)] : CallLog;
               tagarray := [0; 1; 129; 0; 0; 0];
               tsarray := [0; 3; 2; 0; 0; 0];
               tsmax := [3; 0];
               accesses := 3;
               misses := 2 |}).
  assert (E : run 3 1 6 [Access 0 false; Access 128 false; Access 0 false]
                (Cache_new 3 1 ([] : CallLog)) = Ok c)
    by (vm_compute; reflexivity).
  assert (F : forall j, set_lo 3 0 < j < set_hi 3 0 ->
                slot_valid 6 (tagarray c) j = true).
  { intros j Hj.
    assert (Hlo : set_lo 3 0 = 0) by (vm_compute; reflexivity).
    assert (Hhi : set_hi 3 0 = 3) by (vm_compute; reflexivity).
    assert (Hc : j = 1 \/ j = 2) by lia.
    destruct Hc as [-> | ->]; vm_compute; reflexivity. }
  exists c. split; [exact E|]. split; [exact F|].
  exact (victim_is_most_recent 3 1 6 G1 G2 G3 G4 [] _ c 0 E ltac:(lia) F).
Defined.

Lemma invalidate_idempotent_witness :
  (1 <= 3 < 2 ^ 31 /\ 0 <= 1 < 31 /\ 0 <= 6 < 31) /\
  wf 3 1 unit_3_1_6_two_lines /\
  exists c1,
    Cache_invalidate 3 1 6 128 unit_3_1_6_two_lines = Ok c1 /\
    Cache_invalidate 3 1 6 128 c1 = Ok c1.
Proof.
  assert (G : 1 <= 3 < 2 ^ 31 /\ 0 <= 1 < 31 /\ 0 <= 6 < 31) by lia.
  assert (W : wf 3 1 unit_3_1_6_two_lines).
  { apply wf_intro; try reflexivity. repeat constructor; lia. }
  split; [exact G|]. split; [exact W|]. destruct G as (G1 & G2 & G3).
  eexists. split; [vm_compute; reflexivity|].
  apply (invalidate_idempotent 3 1 6 G1 G2 G3 128 unit_3_1_6_two_lines _ W).
  vm_compute. reflexivity.
Defined.

Lemma invalidate_absent_unchanged_witness :
  (1 <= 3 < 2 ^ 31 /\ 0 <= 1 < 31 /\ 0 <= 6 < 31 /\ 1 <= 6) /\
  run 3 1 6 [Access 0 false; Access 128 false] unit_3_1_6
  = Ok unit_3_1_6_two_lines /\
  is_hit 3 1 6 256 unit_3_1_6_two_lines = false /\
  Cache_invalidate 3 1 6 256 unit_3_1_6_two_lines = Ok unit_3_1_6_two_lines.
Proof.
  assert (G : 1 <= 3 < 2 ^ 31 /\ 0 <= 1 < 31 /\ 0 <= 6 < 31 /\ 1 <= 6) by lia.
  split; [exact G|]. split; [vm_compute; reflexivity|].
  split; [vm_compute; reflexivity|].
  destruct G as (G1 & G2 & G3 & G4).
  apply (invalidate_absent_unchanged 3 1 6 G1 G2 G3 G4 trace0
           [Access 0 false; Access 128 false]);
    vm_compute; reflexivity.
Defined.

Lemma dtor_reports_accesses_witness :
  n_access [Invalidate 0; Invalidate 64] < 2 ^ 64 /\
  n_access [Access 0 false; Invalidate 0; Access 0 false; Access 0 true]
  < 2 ^ 64 /\
  (exists c,
     run 3 1 6 [Invalidate 0; Invalidate 64] unit_3_1_6 = Ok c /\
     Cache_dtor "L1" 0 c [] = []) /\
  (exists c,
     run 3 1 6 [Access 0 false; Invalidate 0; Access 0 false; Access 0 true]
       unit_3_1_6 = Ok c /\
     Cache_dtor "L1" 0 c [] =
     [ins_str "L1"; ins_str ", "; ins_int 0; ins_str ", "; ins_u64 3;
      ins_str ", "; ins_u64 2; ins_char "010"%char]).
Proof.
  assert (N1 : n_access [Invalidate 0; Invalidate 64] < 2 ^ 64)
    by (vm_compute; reflexivity).
  assert (N2 : n_access [Access 0 false; Invalidate 0; Access 0 false;
                         Access 0 true] < 2 ^ 64)
    by (vm_compute; reflexivity).
  split; [exact N1|]. split; [exact N2|]. split.
  - eexists. split; [vm_compute; reflexivity|].
    match goal with
    | |- Cache_dtor _ _ ?c _ = _ =>
        assert (E : run 3 1 6 [Invalidate 0; Invalidate 64] unit_3_1_6 = Ok c)
          by (vm_compute; reflexivity)
    end.
    rewrite (dtor_reports_accesses 3 1 6 "L1" 0 trace0 _ _ [] E N1).
    vm_compute. reflexivity.
  - eexists. split; [vm_compute; reflexivity|].
    match goal with
    | |- Cache_dtor _ _ ?c _ = _ =>
        assert (E : run 3 1 6 [Access 0 false; Invalidate 0; Access 0 false;
                               Access 0 true] unit_3_1_6 = Ok c)
          by (vm_compute; reflexivity)
    end.
    rewrite (dtor_reports_accesses 3 1 6 "L1" 0 trace0 _ _ [] E N2).
    vm_compute. reflexivity.
Defined.

Lemma lower_level_traffic_witness :
  0 <= 6 < 31 /\
  Forall (fun k => is_addr (call_addr k))
    [Access 100 true; Access 70 false; Invalidate 64; Access 200 false] /\
  exists c : Cache CallLog,
    run 2 0 6 [Access 100 true; Access 70 false; Invalidate 64;
               Access 200 false] logged_2_0_6 = Ok c /\
    lowerLevel c = [(64, true); (192, false)] /\
    exists ms : list (Z * bool),
      sublist (map (fun p => Access p.1 p.2) ms)
        [Access 100 true; Access 70 false; Invalidate 64; Access 200 false] /\
      feed (map (fun p => (p.1 - p.1 mod 2 ^ 6, p.2)) ms) []
      = Ok (lowerLevel c) /\
      misses c = u64 (Z.of_nat (length ms)).
Proof.
  assert (G : 0 <= 6 < 31) by lia.
  assert (A : Forall (fun k => is_addr (call_addr k))
                [Access 100 true; Access 70 false; Invalidate 64;
                 Access 200 false])
    by (repeat constructor; unfold is_addr; simpl; lia).
  split; [exact G|]. split; [exact A|].
  eexists. split; [vm_compute; reflexivity|].
  split; [vm_compute; reflexivity|].
  apply (lower_level_traffic 2 0 6 G [] _ _ A). vm_compute. reflexivity.
Defined.

Lemma two_level_counters_witness :
  n_access [Access 0 false; Access 64 false; Access 0 false; Access 4096 true;
            Access 0 false] < 2 ^ 64 /\
  exists c : Cache (Cache Tracer),
    @run 1 0 6 (Cache Tracer) (Cache_dev 2 4 6)
      [Access 0 false; Access 64 false; Access 0 false; Access 4096 true;
       Access 0 false]
      (Cache_new 1 0 (Cache_new 2 4 trace0)) = Ok c /\
    accesses (lowerLevel c) = misses c /\
    misses c = 5 /\ misses (lowerLevel c) = 4.
Proof.
  split; [vm_compute; reflexivity|].
  eexists. split; [vm_compute; reflexivity|].
  split; [|split; vm_compute; reflexivity].
  apply (two_level_counters 1 0 6 2 4 6 trace0
           [Access 0 false; Access 64 false; Access 0 false;
            Access 4096 true; Access 0 false]).
  vm_compute. reflexivity.
Defined.

(** * The hit counter of the driver *)

Lemma seg_length (a : list Z) (s : Z) (n : nat) :
  length (Driver.seg a s n) = n.
Proof.
  revert s. induction n as [|n IH]; intros s; simpl; [reflexivity|].
  rewrite IH. reflexivity.
Qed.

Lemma seg_ext (a a' : list Z) (s : Z) (n : nat) :
  (forall j, s <= j < s + Z.of_nat n -> rd a' j = rd a j) ->
  Driver.seg a' s n = Driver.seg a s n.
Proof.
  revert s. induction n as [|n IH]; intros s Hext; simpl; [reflexivity|].
  rewrite Hext by lia. rewrite IH; [reflexivity|].
  intros j Hj. apply Hext. lia.
Qed.

Lemma shift_in_length (x pc : Z) (l : list Z) :
  length (fst (Driver.shift_in x pc l)) = length l.
Proof.
  revert pc. induction l as [|y l IH]; intros pc; simpl; [reflexivity|].
  destruct (y =? x); simpl; [reflexivity|].
  specialize (IH y). destruct (Driver.shift_in x y l) as [l'' h].
  simpl in *. rewrite IH. reflexivity.
Qed.

(** The loop of [insert] acts on the rows it visits as [shift_in] acts on
    the list of these rows, and leaves the rest of the array alone. *)
Lemma insert_loop_seg (n : nat) (r base x pc : Z) (a : list Z) :
  0 <= base + r -> base + r + Z.of_nat n <= Z.of_nat (length a) ->
  snd (Driver.insert_loop n r base x pc a)
  = snd (Driver.shift_in x pc (Driver.seg a (base + r) n)) /\
  Driver.seg (fst (Driver.insert_loop n r base x pc a)) (base + r) n
  = fst (Driver.shift_in x pc (Driver.seg a (base + r) n)) /\
  length (fst (Driver.insert_loop n r base x pc a)) = length a /\
  forall j, 0 <= j -> ~ base + r <= j < base + r + Z.of_nat n ->
    rd (fst (Driver.insert_loop n r base x pc a)) j = rd a j.
Proof.
  revert r pc a. induction n as [|n IH]; intros r pc a H0 Hlen; simpl.
  - repeat split; reflexivity.
  - destruct (rd a (base + r) =? x) eqn:E; simpl.
    + split; [reflexivity|]. split.
      * rewrite rd_upd_eq by lia. f_equal.
        apply seg_ext. intros j Hj. apply rd_upd_ne; lia.
      * split; [apply length_upd|].
        intros j Hj Hout. apply rd_upd_ne; lia.
    + specialize (IH (r + 1) (rd a (base + r))
                    (upd a (base + r) pc)).
      rewrite length_upd in IH.
      destruct IH as (Hh & Hseg & Hl & Hframe); [lia|lia|].
      replace (base + (r + 1)) with (base + r + 1) in * by lia.
      assert (Es : Driver.seg (upd a (base + r) pc) (base + r + 1) n
                   = Driver.seg a (base + r + 1) n).
      { apply seg_ext. intros j Hj. apply rd_upd_ne; lia. }
      rewrite Es in Hh, Hseg.
      destruct (Driver.shift_in x (rd a (base + r))
                  (Driver.seg a (base + r + 1) n)) as [l'' h] eqn:Esh.
      simpl in *. split; [exact Hh|]. split.
      * rewrite Hframe by lia. rewrite rd_upd_eq by lia.
        rewrite Hseg. reflexivity.
      * split; [exact Hl|].
        intros j Hj Hout. rewrite Hframe by lia. apply rd_upd_ne; lia.
Qed.

(** [shift_in] when the line is in the column: it moves to the front and
    the lines that were before it move one row down. *)
Lemma shift_in_hit (x pc : Z) (l : list Z) :
  x ∈ l ->
  exists l1 l2, l = l1 ++ x :: l2 /\ (x ∉ l1) /\
                Driver.shift_in x pc l = (pc :: l1 ++ l2, true).
Proof.
  revert pc. induction l as [|y l IH]; intros pc Hin.
  - apply elem_of_nil in Hin. contradiction.
  - simpl. destruct (Z.eqb_spec y x) as [->|Hne].
    + exists [], l. split; [reflexivity|]. split; [apply not_elem_of_nil|].
      reflexivity.
    + apply elem_of_cons in Hin as [Heq|Hin]; [congruence|].
      destruct (IH y Hin) as (l1 & l2 & -> & Hnot & Esh).
      rewrite Esh. exists (y :: l1), l2. split; [reflexivity|]. split.
      * intros Hx. apply elem_of_cons in Hx as [Heq|Hx];
          [congruence|contradiction].
      * reflexivity.
Qed.

(** [shift_in] when the line is not in the column: every line moves one
    row down and the last one is dropped. *)
Lemma shift_in_miss (x pc : Z) (l : list Z) :
  x ∉ l -> Driver.shift_in x pc l = (take (length l) (pc :: l), false).
Proof.
  revert pc. induction l as [|y l IH]; intros pc Hnot; simpl; [reflexivity|].
  destruct (Z.eqb_spec y x) as [->|Hne].
  - exfalso. apply Hnot. apply elem_of_cons. left. reflexivity.
  - rewrite (IH y).
    + reflexivity.
    + intros Hx. apply Hnot. apply elem_of_cons. right. exact Hx.
Qed.

Lemma seg_map (a : list Z) (s : Z) (n : nat) :
  map (fun r => rd a (s + r)) (seqZ 0 (Z.of_nat n)) = Driver.seg a s n.
Proof.
  revert s. induction n as [|n IH]; intros s; [reflexivity|].
  rewrite seqZ_cons by lia. simpl. rewrite Z.add_0_r. f_equal.
  rewrite <- IH.
  replace (Z.pred (Z.of_nat (S n))) with (Z.of_nat n) by lia.
  replace (Z.succ 0) with (1 + 0) by lia.
  rewrite <- fmap_add_seqZ. rewrite <- list_fmap_compose.
  apply list_fmap_ext. intros i r _. simpl. f_equal. lia.
Qed.

Lemma column_seg (c : Driver.CacheHitCounter) (col : Z) :
  Driver.column c col
  = Driver.seg (Driver.addresses c) (col * Driver.depth) (Z.to_nat Driver.depth).
Proof. unfold Driver.column. rewrite <- seg_map. reflexivity. Qed.

Lemma column_length (c : Driver.CacheHitCounter) (col : Z) :
  length (Driver.column c col) = 16%nat.
Proof. rewrite column_seg, seg_length. reflexivity. Qed.

Lemma depth_eq : Driver.depth = 16.
Proof. reflexivity. Qed.

(** What [insert] does, in terms of [shift_in] on the column of the
    hash. *)
Lemma insert_spec (x h : Z) (c : Driver.CacheHitCounter) :
  Driver.wf c ->
  let col := h mod Driver.width c in
  let c' := Driver.insert x h c in
  let res := Driver.shift_in x x (Driver.column c col) in
  Driver.wf c' /\ Driver.width c' = Driver.width c /\
  Driver.column c' col = fst res /\
  Driver.hits c' = (if snd res then u64 (Driver.hits c + 1)
                    else Driver.hits c) /\
  Driver.misses c' = (if snd res then Driver.misses c
                      else u64 (Driver.misses c + 1)) /\
  forall col', 0 <= col' < Driver.width c -> col' <> col ->
    Driver.column c' col' = Driver.column c col'.
Proof.
  intros (Hw & Hsz & Hlen) col c' res.
  assert (Hcol : 0 <= col < Driver.width c) by (apply Z.mod_pos_bound; lia).
  subst res c'. unfold Driver.insert, Driver.wf. fold col.
  rewrite !column_seg.
  assert (Hcs : forall c1 col',
            Driver.column c1 col'
            = Driver.seg (Driver.addresses c1) (col' * Driver.depth)
                (Z.to_nat Driver.depth)) by (intros; apply column_seg).
  remember (Z.to_nat Driver.depth) as n eqn:En.
  assert (Hn : Z.of_nat n = 16) by (subst n; reflexivity).
  clear En. replace Driver.depth with 16 in * by reflexivity.
  rewrite (u64_small (col * 16)) by lia.
  pose proof (insert_loop_seg n 0 (col * 16) x x (Driver.addresses c)) as L.
  rewrite Z.add_0_r in L.
  destruct L as (Lh & Lseg & Llen & Lframe); [lia|rewrite Hlen; lia|].
  destruct (Driver.insert_loop n 0 (col * 16) x x (Driver.addresses c))
    as [a' hit] eqn:El.
  cbn [fst snd] in Lh, Lseg, Llen, Lframe. rewrite <- Lh, <- Lseg.
  assert (Hother : forall col', 0 <= col' < Driver.width c -> col' <> col ->
            Driver.seg a' (col' * 16) n
            = Driver.seg (Driver.addresses c) (col' * 16) n).
  { intros col' Hc' Hne. apply seg_ext. intros j Hj. apply Lframe; lia. }
  destruct hit; cbn [Driver.addresses Driver.width Driver.hits Driver.misses];
    rewrite Llen;
    (split; [split; [exact Hw|]; split; [lia|exact Hlen]|]);
    (split; [reflexivity|]); (split; [reflexivity|]);
    (split; [reflexivity|]); (split; [reflexivity|]);
    intros col' Hc' Hne; rewrite !Hcs;
    cbn [Driver.addresses]; apply (Hother col' Hc' Hne).
Qed.

(** X12.  [insert] keeps a column in order of last use.  If the line is in
    the column of its hash, the call counts a hit, moves the line to row 0
    and moves the lines that were above it one row down; the rows below
    stay.  If it is not, the call counts a miss, puts the line in row 0,
    moves every line one row down and drops the line of the last row. *)
Theorem insert_move_to_front (x h : Z) (c : Driver.CacheHitCounter) :
  Driver.wf c ->
  let col := h mod Driver.width c in
  let c' := Driver.insert x h c in
  (x ∈ Driver.column c col ->
   exists l1 l2,
     Driver.column c col = l1 ++ x :: l2 /\ (x ∉ l1) /\
     Driver.column c' col = x :: l1 ++ l2 /\
     Driver.hits c' = u64 (Driver.hits c + 1) /\
     Driver.misses c' = Driver.misses c) /\
  (x ∉ Driver.column c col ->
   Driver.column c' col = x :: take 15 (Driver.column c col) /\
   Driver.hits c' = Driver.hits c /\
   Driver.misses c' = u64 (Driver.misses c + 1)).
Proof.
  intros Hwf col c'.
  destruct (insert_spec x h c Hwf) as (_ & _ & Hcol & Hh & Hm & _).
  fold col c' in Hcol, Hh, Hm. split.
  - intros Hin.
    destruct (shift_in_hit x x _ Hin) as (l1 & l2 & El & Hnot & Esh).
    rewrite Esh in Hcol, Hh, Hm. cbn [fst] in Hcol. cbn [snd] in Hh, Hm.
    exists l1, l2. repeat split; assumption.
  - intros Hnot. rewrite (shift_in_miss x x _ Hnot) in Hcol, Hh, Hm.
    cbn [fst] in Hcol. cbn [snd] in Hh, Hm. rewrite column_length in Hcol.
    repeat split; assumption.
Qed.

(** X13.  [insert] changes one column only, the column of the hash, and
    keeps the array at its size. *)
Theorem insert_other_columns (x h col' : Z) (c : Driver.CacheHitCounter) :
  Driver.wf c -> 0 <= col' < Driver.width c ->
  col' <> h mod Driver.width c ->
  Driver.column (Driver.insert x h c) col' = Driver.column c col' /\
  Driver.width (Driver.insert x h c) = Driver.width c /\
  length (Driver.addresses (Driver.insert x h c))
  = length (Driver.addresses c).
Proof.
  intros Hwf Hc Hne.
  destruct (insert_spec x h c Hwf) as ((_ & _ & Hlen') & Hw & _ & _ & _ & Ho).
  split; [apply Ho; assumption|]. split; [exact Hw|].
  destruct Hwf as (_ & _ & Hlen). rewrite Hlen', Hlen, Hw. reflexivity.
Qed.

(** *** Counting *)

Lemma initialize_wf (size : Z) :
  1024 <= size < 2 ^ 64 -> Driver.wf (Driver.initialize size).
Proof.
  intros Hs. unfold Driver.wf, Driver.initialize. simpl Driver.width.
  simpl Driver.addresses.
  replace (u64 (1 ≪ Driver.depthLog2 * Driver.cacheLineSize)) with 1024
    by reflexivity.
  replace Driver.depth with 16 by reflexivity.
  assert (1 <= size / 1024) by (apply Z.div_le_lower_bound; lia).
  assert (size / 1024 < 2 ^ 54) by (apply Z.div_lt_upper_bound; lia).
  rewrite length_replicate, u64_small by lia. lia.
Qed.

Lemma mem_cb_wf (v : Z) (c : Driver.CacheHitCounter) :
  Driver.wf c -> Driver.wf (fst (Driver.mem_cb v c)).
Proof. intros Hwf. simpl. apply (insert_spec v _ c Hwf). Qed.

Lemma mem_cb_total (v : Z) (c : Driver.CacheHitCounter) :
  Driver.wf c ->
  Driver.getTotalAccesses (fst (Driver.mem_cb v c))
  = u64 (Driver.getTotalAccesses c + 1).
Proof.
  intros Hwf. simpl fst.
  destruct (insert_spec v (Z.lxor v (v ≫ 13)) c Hwf)
    as (_ & _ & _ & Hh & Hm & _).
  unfold Driver.getTotalAccesses. rewrite Hh, Hm.
  destruct (snd _); unfold u64; rewrite ?Zplus_mod_idemp_l, ?Zplus_mod_idemp_r;
    f_equal; lia.
Qed.

Lemma mem_cbs_total (vs : list Z) (c : Driver.CacheHitCounter) :
  Driver.wf c ->
  Driver.wf (Driver.mem_cbs vs c) /\
  Driver.getTotalAccesses (Driver.mem_cbs vs c)
  = u64 (Driver.getTotalAccesses c + Z.of_nat (length vs)).
Proof.
  revert c. induction vs as [|v vs IH]; intros c Hwf.
  - simpl. split; [exact Hwf|]. rewrite Z.add_0_r.
    unfold Driver.getTotalAccesses, u64. rewrite Zmod_mod. reflexivity.
  - destruct (IH _ (mem_cb_wf v c Hwf)) as [Hwf' Ht].
    change (Driver.mem_cbs (v :: vs) c)
      with (Driver.mem_cbs vs (fst (Driver.mem_cb v c))).
    split; [exact Hwf'|].
    rewrite Ht, (mem_cb_total v c Hwf). unfold u64.
    rewrite Zplus_mod_idemp_l. f_equal. simpl length. lia.
Qed.

(** X14.  Every callback is counted once, as a hit or as a miss: after the
    callbacks for [vs] on a counter set up by [initialize(size)],
    [getTotalAccesses()] is the number of callbacks (modulo 2^64). *)
Theorem total_counts_callbacks (size : Z) (vs : list Z) :
  1024 <= size < 2 ^ 64 ->
  Driver.getTotalAccesses (Driver.mem_cbs vs (Driver.initialize size))
  = u64 (Z.of_nat (length vs)).
Proof.
  intros Hs.
  destruct (mem_cbs_total vs _ (initialize_wf size Hs)) as [_ Ht].
  rewrite Ht. reflexivity.
Qed.

(** *** How long a line is kept *)

Lemma shift_in_front (x pc : Z) (l : list Z) :
  l <> [] -> fst (Driver.shift_in x pc l) !! 0%nat = Some pc.
Proof.
  destruct l as [|y l]; [congruence|]. intros _. simpl.
  destruct (y =? x); [reflexivity|].
  destruct (Driver.shift_in x y l). reflexivity.
Qed.

(** One [insert] moves a line of the column down by at most one row. *)
Lemma shift_in_keeps (x y : Z) (l : list Z) (p : nat) :
  l !! p = Some x -> (S p < length l)%nat ->
  exists p', (p' <= S p)%nat /\ fst (Driver.shift_in y y l) !! p' = Some x.
Proof.
  intros Hp Hlen. destruct (decide (y ∈ l)) as [Hin|Hnot].
  - destruct (shift_in_hit y y l Hin) as (l1 & l2 & -> & _ & ->).
    cbn [fst]. destruct (lt_eq_lt_dec p (length l1)) as [[Hlt|Heq]|Hgt].
    + exists (S p). split; [lia|]. simpl.
      rewrite lookup_app_l in Hp |- * by lia. exact Hp.
    + exists 0%nat. split; [lia|]. simpl.
      rewrite lookup_app_r in Hp by lia.
      replace (p - length l1)%nat with 0%nat in Hp by lia.
      simpl in Hp. exact Hp.
    + exists p. split; [lia|].
      rewrite lookup_app_r in Hp by lia.
      destruct p as [|p]; [lia|]. simpl.
      rewrite lookup_app_r by lia.
      replace (S p - length l1)%nat with (S (p - length l1)) in Hp by lia.
      simpl in Hp. exact Hp.
  - rewrite (shift_in_miss y y l Hnot). cbn [fst].
    exists (S p). split; [lia|].
    rewrite lookup_take_lt by lia. simpl. exact Hp.
Qed.

Lemma column_of_mem_cb (v y : Z) (c : Driver.CacheHitCounter) :
  Driver.wf c ->
  Driver.column_of (fst (Driver.mem_cb y c)) v = Driver.column_of c v.
Proof.
  intros Hwf. unfold Driver.column_of. simpl fst.
  destruct (insert_spec y (Z.lxor y (y ≫ 13)) c Hwf) as (_ & Hw & _).
  rewrite Hw. reflexivity.
Qed.

Lemma mem_cb_keeps (v y : Z) (c : Driver.CacheHitCounter) (k : nat) :
  Driver.wf c -> (k < 15)%nat ->
  (exists p, (p <= k)%nat /\
     Driver.column c (Driver.column_of c v) !! p = Some v) ->
  exists p, (p <= S k)%nat /\
    Driver.column (fst (Driver.mem_cb y c))
      (Driver.column_of (fst (Driver.mem_cb y c)) v) !! p = Some v.
Proof.
  intros Hwf Hk (p & Hp & Hx). rewrite (column_of_mem_cb v y c Hwf).
  simpl fst.
  destruct (insert_spec y (Z.lxor y (y ≫ 13)) c Hwf)
    as (_ & _ & Hcol & _ & _ & Hother).
  assert (Hrange : 0 <= Driver.column_of c v < Driver.width c).
  { unfold Driver.column_of. apply Z.mod_pos_bound. destruct Hwf; lia. }
  destruct (decide (Driver.column_of c v
                    = Z.lxor y (y ≫ 13) mod Driver.width c)) as [Heq|Hne].
  - rewrite Heq in Hx |- *. rewrite Hcol.
    destruct (shift_in_keeps v y _ p Hx) as (p' & Hp' & Hx').
    + rewrite column_length. lia.
    + exists p'. split; [lia|exact Hx'].
  - rewrite (Hother _ Hrange Hne). exists p. split; [lia|exact Hx].
Qed.

Lemma mem_cbs_keeps (v : Z) (vs : list Z) (c : Driver.CacheHitCounter)
    (k : nat) :
  Driver.wf c -> (k + length vs <= 15)%nat ->
  (exists p, (p <= k)%nat /\
     Driver.column c (Driver.column_of c v) !! p = Some v) ->
  Driver.wf (Driver.mem_cbs vs c) /\
  exists p, (p <= k + length vs)%nat /\
    Driver.column (Driver.mem_cbs vs c)
      (Driver.column_of (Driver.mem_cbs vs c) v) !! p = Some v.
Proof.
  revert c k. induction vs as [|y vs IH]; intros c k Hwf Hk Hinv.
  - simpl. split; [exact Hwf|]. destruct Hinv as (p & Hp & Hx).
    exists p. split; [lia|exact Hx].
  - change (Driver.mem_cbs (y :: vs) c)
      with (Driver.mem_cbs vs (fst (Driver.mem_cb y c))).
    simpl length in Hk |- *.
    destruct (IH (fst (Driver.mem_cb y c)) (S k) (mem_cb_wf y c Hwf)
                ltac:(lia) (mem_cb_keeps v y c k Hwf ltac:(lia) Hinv))
      as [Hwf' (p & Hp & Hx)].
    split; [exact Hwf'|]. exists p. split; [lia|exact Hx].
Qed.

(** X15.  A line stays in the counter for at least 15 further callbacks:
    if the callback for [v] is followed by at most 15 callbacks for any
    addresses, the next callback for [v] is counted as a hit. *)
Theorem line_kept_for_15_callbacks (v : Z) (vs : list Z)
    (c : Driver.CacheHitCounter) :
  Driver.wf c -> (length vs <= 15)%nat ->
  let c2 := Driver.mem_cbs (v :: vs) c in
  let c3 := fst (Driver.mem_cb v c2) in
  Driver.hits c3 = u64 (Driver.hits c2 + 1) /\
  Driver.misses c3 = Driver.misses c2.
Proof.
  intros Hwf Hlen c2 c3.
  assert (Hfirst : exists p, (p <= 0)%nat /\
            Driver.column (fst (Driver.mem_cb v c))
              (Driver.column_of (fst (Driver.mem_cb v c)) v) !! p = Some v).
  { exists 0%nat. split; [lia|]. rewrite (column_of_mem_cb v v c Hwf).
    simpl fst.
    destruct (insert_spec v (Z.lxor v (v ≫ 13)) c Hwf) as (_ & _ & Hcol & _).
    unfold Driver.column_of. rewrite Hcol. apply shift_in_front.
    intros E. apply (f_equal length) in E. rewrite column_length in E.
    discriminate. }
  destruct (mem_cbs_keeps v vs _ 0 (mem_cb_wf v c Hwf) ltac:(lia) Hfirst)
    as [Hwf2 (p & _ & Hx)].
  change (Driver.mem_cbs vs (fst (Driver.mem_cb v c))) with c2 in Hwf2, Hx.
  assert (Hin : v ∈ Driver.column c2 (Driver.column_of c2 v))
    by (apply list_elem_of_lookup; exists p; exact Hx).
  destruct (insert_spec v (Z.lxor v (v ≫ 13)) c2 Hwf2)
    as (_ & _ & _ & Hh & Hm & _).
  destruct (shift_in_hit v v _ Hin) as (l1 & l2 & _ & _ & Esh).
  unfold Driver.column_of in Esh. rewrite Esh in Hh, Hm.
  cbn [snd] in Hh, Hm. split; [exact Hh|exact Hm].
Qed.

(** *** Empty rows *)

Lemma seg_replicate (n : nat) (s : Z) (m : nat) :
  Driver.seg (replicate n 0) s m = replicate m 0.
Proof.
  revert s. induction m as [|m IH]; intros s; simpl; [reflexivity|].
  rewrite rd_replicate, IH. reflexivity.
Qed.

(** X16.  Empty rows hold 0, and [insert] does not tell an empty row from
    line 0: on a counter just set up by [initialize], the callback for
    address 0 is counted as a hit, and the callback for any other address
    as a miss. *)
Theorem first_callback_on_empty_counter (size v : Z) :
  1024 <= size < 2 ^ 64 ->
  let c := fst (Driver.mem_cb v (Driver.initialize size)) in
  Driver.hits c = (if v =? 0 then 1 else 0) /\
  Driver.misses c = (if v =? 0 then 0 else 1).
Proof.
  intros Hs c. subst c. simpl fst.
  pose proof (initialize_wf size Hs) as Hwf.
  destruct (insert_spec v (Z.lxor v (v ≫ 13)) _ Hwf)
    as (_ & _ & _ & Hh & Hm & _).
  assert (Hcol : forall col, Driver.column (Driver.initialize size) col
                             = replicate 16 0).
  { intros col. rewrite column_seg. apply seg_replicate. }
  rewrite Hcol in Hh, Hm. rewrite Hh, Hm.
  destruct (Z.eqb_spec v 0) as [->|Hne].
  - split; reflexivity.
  - rewrite shift_in_miss.
    + split; reflexivity.
    + intros Hin. apply elem_of_replicate in Hin as [Heq _]. congruence.
Qed.

(** *** The counter at concrete inputs *)

Lemma insert_move_to_front_witness :
  Driver.wf (Driver.initialize 2048) /\
  (7 ∉ Driver.column (Driver.initialize 2048) (7 mod 2)) /\
  Driver.column (Driver.insert 7 7 (Driver.initialize 2048)) (7 mod 2)
  = 7 :: take 15 (Driver.column (Driver.initialize 2048) (7 mod 2)) /\
  Driver.hits (Driver.insert 7 7 (Driver.initialize 2048)) = 0 /\
  Driver.misses (Driver.insert 7 7 (Driver.initialize 2048)) = 1.
Proof.
  assert (W : Driver.wf (Driver.initialize 2048))
    by (apply initialize_wf; lia).
  assert (N : 7 ∉ Driver.column (Driver.initialize 2048) (7 mod 2))
    by (apply (bool_decide_unpack _); vm_compute; exact I).
  split; [exact W|]. split; [exact N|].
  destruct (insert_move_to_front 7 7 (Driver.initialize 2048) W) as [_ Hmiss].
  exact (Hmiss N).
Defined.

Lemma insert_other_columns_witness :
  Driver.wf (Driver.initialize 2048) /\
  0 <= 0 < Driver.width (Driver.initialize 2048) /\
  0 <> 7 mod Driver.width (Driver.initialize 2048) /\
  Driver.column (Driver.insert 7 7 (Driver.initialize 2048)) 0
  = Driver.column (Driver.initialize 2048) 0.
Proof.
  assert (W : Driver.wf (Driver.initialize 2048))
    by (apply initialize_wf; lia).
  assert (R : 0 <= 0 < Driver.width (Driver.initialize 2048))
    by (vm_compute; split; [discriminate|reflexivity]).
  assert (N : 0 <> 7 mod Driver.width (Driver.initialize 2048))
    by (vm_compute; discriminate).
  split; [exact W|]. split; [exact R|]. split; [exact N|].
  apply (insert_other_columns 7 7 0 (Driver.initialize 2048) W R N).
Defined.

Lemma total_counts_callbacks_witness :
  1024 <= 2048 < 2 ^ 64 /\
  Driver.getTotalAccesses
    (Driver.mem_cbs [4096; 64; 4096; 0] (Driver.initialize 2048)) = 4.
Proof.
  assert (S : 1024 <= 2048 < 2 ^ 64) by lia.
  split; [exact S|].
  rewrite (total_counts_callbacks 2048 [4096; 64; 4096; 0] S).
  reflexivity.
Defined.

Lemma line_kept_for_15_callbacks_witness :
  Driver.wf (Driver.initialize 2048) /\
  (length Driver.fifteen_lines <= 15)%nat /\
  Driver.hits
    (fst (Driver.mem_cb 32
            (Driver.mem_cbs
               (32 :: Driver.fifteen_lines)
               (Driver.initialize 2048))))
  = u64 (Driver.hits
           (Driver.mem_cbs
              (32 :: Driver.fifteen_lines)
              (Driver.initialize 2048)) + 1).
Proof.
  assert (W : Driver.wf (Driver.initialize 2048))
    by (apply initialize_wf; lia).
  assert (L : (length Driver.fifteen_lines <= 15)%nat)
    by (simpl; lia).
  split; [exact W|]. split; [exact L|].
  apply (line_kept_for_15_callbacks 32 _ (Driver.initialize 2048) W L).
Defined.

Lemma first_callback_on_empty_counter_witness :
  1024 <= 2048 < 2 ^ 64 /\
  Driver.hits (fst (Driver.mem_cb 0 (Driver.initialize 2048))) = 1 /\
  Driver.misses (fst (Driver.mem_cb 0 (Driver.initialize 2048))) = 0 /\
  Driver.hits (fst (Driver.mem_cb 4096 (Driver.initialize 2048))) = 0 /\
  Driver.misses (fst (Driver.mem_cb 4096 (Driver.initialize 2048))) = 1.
Proof.
  assert (S : 1024 <= 2048 < 2 ^ 64) by lia.
  split; [exact S|].
  destruct (first_callback_on_empty_counter 2048 0 S) as [H0 M0].
  destruct (first_callback_on_empty_counter 2048 4096 S) as [H1 M1].
  repeat split; assumption.
Defined.

(** * Groups of units *)

Lemma misses_sum_insert (us : list (Cache ())) (i : nat) (u u' : Cache ()) :
  us !! i = Some u ->
  misses_sum (<[i := u']> us) = misses_sum us - misses u + misses u'.
Proof.
  revert i. induction us as [|x us IH]; intros i Hi; [discriminate|].
  destruct i as [|i]; simpl in *.
  - injection Hi as ->. lia.
  - rewrite (IH i Hi). lia.
Qed.

Lemma misses_sum_replicate (n : nat) (u : Cache ()) :
  misses u = 0 -> misses_sum (replicate n u) = 0.
Proof. intros E. induction n as [|n IH]; simpl; lia. Qed.

Section PrivateChains.

(** A group of units [Cache<_, Wu, Su, Lu>] constructed over a group of
    units [Cache<_, Wl, Sl, Ll>], which stands over some store [S0]. *)
Variables Wu Su Lu Wl Sl Ll : Z.
Context {S0 : Type}.

Local Abbreviation lower_set := (CacheGrp_set Wl Sl Ll (S:=S0)).

(** A call through unit [i] of the lower group leaves the other units of
    that group alone. *)
Lemma lower_group_call (i a : Z) (w : bool) (l l' : CacheGrp S0) (j : nat) :
  @access _ (@getMemSysDev _ lower_set i) a w l = Ok l' ->
  j <> Z.to_nat i ->
  caches l' !! j = caches l !! j.
Proof.
  simpl. unfold CacheGrp_access. intros E Hne.
  destruct (caches l !! Z.to_nat i) as [u|]; [|discriminate].
  destruct (Cache_access Wl Sl Ll a w (attach (lowerStore l) u))
    as [c'| |e]; try discriminate.
  simpl in E. injection E as <-. simpl.
  apply list_lookup_insert_ne. congruence.
Qed.

(** X17.  Private chains.  In a group constructed over another group,
    unit [i] refers to unit [i] of the group below.  A call through unit
    [i] leaves every other unit of its own group and every other unit of
    the group below exactly as it was, and keeps the wiring. *)
Theorem private_chains (i : Z) (k : call) (g g' : CacheGrp (CacheGrp S0))
    (j : nat) :
  (forall n, lowerRef g n = @getMemSysDev _ lower_set n) ->
  grp_call Wu Su Lu (i, k) g = Ok g' ->
  j <> Z.to_nat i ->
  caches g' !! j = caches g !! j /\
  caches (lowerStore g') !! j = caches (lowerStore g) !! j /\
  lowerRef g' = lowerRef g.
Proof.
  intros Hwire E Hne. unfold grp_call in E. cbn [fst snd] in E.
  destruct k as [a w|a].
  - unfold CacheGrp_access in E.
    destruct (caches g !! Z.to_nat i) as [u|]; [|discriminate].
    destruct (@Cache_access Wu Su Lu _ (lowerRef g i) a w
                (attach (lowerStore g) u)) as [c'| |e] eqn:Ec;
      try discriminate.
    simpl in E. injection E as <-. simpl.
    split; [apply list_lookup_insert_ne; congruence|].
    split; [|reflexivity].
    destruct (Cache_access_Ok_inv Wu Su Lu a w _ c' Ec)
      as [_ [(idx & _ & ->) | (ll' & _ & Hll & ->)]]; simpl.
    + reflexivity.
    + simpl in Hll. rewrite Hwire in Hll.
      apply (lower_group_call i _ w (lowerStore g) ll' j Hll Hne).
  - unfold CacheGrp_invalidate in E.
    destruct (caches g !! Z.to_nat i) as [u|]; [|discriminate].
    simpl in E. injection E as <-. simpl.
    split; [apply list_lookup_insert_ne; congruence|].
    split; reflexivity.
Qed.

End PrivateChains.

Section SharedLevel.

(** A group of units [Cache<_, Wu, Su, Lu>] constructed over one unit
    [Cache<_, Wl, Sl, Ll>] that all of them refer to. *)
Variables Wu Su Lu Wl Sl Ll : Z.
Context {LL : Type} `{MemSysDev LL}.

Local Abbreviation shared_unit := (Cache_dev Wl Sl Ll (LL:=LL)).

Lemma shared_step (ik : Z * call) (g g' : CacheGrp (Cache LL)) :
  (forall n, lowerRef g n = shared_unit) ->
  accesses (lowerStore g) = u64 (misses_sum (caches g)) ->
  grp_call Wu Su Lu ik g = Ok g' ->
  (forall n, lowerRef g' n = shared_unit) /\
  accesses (lowerStore g') = u64 (misses_sum (caches g')).
Proof.
  intros Hwire Hinv E. destruct ik as [i k]. unfold grp_call in E.
  cbn [fst snd] in E. destruct k as [a w|a].
  - unfold CacheGrp_access in E.
    destruct (caches g !! Z.to_nat i) as [u|] eqn:Eu; [|discriminate].
    destruct (@Cache_access Wu Su Lu _ (lowerRef g i) a w
                (attach (lowerStore g) u)) as [c'| |e] eqn:Ec;
      try discriminate.
    simpl in E. injection E as <-. simpl. split; [exact Hwire|].
    rewrite (misses_sum_insert _ _ u _ Eu). simpl.
    destruct (Cache_access_Ok_inv Wu Su Lu a w _ c' Ec)
      as [_ [(idx & _ & ->) | (ll' & _ & Hll & ->)]]; simpl.
    + rewrite Hinv. f_equal. lia.
    + simpl in Hll. rewrite Hwire in Hll.
      destruct (Cache_access_counters Wl Sl Ll _ _ _ _ Hll) as [Ha _].
      rewrite Ha, Hinv. unfold u64.
      rewrite Zplus_mod_idemp_l, Zplus_mod_idemp_r. f_equal. lia.
  - unfold CacheGrp_invalidate in E.
    destruct (caches g !! Z.to_nat i) as [u|] eqn:Eu; [|discriminate].
    simpl in E. injection E as <-. simpl. split; [exact Hwire|].
    rewrite (misses_sum_insert _ _ u _ Eu). simpl.
    rewrite Hinv. f_equal. lia.
Qed.

Lemma shared_run (iks : list (Z * call)) (g g' : CacheGrp (Cache LL)) :
  (forall n, lowerRef g n = shared_unit) ->
  accesses (lowerStore g) = u64 (misses_sum (caches g)) ->
  grp_run Wu Su Lu iks g = Ok g' ->
  accesses (lowerStore g') = u64 (misses_sum (caches g')).
Proof.
  revert g. induction iks as [|ik iks IH]; intros g Hwire Hinv E.
  - injection E as <-. exact Hinv.
  - simpl in E. destruct (grp_call Wu Su Lu ik g) as [g1| |e] eqn:E1;
      try discriminate.
    simpl in E. destruct (shared_step ik g g1 Hwire Hinv E1) as [Hw1 Hi1].
    exact (IH g1 Hw1 Hi1 E).
Qed.

(** X18.  A shared level sees the misses of all units.  In a group of
    newly constructed units over one newly constructed unit, after any
    sequence of calls through any of the units, the [accesses] counter of
    the shared unit is the sum of the [misses] counters of the units of the
    group (modulo 2^64). *)
Theorem shared_level_accesses (n : Z) (ll : LL) (iks : list (Z * call))
    (g : CacheGrp (Cache LL)) :
  grp_run Wu Su Lu iks
    (@CacheGrp_shared Wu Su (Cache LL) shared_unit n (Cache_new Wl Sl ll))
  = Ok g ->
  accesses (lowerStore g) = u64 (misses_sum (caches g)).
Proof.
  intros E. apply (shared_run iks _ g) in E; [exact E| |].
  - intros m. reflexivity.
  - simpl. rewrite misses_sum_replicate by reflexivity. reflexivity.
Qed.

End SharedLevel.

(** *** Groups at concrete inputs *)

Section GroupResults.

Variables WAYS L2SETS L2LINESZ : Z.
Context {S : Type}.

Lemma grp_call_lowerRef (ik : Z * call) (g g' : CacheGrp S) :
  grp_call WAYS L2SETS L2LINESZ ik g = Ok g' -> lowerRef g' = lowerRef g.
Proof.
  destruct ik as [i k]. unfold grp_call. cbn [fst snd].
  destruct k as [a w|a]; unfold CacheGrp_access, CacheGrp_invalidate;
    destruct (caches g !! Z.to_nat i) as [u|]; try discriminate.
  - destruct (@Cache_access WAYS L2SETS L2LINESZ _ (lowerRef g i) a w
                (attach (lowerStore g) u)) as [c'| |e]; try discriminate.
    simpl. intros E. injection E as <-. reflexivity.
  - simpl. intros E. injection E as <-. reflexivity.
Qed.

(** A call is determined by the units and the store it leaves: the wiring
    does not change. *)
Lemma grp_call_result (ik : Z * call) (g : CacheGrp S)
    (cs : list (Cache ())) (st : S) :
  omap caches (grp_call WAYS L2SETS L2LINESZ ik g) = Ok cs ->
  omap lowerStore (grp_call WAYS L2SETS L2LINESZ ik g) = Ok st ->
  grp_call WAYS L2SETS L2LINESZ ik g = Ok (mkGrp cs st (lowerRef g)).
Proof.
  destruct (grp_call WAYS L2SETS L2LINESZ ik g) as [g'| |e] eqn:E;
    simpl; try discriminate.
  intros E1 E2. injection E1 as <-. injection E2 as <-.
  rewrite <- (grp_call_lowerRef ik g g' E). destruct g'. reflexivity.
Qed.

Lemma grp_run_lowerRef (iks : list (Z * call)) (g g' : CacheGrp S) :
  grp_run WAYS L2SETS L2LINESZ iks g = Ok g' -> lowerRef g' = lowerRef g.
Proof.
  revert g. induction iks as [|ik iks IH]; intros g E.
  - injection E as <-. reflexivity.
  - simpl in E.
    destruct (grp_call WAYS L2SETS L2LINESZ ik g) as [g1| |e] eqn:E1;
      try discriminate.
    simpl in E. rewrite (IH g1 E). apply (grp_call_lowerRef ik g g1 E1).
Qed.

Lemma grp_run_result (iks : list (Z * call)) (g : CacheGrp S)
    (cs : list (Cache ())) (st : S) :
  omap caches (grp_run WAYS L2SETS L2LINESZ iks g) = Ok cs ->
  omap lowerStore (grp_run WAYS L2SETS L2LINESZ iks g) = Ok st ->
  grp_run WAYS L2SETS L2LINESZ iks g = Ok (mkGrp cs st (lowerRef g)).
Proof.
  destruct (grp_run WAYS L2SETS L2LINESZ iks g) as [g'| |e] eqn:E;
    simpl; try discriminate.
  intros E1 E2. injection E1 as <-. injection E2 as <-.
  rewrite <- (grp_run_lowerRef iks g g' E). destruct g'. reflexivity.
Qed.

End GroupResults.

Lemma private_chains_witness :
  (forall n, lowerRef grp_chain n = @getMemSysDev _ (CacheGrp_set 2 0 6) n) /\
  1%nat <> Z.to_nat 0 /\
  exists g',
    grp_call 1 0 6 (0, Access 100 true) grp_chain = Ok g' /\
    caches g' !! 1%nat = caches grp_chain !! 1%nat /\
    caches (lowerStore g') !! 1%nat
    = caches (lowerStore grp_chain) !! 1%nat /\
    lowerStore (lowerStore g') = [(64, true)].
Proof.
  assert (Wr : forall n, lowerRef grp_chain n
                         = @getMemSysDev _ (CacheGrp_set 2 0 6) n)
    by (intros n; reflexivity).
  assert (N : 1%nat <> Z.to_nat 0) by (simpl; discriminate).
  split; [exact Wr|]. split; [exact N|].
  assert (E : grp_call 1 0 6 (0, Access 100 true) grp_chain
              = Ok (mkGrp [mkCache () [65] [1] [1] 1 1; Cache_new 1 0 ()]
                      (mkGrp [mkCache () [0; 65] [0; 1] [1] 1 1;
                              Cache_new 2 0 ()]
                         [(64, true)] (lowerRef grp_low))
                      (lowerRef grp_chain)))
    by (apply grp_call_result; vm_compute; reflexivity).
  eexists. split; [exact E|].
  destruct (private_chains 1 0 6 2 0 6 0 (Access 100 true) _ _ 1%nat Wr E N)
    as (H1 & H2 & _).
  split; [exact H1|]. split; [exact H2|]. reflexivity.
Defined.

Lemma shared_level_accesses_witness :
  exists g,
    grp_run 1 0 6
      [(0, Access 0 false); (1, Access 0 false); (0, Access 0 true);
       (1, Invalidate 0); (1, Access 64 false)] grp_shared = Ok g /\
    accesses (lowerStore g) = u64 (misses_sum (caches g)) /\
    misses_sum (caches g) = 3.
Proof.
  assert (E : grp_run 1 0 6
                [(0, Access 0 false); (1, Access 0 false); (0, Access 0 true);
                 (1, Invalidate 0); (1, Access 64 false)] grp_shared
              = Ok (mkGrp [mkCache () [1] [2] [2] 2 1;
                           mkCache () [65] [2] [2] 2 2]
                      (mkCache [(0, false); (64, false)]
                         [0; 65] [0; 3] [3] 3 2)
                      (lowerRef grp_shared)))
    by (apply grp_run_result; vm_compute; reflexivity).
  eexists. split; [exact E|]. split; [|vm_compute; reflexivity].
  apply (shared_level_accesses 1 0 6 2 0 6 2 []
           [(0, Access 0 false); (1, Access 0 false); (0, Access 0 true);
            (1, Invalidate 0); (1, Access 64 false)]).
  exact E.
Defined.
